(** * vue-pascalcase-migrator: naming transform, import matcher and rewriter

    A shallow embedding of [src/utils/naming.ts], [src/utils/imports.ts] and
    the programmatic API ([findKebabCaseFiles], [createMappingsFromFiles],
    [renameVueFiles]), together with the properties the specification states
    about them.  The search for the vite configuration
    ([src/utils/vite-config.ts]) and the line count of [src/utils/files.ts]
    are embedded as well, and a second part proves further properties of
    the code.

    JavaScript strings are modelled as lists of characters ([list ascii]);
    every character the program inspects ('/', '.', '-', letters, digits,
    quotes) is ASCII.  The functions of Node's [path] module are modelled in
    their POSIX flavour. *)

From Stdlib Require Import Ascii String.
From stdpp Require Import base decidable option list gmap strings.

Set Default Proof Using "Type".

(** ** JavaScript strings *)

Abbreviation str := (list ascii).

(** String literals are read as character lists. *)
Coercion list_ascii_of_string : string >-> list.

Module Js.

Definition is_lower (c : ascii) : bool :=
  (97 <=? nat_of_ascii c) && (nat_of_ascii c <=? 122).

Definition is_upper (c : ascii) : bool :=
  (65 <=? nat_of_ascii c) && (nat_of_ascii c <=? 90).

Definition is_digit (c : ascii) : bool :=
  (48 <=? nat_of_ascii c) && (nat_of_ascii c <=? 57).

(** [String.prototype.toUpperCase] and [toLowerCase], one character at a
    time, on the ASCII range. *)
Definition toUpperChar (c : ascii) : ascii :=
  if is_lower c then ascii_of_nat (nat_of_ascii c - 32) else c.

Definition toLowerChar (c : ascii) : ascii :=
  if is_upper c then ascii_of_nat (nat_of_ascii c + 32) else c.

Definition toUpperCase (s : str) : str := toUpperChar <$> s.
Definition toLowerCase (s : str) : str := toLowerChar <$> s.

(** [s.startsWith(p)] *)
Fixpoint startsWith (s p : str) {struct p} : bool :=
  match p, s with
  | [], _ => true
  | a :: p', b :: s' => if decide (a = b) then startsWith s' p' else false
  | _ :: _, [] => false
  end.

(** [s.endsWith(p)] *)
Definition endsWith (s p : str) : bool := startsWith (reverse s) (reverse p).

(** [s.lastIndexOf(pat)]; [None] stands for the result [-1]. *)
Fixpoint lastIndexOf (s pat : str) : option nat :=
  match s with
  | [] => if pat is [] then Some 0 else None
  | _ :: s' =>
      match lastIndexOf s' pat with
      | Some i => Some (S i)
      | None => if startsWith s pat then Some 0 else None
      end
  end.

(** [s.split(sep)] for a one-character separator: never empty. *)
Fixpoint split (sep : ascii) (s : str) : list str :=
  match s with
  | [] => [[]]
  | c :: s' =>
      if decide (c = sep) then [] :: split sep s'
      else match split sep s' with
           | w :: ws => (c :: w) :: ws
           | [] => [[c]]
           end
  end.

(** [parts.join(sep)] *)
Fixpoint join (sep : str) (parts : list str) : str :=
  match parts with
  | [] => []
  | [w] => w
  | w :: ws => w ++ sep ++ join sep ws
  end.

(** [s.slice(1, -1)] *)
Definition slice_1_m1 (s : str) : str := take (length s - 2) (drop 1 s).

End Js.

(** ** Regular expressions, as far as [isKebabCase] uses them *)

Module Regex.

Inductive regex : Type :=
| Void                                 (* matches nothing *)
| Eps                                  (* the empty word *)
| Class (p : ascii → bool)             (* one character of a class *)
| Seq (r1 r2 : regex)
| Alt (r1 r2 : regex)
| Star (r : regex).

Definition Plus (r : regex) : regex := Seq r (Star r).
Definition Chr (c : ascii) : regex := Class (λ x, bool_decide (x = c)).

(** The words of a regular expression. *)
Inductive lang : regex → str → Prop :=
| lang_eps : lang Eps []
| lang_class p c : p c = true → lang (Class p) [c]
| lang_seq r1 r2 s1 s2 : lang r1 s1 → lang r2 s2 → lang (Seq r1 r2) (s1 ++ s2)
| lang_alt_l r1 r2 s : lang r1 s → lang (Alt r1 r2) s
| lang_alt_r r1 r2 s : lang r2 s → lang (Alt r1 r2) s
| lang_star_nil r : lang (Star r) []
| lang_star_cons r s1 s2 :
    lang r s1 → lang (Star r) s2 → lang (Star r) (s1 ++ s2).

Fixpoint nullable (r : regex) : bool :=
  match r with
  | Void => false
  | Eps => true
  | Class _ => false
  | Seq r1 r2 => nullable r1 && nullable r2
  | Alt r1 r2 => nullable r1 || nullable r2
  | Star _ => true
  end.

(** Brzozowski derivative. *)
Fixpoint deriv (c : ascii) (r : regex) : regex :=
  match r with
  | Void => Void
  | Eps => Void
  | Class p => if p c then Eps else Void
  | Seq r1 r2 =>
      if nullable r1 then Alt (Seq (deriv c r1) r2) (deriv c r2)
      else Seq (deriv c r1) r2
  | Alt r1 r2 => Alt (deriv c r1) (deriv c r2)
  | Star r1 => Seq (deriv c r1) (Star r1)
  end.

(** [/^r$/.test(s)] *)
Fixpoint test (r : regex) (s : str) : bool :=
  match s with
  | [] => nullable r
  | c :: s' => test (deriv c r) s'
  end.

End Regex.

(** ** Node's [path] module (POSIX) *)

(** The program calls [path.extname], [path.basename], [path.dirname],
    [path.resolve] and [path.join].  They belong to Node, not to the
    repository; the definitions below follow the POSIX implementation of
    Node's [lib/path.js], which scans a path from its end. *)

Module Path.

Fixpoint dropWhile {A} (p : A → bool) (l : list A) : list A :=
  match l with
  | [] => []
  | x :: l' => if p x then dropWhile p l' else l
  end.

Fixpoint takeWhile {A} (p : A → bool) (l : list A) : list A :=
  match l with
  | [] => []
  | x :: l' => if p x then x :: takeWhile p l' else []
  end.

Definition is_sep (c : ascii) : bool := bool_decide (c = "/"%char).
Definition is_dot (c : ascii) : bool := bool_decide (c = "."%char).
Definition not_sep (c : ascii) : bool := negb (is_sep c).
Definition not_dot (c : ascii) : bool := negb (is_dot c).

(** The functions of [path] scan their argument from its end: trailing
    separators are skipped, then the last component is read up to the
    separator before it. *)
Definition trailing_seps (p : str) : str := takeWhile is_sep (reverse p).

Definition last_component_rev (p : str) : str :=
  takeWhile not_sep (dropWhile is_sep (reverse p)).

Definition last_component (p : str) : str := reverse (last_component_rev p).

(** [path.extname(p)]: from the last '.' of the last component to its end;
    empty when there is no '.', when the only '.' opens the component, or
    when the component is '..'. *)
Definition extname (p : str) : str :=
  let c := last_component_rev p in
  match dropWhile not_dot c with
  | [] => []
  | _ :: [] => []
  | _ :: _ :: _ =>
      if bool_decide (c = "..") then []
      else reverse (takeWhile not_dot c ++ ["."%char])
  end.

(** [path.basename(p, suffix)]; an absent suffix is the empty one.  The
    suffix is removed from the last component when it is a proper ending of
    it.  When the scan runs out of component while still matching the
    suffix, Node returns the component with the trailing separators. *)
Definition basename (p suffix : str) : str :=
  let c := last_component p in
  if bool_decide (suffix ≠ []) && bool_decide (length suffix ≤ length p) then
    if bool_decide (suffix = p) then []
    else if Js.endsWith c suffix then
      if bool_decide (c = suffix) then c
      else take (length c - length suffix) c
    else if Js.endsWith suffix c then c ++ trailing_seps p
    else c
  else c.

(** [path.dirname(p)] *)
Definition dirname (p : str) : str :=
  match p with
  | [] => "."
  | c0 :: rest =>
      let hasRoot := is_sep c0 in
      match dropWhile not_sep (dropWhile is_sep (reverse rest)) with
      | [] => if hasRoot then "/" else "."
      | _ :: before =>
          if hasRoot && bool_decide (before = []) then "//"
          else c0 :: reverse before
      end
  end.

(** One step of [normalizeString]: the segments seen so far are kept as a
    stack, the last one on top. *)
Definition normalizeStep (allowAboveRoot : bool)
    (res : list str) (seg : str) : list str :=
  if bool_decide (seg = []) || bool_decide (seg = ".") then res
  else if bool_decide (seg = "..") then
    match res with
    | top :: below =>
        if bool_decide (top = "..")
        then (if allowAboveRoot then seg :: res else res)
        else below
    | [] => if allowAboveRoot then [seg] else []
    end
  else seg :: res.

Definition normalizeString (p : str) (allowAboveRoot : bool) : str :=
  Js.join "/"
    (reverse (foldl (normalizeStep allowAboveRoot) [] (Js.split "/" p))).

Definition isAbsolute (p : str) : bool :=
  match p with c :: _ => is_sep c | [] => false end.

(** The right-to-left loop of [path.resolve]: arguments are prepended
    until an absolute one has been seen; empty ones are skipped. *)
Fixpoint resolveLoop (rargs : list str) (resolvedPath : str) : str * bool :=
  match rargs with
  | [] => (resolvedPath, false)
  | p :: rargs' =>
      if bool_decide (p = []) then resolveLoop rargs' resolvedPath
      else
        let resolvedPath' := p ++ "/" ++ resolvedPath in
        if isAbsolute p then (resolvedPath', true)
        else resolveLoop rargs' resolvedPath'
  end.

(** [path.resolve(...args)] in a process whose working directory is
    [cwd]. *)
Definition resolve (cwd : str) (args : list str) : str :=
  let '(resolvedPath, resolvedAbsolute) :=
    resolveLoop (reverse (cwd :: args)) [] in
  let n := normalizeString resolvedPath (negb resolvedAbsolute) in
  if resolvedAbsolute then "/" ++ n
  else if bool_decide (n = []) then "." else n.

(** [path.normalize(p)] *)
Definition normalize (p : str) : str :=
  match p with
  | [] => "."
  | _ =>
      let absolute := isAbsolute p in
      let trailingSeparator := Js.endsWith p "/" in
      let n := normalizeString p (negb absolute) in
      if bool_decide (n = []) then
        if absolute then "/" else if trailingSeparator then "./" else "."
      else
        let n' := if trailingSeparator then n ++ "/" else n in
        if absolute then "/" ++ n' else n'
  end.

(** [path.join(...args)] *)
Definition join (args : list str) : str :=
  match filter (λ a, a ≠ []) args with
  | [] => "."
  | parts => normalize (Js.join "/" parts)
  end.

End Path.

Import Path.

(** ** [src/utils/naming.ts] *)

Module Naming.
Import Regex.

Definition lower : regex := Class Js.is_lower.
Definition lower_alnum : regex := Class (λ c, Js.is_lower c || Js.is_digit c).

(** The pattern [/^[a-z][a-z0-9]*(-[a-z0-9]+)+$/]. *)
Definition kebab_re : regex :=
  Seq lower
    (Seq (Star lower_alnum) (Plus (Seq (Chr "-") (Plus lower_alnum)))).

(** [word.charAt(0).toUpperCase() + word.slice(1).toLowerCase()] *)
Definition capitalize (word : str) : str :=
  Js.toUpperCase (take 1 word) ++ Js.toLowerCase (drop 1 word).

Definition toPascalCase (kebabName : str) : str :=
  let ext := extname kebabName in
  let baseName := basename kebabName ext in
  let pascalName := Js.join [] (capitalize <$> Js.split "-" baseName) in
  pascalName ++ ext.

Definition isKebabCase (filename : str) : bool :=
  let baseName := basename filename (extname filename) in
  test kebab_re baseName.

End Naming.

Import Naming.

(** ** [src/utils/imports.ts] *)

Record RenameMapping := {
  oldPath : str;
  newPath : str;
  oldName : str;
  newName : str;
}.

Record ImportUpdate := {
  file : str;
  oldImport : str;
  newImport : str;
  line : nat;
}.

(** An alias table, as the sequence [Object.entries] enumerates. *)
Definition PathAliases := list (str * str).

Definition DEFAULT_ALIASES : PathAliases :=
  [("@" : str, "src" : str); ("~" : str, "src" : str)].

Record FindImportUpdatesOptions := {
  opt_aliases : option PathAliases;
  opt_projectRoot : option str;
}.

(** What the program reads of a ts-morph project: for each source file its
    path, its import declarations, its call expressions and its export
    declarations, each with the text the program asks for. *)
Record ImportDeclaration := {
  imp_moduleSpecifier : str;        (* getModuleSpecifierValue() *)
  imp_line : nat;                   (* getStartLineNumber() *)
}.

Record CallExpression := {
  call_expression : str;            (* getExpression().getText() *)
  call_arguments : list str;        (* getText() of each argument *)
  call_line : nat;
}.

Record ExportDeclaration := {
  exp_moduleSpecifier : option str; (* undefined for a local export *)
  exp_line : nat;
}.

Record SourceFile := {
  sf_path : str;
  sf_imports : list ImportDeclaration;
  sf_calls : list CallExpression;
  sf_exports : list ExportDeclaration;
}.

Definition Project := list SourceFile.

#[global] Instance ImportDeclaration_eq_dec : EqDecision ImportDeclaration.
Proof. solve_decision. Defined.
#[global] Instance CallExpression_eq_dec : EqDecision CallExpression.
Proof. solve_decision. Defined.
#[global] Instance ExportDeclaration_eq_dec : EqDecision ExportDeclaration.
Proof. solve_decision. Defined.
#[global] Instance SourceFile_eq_dec : EqDecision SourceFile.
Proof. solve_decision. Defined.

(** JavaScript truthiness of a [string | null | undefined]. *)
Definition truthy (v : option str) : bool :=
  match v with
  | Some (_ :: _) => true
  | _ => false
  end.

Section Imports.

(** [process.cwd()], which [path.resolve] falls back on. *)
Variable cwd : str.

Fixpoint resolveAliasImport (moduleSpecifier : str) (aliases : PathAliases)
    (projectRoot : str) : option str :=
  match aliases with
  | [] => None
  | (alias, aliasPath) :: aliases' =>
      let aliasPrefix :=
        if Js.endsWith alias "/" then alias else alias ++ "/" in
      if Js.startsWith moduleSpecifier aliasPrefix
         || bool_decide (moduleSpecifier = alias)
      then
        let relativePath :=
          if Js.startsWith moduleSpecifier aliasPrefix
          then drop (length aliasPrefix) moduleSpecifier
          else [] in
        Some (resolve cwd [projectRoot; aliasPath; relativePath])
      else resolveAliasImport moduleSpecifier aliases' projectRoot
  end.

Definition matchesImport (importingFile moduleSpecifier : str)
    (mapping : RenameMapping) (aliases : PathAliases)
    (projectRoot : str) : bool :=
  if negb (Js.endsWith moduleSpecifier ("/" ++ oldName mapping))
     && bool_decide (moduleSpecifier ≠ "./" ++ oldName mapping)
     && bool_decide (moduleSpecifier ≠ oldName mapping)
  then false
  else
    let aliasResolved :=
      resolveAliasImport moduleSpecifier aliases projectRoot in
    if truthy aliasResolved
    then bool_decide (aliasResolved = Some (oldPath mapping))
    else if Js.startsWith moduleSpecifier "."
    then
      let resolvedPath :=
        resolve cwd [dirname importingFile; moduleSpecifier] in
      bool_decide (resolvedPath = oldPath mapping)
    else false.

Definition replaceImportPath (moduleSpecifier oldName newName : str) : str :=
  match Js.lastIndexOf moduleSpecifier oldName with
  | Some lastIndex =>
      take lastIndex moduleSpecifier ++ newName
        ++ drop (lastIndex + length oldName) moduleSpecifier
  | None => moduleSpecifier
  end.

(** The loop over the mappings that each of the three kinds of reference
    runs: one update is pushed for every mapping that matches. *)
Definition pushMatches (filePath moduleSpecifier : str) (lineNumber : nat)
    (mappings : list RenameMapping) (aliases : PathAliases)
    (projectRoot : str) (updates : list ImportUpdate) : list ImportUpdate :=
  foldl (λ updates mapping,
      if matchesImport filePath moduleSpecifier mapping aliases projectRoot
      then
        let newModuleSpecifier :=
          replaceImportPath moduleSpecifier (oldName mapping)
            (newName mapping) in
        updates ++ [ {| file := filePath;
                        oldImport := moduleSpecifier;
                        newImport := newModuleSpecifier;
                        line := lineNumber |} ]
      else updates)
    updates mappings.

(** The module specifier of a call expression, when it is a dynamic
    import with an argument: the text of the first argument without its
    first and last character. *)
Definition dynamicSpecifier (callExpr : CallExpression) : option str :=
  if bool_decide (call_expression callExpr = "import") then
    match call_arguments callExpr with
    | argText :: _ => Some (Js.slice_1_m1 argText)
    | [] => None
    end
  else None.

Definition findImportUpdates (project : Project)
    (mappings : list RenameMapping)
    (options : FindImportUpdatesOptions) : list ImportUpdate :=
  let aliases := default DEFAULT_ALIASES (opt_aliases options) in
  let projectRoot := default cwd (opt_projectRoot options) in
  foldl (λ updates sourceFile,
      let filePath := sf_path sourceFile in
      (* static imports *)
      let updates :=
        foldl (λ updates importDecl,
            pushMatches filePath (imp_moduleSpecifier importDecl)
              (imp_line importDecl) mappings aliases projectRoot updates)
          updates (sf_imports sourceFile) in
      (* dynamic imports *)
      let updates :=
        foldl (λ updates callExpr,
            match dynamicSpecifier callExpr with
            | Some moduleSpecifier =>
                pushMatches filePath moduleSpecifier (call_line callExpr)
                  mappings aliases projectRoot updates
            | None => updates
            end)
          updates (sf_calls sourceFile) in
      (* re-exports *)
      foldl (λ updates exportDecl,
          if truthy (exp_moduleSpecifier exportDecl) then
            pushMatches filePath (default [] (exp_moduleSpecifier exportDecl))
              (exp_line exportDecl) mappings aliases projectRoot updates
          else updates)
        updates (sf_exports sourceFile))
    [] project.

(** A JavaScript [Map] with string keys, in insertion order. *)
Fixpoint mapGet {V} (k : str) (m : list (str * V)) : option V :=
  match m with
  | [] => None
  | (k', v) :: m' => if bool_decide (k' = k) then Some v else mapGet k m'
  end.

Fixpoint mapSet {V} (k : str) (v : V) (m : list (str * V)) : list (str * V) :=
  match m with
  | [] => [(k, v)]
  | (k', v') :: m' =>
      if bool_decide (k' = k) then (k, v) :: m' else (k', v') :: mapSet k v m'
  end.

Definition groupByFile (updates : list ImportUpdate)
    : list (str * list ImportUpdate) :=
  foldl (λ updatesByFile update,
      let existing := default [] (mapGet (file update) updatesByFile) in
      mapSet (file update) (existing ++ [update]) updatesByFile)
    [] updates.

(** [fileUpdates.find((u) => u.oldImport === moduleSpecifier)] *)
Definition findUpdate (fileUpdates : list ImportUpdate)
    (moduleSpecifier : str) : option ImportUpdate :=
  List.find (λ u, bool_decide (oldImport u = moduleSpecifier)) fileUpdates.

(** The body of the loop over the files of [applyImportUpdates]: the
    references of one source file are rewritten in place, each read and
    written by itself: the specifier of an import or a re-export, the first
    argument of a dynamic import.  The text of a call around a dynamic
    import, which changes with it, is not followed. *)
Definition applyToSourceFile (fileUpdates : list ImportUpdate)
    (sourceFile : SourceFile) : SourceFile :=
  {| sf_path := sf_path sourceFile;
     sf_imports :=
       (λ importDecl,
          match findUpdate fileUpdates (imp_moduleSpecifier importDecl) with
          | Some update =>
              {| imp_moduleSpecifier := newImport update;
                 imp_line := imp_line importDecl |}
          | None => importDecl
          end) <$> sf_imports sourceFile;
     sf_calls :=
       (λ callExpr,
          match dynamicSpecifier callExpr, call_arguments callExpr with
          | Some moduleSpecifier, argText :: args =>
              match findUpdate fileUpdates moduleSpecifier with
              | Some update =>
                  let quoteChar := take 1 argText in
                  {| call_expression := call_expression callExpr;
                     call_arguments :=
                       (quoteChar ++ newImport update ++ quoteChar) :: args;
                     call_line := call_line callExpr |}
              | None => callExpr
              end
          | _, _ => callExpr
          end) <$> sf_calls sourceFile;
     sf_exports :=
       (λ exportDecl,
          if truthy (exp_moduleSpecifier exportDecl) then
            match findUpdate fileUpdates
                    (default [] (exp_moduleSpecifier exportDecl)) with
            | Some update =>
                {| exp_moduleSpecifier := Some (newImport update);
                   exp_line := exp_line exportDecl |}
            | None => exportDecl
            end
          else exportDecl) <$> sf_exports sourceFile |}.

(** [project.getSourceFile(filePath)] followed by the in-place rewriting of
    the file found; nothing happens when the project has no such file.  The
    file path is one in the form of [getFilePath], absolute and normalised,
    which is what [findImportUpdates] records: the file found is the one
    with that very path. *)
Fixpoint alterSourceFile (f : SourceFile → SourceFile) (filePath : str)
    (project : Project) : Project :=
  match project with
  | [] => []
  | sourceFile :: project' =>
      if bool_decide (sf_path sourceFile = filePath)
      then f sourceFile :: project'
      else sourceFile :: alterSourceFile f filePath project'
  end.


Definition applyImportUpdates (project : Project)
    (updates : list ImportUpdate) : Project :=
  foldl (λ project '(filePath, fileUpdates),
      alterSourceFile (applyToSourceFile fileUpdates) filePath project)
    project (groupByFile updates).

End Imports.

(** ** The programmatic API *)

Definition DEFAULT_EXTENSIONS : list str :=
  ["ts" : str; "vue" : str; "tsx" : str; "js" : str; "jsx" : str].

Definition DEFAULT_IGNORE : list str :=
  ["**/node_modules/**" : str; "**/dist/**" : str; "**/.git/**" : str].

Record FindFilesOptions := {
  ff_targetDir : str;
  ff_cwd : option str;
  ff_ignore : option (list str);
}.

Record RenameOptions := {
  targetDir : str;
  ro_cwd : option str;
  importScanDir : option str;
  extensions : option (list str);
  ignore : option (list str);
  dryRun : option bool;
  useGitMv : option bool;
  aliases : option PathAliases;
  autoDetectAliases : option bool;
  onProgress : bool;                 (* whether a callback was given *)
}.

Record FileStats := {
  fs_oldPath : str;
  fs_newPath : str;
  fs_oldName : str;
  fs_newName : str;
  fs_lines : nat;
  fs_size : nat;
}.

Record Summary := {
  totalFiles : nat;
  totalLines : nat;
  totalSize : nat;
  totalImports : nat;
}.

Record RenameResult := {
  mappings : list RenameMapping;
  fileStats : list FileStats;
  importUpdates : list ImportUpdate;
  summary : Summary;
  res_dryRun : bool;
}.

(** A call of the [onProgress] callback. *)
Record ProgressEvent := {
  pe_message : str;
  pe_current : option nat;
  pe_total : option nat;
}.

(** The outcome of a call that may throw. *)
Inductive Outcome (A : Type) : Type :=
| Returned (a : A)
| Thrown.
Arguments Returned {A} a.
Arguments Thrown {A}.

Section Api.

Variable cwd : str.

(** The text of a file is kept abstract; the file system maps the paths
    of the files that exist to their text. *)
Variable Content : Type.

(** The services the program calls and does not implement:
    - [glob(pattern, {cwd, absolute: true, ignore})];
    - ts-morph reading a file into a source file ([None]: it throws), and
      the text of a file after its declarations have been rewritten;
    - the line count and the size of a text;
    - [loadViteAliases] of [src/utils/vite-config.ts]. *)
Variable glob : str → str → list str → gmap str Content → list str.
Variable parseSourceFile : str → Content → option SourceFile.
Variable printSourceFile : Content → SourceFile → Content.
Variable countLines : Content → nat.
Variable byteSize : Content → nat.
Variable loadViteAliases : str → gmap str Content → option PathAliases.

Record World := {
  disk : gmap str Content;
  progress : list ProgressEvent;
}.

(** Computations that read and write the world and may throw. *)
Definition M (A : Type) : Type := World → Outcome A * World.

#[local] Instance M_ret : MRet M := λ A a w, (Returned a, w).
#[local] Instance M_bind : MBind M := λ A B k m w,
  match m w with
  | (Returned a, w') => k a w'
  | (Thrown, w') => (Thrown, w')
  end.

Definition getDisk : M (gmap str Content) := λ w, (Returned (disk w), w).
Definition setDisk (d : gmap str Content) : M unit :=
  λ w, (Returned (), {| disk := d; progress := progress w |}).
Definition throw {A} : M A := λ w, (Thrown, w).

(** [onProgress?.(message, current, total)]: the call is recorded; the
    callback is the caller's and is taken to leave the files alone. *)
Definition report (onProgress : bool) (message : str)
    (current total : option nat) : M unit := λ w,
  if onProgress then
    (Returned (),
     {| disk := disk w;
        progress := progress w ++ [ {| pe_message := message;
                                       pe_current := current;
                                       pe_total := total |} ] |})
  else (Returned (), w).

(** [fs.existsSync(p)], for the path of a file. *)
Definition existsSync (d : gmap str Content) (p : str) : bool :=
  bool_decide (is_Some (d !! p)).

(** The body of the loop over the candidate files. *)
Definition pushMapping (mappings : list RenameMapping) (filePath : str)
    : list RenameMapping :=
  let fileName := basename filePath [] in
  if isKebabCase fileName then
    let newName := toPascalCase fileName in
    let newPath := join [dirname filePath; newName] in
    mappings ++ [ {| oldPath := filePath;
                     newPath := newPath;
                     oldName := fileName;
                     newName := newName |} ]
  else mappings.

Definition findKebabCaseFiles (options : FindFilesOptions)
    (d : gmap str Content) : list RenameMapping :=
  let cwd' := default cwd (ff_cwd options) in
  let ignore := default DEFAULT_IGNORE (ff_ignore options) in
  let absoluteTargetDir := resolve cwd [cwd'; ff_targetDir options] in
  let vueFiles := glob "**/*.vue" absoluteTargetDir ignore d in
  foldl pushMapping [] vueFiles.

Definition createMappingsFromFiles (files : list str)
    (d : gmap str Content) : list RenameMapping :=
  foldl (λ mappings filePath,
      if negb (existsSync d filePath) then mappings
      else pushMapping mappings filePath)
    [] files.

(** [countFileLines] and [getFileSize]: 0 when the file cannot be read. *)
Definition countFileLines (d : gmap str Content) (filePath : str) : nat :=
  from_option countLines 0 (d !! filePath).

Definition getFileSize (d : gmap str Content) (filePath : str) : nat :=
  from_option byteSize 0 (d !! filePath).

Definition collectFileStats (mappings : list RenameMapping)
    (d : gmap str Content) : list FileStats :=
  (λ mapping,
     {| fs_oldPath := oldPath mapping;
        fs_newPath := newPath mapping;
        fs_oldName := oldName mapping;
        fs_newName := newName mapping;
        fs_lines := countFileLines d (oldPath mapping);
        fs_size := getFileSize d (oldPath mapping) |}) <$> mappings.

(** [getProjectAliases]: the aliases of the vite configuration are spread
    over the default ones. *)
Definition getProjectAliases (projectRoot : str)
    (defaultAliases : PathAliases) (d : gmap str Content) : PathAliases :=
  match loadViteAliases projectRoot d with
  | Some viteAliases =>
      foldl (λ merged '(alias, aliasPath), mapSet alias aliasPath merged)
        defaultAliases viteAliases
  | None => defaultAliases
  end.

(** [loadProject]: every file the pattern selects is added to the
    project; a file that cannot be read is skipped; progress is reported
    every 500 files.  The project is kept as the sequence of the source
    files added. *)
Fixpoint loadFiles (onProgress : bool) (sourceFiles : list str)
    (total count : nat) (project : Project) : M Project :=
  match sourceFiles with
  | [] => mret project
  | file :: sourceFiles' =>
      d ← getDisk;
      match d !! file ≫= parseSourceFile file with
      | Some sourceFile =>
          let count := S count in
          _ ← (if bool_decide (count `mod` 500 = 0)
               then report onProgress "Loading project files..."
                      (Some count) (Some total)
               else mret ());
          loadFiles onProgress sourceFiles' total count
            (project ++ [sourceFile])
      | None => loadFiles onProgress sourceFiles' total count project
      end
  end.

Definition loadProject (scanDir : str) (extensions : list str)
    (ignore : list str) (onProgress : bool) : M Project :=
  d ← getDisk;
  let sourceFiles :=
    glob ("**/*.{" ++ Js.join "," extensions ++ "}") scanDir ignore d in
  loadFiles onProgress sourceFiles (length sourceFiles) 0 [].

(** [project.save()]: the text of every source file that was rewritten
    is written back to its path. *)
Definition saveProject (loaded project : Project) : M unit :=
  d ← getDisk;
  setDisk
    (foldl (λ d '(before, after),
        if bool_decide (before = after) then d
        else match d !! sf_path after with
             | Some text =>
                 <[sf_path after := printSourceFile text after]> d
             | None => d
             end)
      d (zip loaded project)).

(** [renameFile]: [git mv] when [useGitMv] is set, and [fs.renameSync]
    when it is not or when the command fails; the file ends up at the new
    path, in a directory that exists, and the call throws when there is no
    file at the old one.  What [git mv] records in the index of the
    repository is not followed. *)
Definition renameFile (oldPath newPath : str) (useGitMv : bool) : M unit :=
  d ← getDisk;
  match d !! oldPath with
  | Some text => setDisk (<[newPath := text]> (delete oldPath d))
  | None => throw
  end.

Fixpoint renameFiles (mappings : list RenameMapping) (useGitMv : bool)
    : M unit :=
  match mappings with
  | [] => mret ()
  | mapping :: mappings' =>
      _ ← renameFile (oldPath mapping) (newPath mapping) useGitMv;
      renameFiles mappings' useGitMv
  end.

Definition renameVueFiles (options : RenameOptions) : M RenameResult :=
  let cwd' := default cwd (ro_cwd options) in
  let extensions := default DEFAULT_EXTENSIONS (extensions options) in
  let ignore := default DEFAULT_IGNORE (ignore options) in
  let dryRun := default false (dryRun options) in
  let useGitMv := default true (useGitMv options) in
  let autoDetectAliases := default true (autoDetectAliases options) in
  let onProgress := onProgress options in
  let absoluteTargetDir := resolve cwd [cwd'; targetDir options] in
  let absoluteScanDir :=
    if truthy (importScanDir options)
    then resolve cwd [cwd'; default [] (importScanDir options)]
    else absoluteTargetDir in
  let projectRoot := cwd' in
  d ← getDisk;
  let aliases :=
    match aliases options with
    | Some providedAliases => providedAliases
    | None =>
        if autoDetectAliases
        then getProjectAliases projectRoot DEFAULT_ALIASES d
        else DEFAULT_ALIASES
    end in
  (* Step 1: find kebab-case Vue files *)
  _ ← report onProgress "Scanning for Vue files..." None None;
  let mappings :=
    findKebabCaseFiles
      {| ff_targetDir := absoluteTargetDir;
         ff_cwd := Some ("/" : str);
         ff_ignore := Some ignore |} d in
  if bool_decide (length mappings = 0) then
    mret {| mappings := [];
            fileStats := [];
            importUpdates := [];
            summary := {| totalFiles := 0; totalLines := 0;
                          totalSize := 0; totalImports := 0 |};
            res_dryRun := dryRun |}
  else
    (* Step 2: collect file statistics *)
    _ ← report onProgress "Collecting file statistics..." None None;
    let fileStats := collectFileStats mappings d in
    let totalLines := foldl (λ sum f, sum + fs_lines f) 0 fileStats in
    let totalSize := foldl (λ sum f, sum + fs_size f) 0 fileStats in
    (* Step 3: load the project and find the imports *)
    project ← loadProject absoluteScanDir extensions ignore onProgress;
    _ ← report onProgress "Finding import references..." None None;
    let importUpdates :=
      findImportUpdates cwd project mappings
        {| opt_aliases := Some aliases;
           opt_projectRoot := Some projectRoot |} in
    (* Step 4: apply the changes unless this is a dry run *)
    _ ← (if negb dryRun then
           _ ← report onProgress "Updating imports..." None None;
           _ ← saveProject project (applyImportUpdates project importUpdates);
           _ ← report onProgress "Renaming files..." None None;
           renameFiles mappings useGitMv
         else mret ());
    mret {| mappings := mappings;
            fileStats := fileStats;
            importUpdates := importUpdates;
            summary := {| totalFiles := length mappings;
                          totalLines := totalLines;
                          totalSize := totalSize;
                          totalImports := length importUpdates |};
            res_dryRun := dryRun |}.

End Api.

Arguments disk {Content} _.
Arguments progress {Content} _.

(** The options of a run, with the dry-run flag set. *)
Definition withDryRun (b : bool) (options : RenameOptions) : RenameOptions :=
  {| targetDir := targetDir options;
     ro_cwd := ro_cwd options;
     importScanDir := importScanDir options;
     extensions := extensions options;
     ignore := ignore options;
     dryRun := Some b;
     useGitMv := useGitMv options;
     aliases := aliases options;
     autoDetectAliases := autoDetectAliases options;
     onProgress := onProgress options |}.

(** ** A small project to run the program on *)

Module Fixture.

(** The text of a file, for this project: the declarations in it. *)
Record Text := {
  text_imports : list ImportDeclaration;
  text_calls : list CallExpression;
  text_exports : list ExportDeclaration;
}.

Definition parse (path : str) (t : Text) : option SourceFile :=
  Some {| sf_path := path;
          sf_imports := text_imports t;
          sf_calls := text_calls t;
          sf_exports := text_exports t |}.

Definition print (_ : Text) (sf : SourceFile) : Text :=
  {| text_imports := sf_imports sf;
     text_calls := sf_calls sf;
     text_exports := sf_exports sf |}.

Definition lines (t : Text) : nat :=
  length (text_imports t) + length (text_calls t) + length (text_exports t).

Definition size (t : Text) : nat := 0.

(** The files under a directory, all of them or those ending in '.vue'. *)
Definition glob (pattern cwd : str) (_ : list str) (d : gmap str Text)
    : list str :=
  filter (λ p, Js.startsWith p (cwd ++ "/") = true
               ∧ (pattern = "**/*.vue" → Js.endsWith p ".vue" = true))
    (map_to_list d).*1.

Definition noViteAliases (_ : str) (_ : gmap str Text)
    : option PathAliases := None.

Definition emptyText : Text :=
  {| text_imports := []; text_calls := []; text_exports := [] |}.

(** [src/components/index.ts] of the test project. *)
Definition indexText : Text :=
  {| text_imports := [];
     text_calls := [];
     text_exports :=
       [ {| exp_moduleSpecifier := Some ("./my-button.vue" : str);
            exp_line := 5 |};
         {| exp_moduleSpecifier := Some ("./user-card" : str);
            exp_line := 8 |};
         {| exp_moduleSpecifier := Some ("./nav-menu.vue" : str);
            exp_line := 11 |} ] |}.

Definition indexTs : SourceFile :=
  {| sf_path := "/p/src/components/index.ts";
     sf_imports := [];
     sf_calls := [];
     sf_exports := text_exports indexText |}.


Definition componentsButton : RenameMapping :=
  {| oldPath := "/p/src/components/my-button.vue";
     newPath := "/p/src/components/MyButton.vue";
     oldName := "my-button.vue";
     newName := "MyButton.vue" |}.

Definition sharedButton : RenameMapping :=
  {| oldPath := "/p/src/shared/my-button.vue";
     newPath := "/p/src/shared/MyButton.vue";
     oldName := "my-button.vue";
     newName := "MyButton.vue" |}.

Definition userCard : RenameMapping :=
  {| oldPath := "/p/src/components/user-card.vue";
     newPath := "/p/src/components/UserCard.vue";
     oldName := "user-card.vue";
     newName := "UserCard.vue" |}.

Definition disk0 : gmap str Text :=
  <[("/p/src/components/my-button.vue" : str) := emptyText]>
    (<[("/p/src/components/user-card.vue" : str) := emptyText]>
       (<[("/p/src/components/index.ts" : str) := indexText]> ∅)).

(** The same project after someone has added [MyButton.vue] by hand. *)
Definition collisionDisk : gmap str Text :=
  <[("/p/src/components/MyButton.vue" : str) := emptyText]> disk0.

Definition world0 : World Text := {| disk := disk0; progress := [] |}.

Definition options0 : RenameOptions :=
  {| targetDir := "src";
     ro_cwd := Some ("/p" : str);
     importScanDir := None;
     extensions := None;
     ignore := None;
     dryRun := None;
     useGitMv := None;
     aliases := None;
     autoDetectAliases := None;
     onProgress := true |}.


Definition findOptions0 : FindFilesOptions :=
  {| ff_targetDir := "src"; ff_cwd := Some ("/p" : str); ff_ignore := None |}.

Definition run (options : RenameOptions)
    : World Text → Outcome RenameResult * World Text :=
  renameVueFiles "/p" Text glob parse print lines size noViteAliases options.

End Fixture.

(** ** Two files whose names differ by a hyphen before a digit *)

Module DigitFixture.



End DigitFixture.

(** ** [src/utils/vite-config.ts]: the search for the configuration *)

Definition VITE_CONFIG_NAMES : list str :=
  ["vite.config.ts" : str; "vite.config.js" : str;
   "vite.config.mts" : str; "vite.config.mjs" : str].

Section ViteConfig.

Variable cwd : str.
Variable Content : Type.

(** The loop of [findViteConfigInDir] over the names. *)
Fixpoint findConfigAmong (d : gmap str Content) (dir : str)
    (names : list str) : option str :=
  match names with
  | [] => None
  | name :: names' =>
      let configPath := join [dir; name] in
      if existsSync Content d configPath then Some configPath
      else findConfigAmong d dir names'
  end.

Definition findViteConfigInDir (d : gmap str Content) (dir : str)
    : option str :=
  findConfigAmong d dir VITE_CONFIG_NAMES.

(** [path.parse(p).root] *)
Definition parseRoot (p : str) : str := if isAbsolute p then "/" else [].

(** The loop of [findViteConfig].  [fuel] bounds the number of directories
    that are visited; the outer [None] stands for a loop that has not come
    to its end within that bound. *)
Fixpoint walkUp (fuel : nat) (d : gmap str Content) (currentDir root : str)
    : option (option str) :=
  match fuel with
  | 0 => None
  | S fuel' =>
      if bool_decide (currentDir ≠ root) then
        match findViteConfigInDir d currentDir with
        | Some configPath => Some (Some configPath)
        | None => walkUp fuel' d (dirname currentDir) root
        end
      else Some (findViteConfigInDir d root)
  end.

Definition findViteConfig (fuel : nat) (d : gmap str Content)
    (startDir : str) : option (option str) :=
  let currentDir := resolve cwd [startDir] in
  let root := parseRoot currentDir in
  walkUp fuel d currentDir root.

Definition findProjectRoot (fuel : nat) (d : gmap str Content)
    (startDir : str) : option str :=
  configPath ← findViteConfig fuel d startDir;
  Some (if truthy configPath then dirname (default [] configPath)
        else resolve cwd [startDir]).

End ViteConfig.

(** ** A project with two vite configurations above a directory *)

Module ViteFixture.

Definition disk2 : gmap str Fixture.Text :=
  <[("/vite.config.ts" : str) := Fixture.emptyText]>
    (<[("/p/vite.config.mjs" : str) := Fixture.emptyText]>
       (<[("/p/vite.config.js" : str) := Fixture.emptyText]>
          (<[("/p/src/components/index.ts" : str) := Fixture.indexText]> ∅))).

End ViteFixture.

(** ** [src/utils/files.ts] on text files *)

(** [content.split('\n').length] *)
Definition lineCount (content : str) : nat :=
  length (Js.split "010"%char content).

(** ** The test project with a file that imports nothing *)

Module RunFixture.



End RunFixture.

(** * The vocabulary of the specification *)

Definition lower_alnum_char (c : ascii) : bool :=
  Js.is_lower c || Js.is_digit c.

Definition alnum_char (c : ascii) : bool :=
  Js.is_lower c || Js.is_upper c || Js.is_digit c.

Ltac ascii_cases c :=
  destruct c as [[] [] [] [] [] [] [] []]; vm_compute; try done; auto.

(** [pat] occurs in [s]. *)
Definition occurs (pat s : str) : Prop := ∃ p q, s = p ++ pat ++ q.

Section Vocabulary.

Variable cwd : str.

(** The claim as the specification words it: a specifier is resolved under
    an alias only when it is the alias or starts with the alias followed
    by '/'. *)
Definition alias_followed_by_slash (s : str) (aliases : PathAliases)
    (projectRoot : str) : Prop :=
  ∀ p, resolveAliasImport cwd s aliases projectRoot = Some p →
    ∃ a ap, (a, ap) ∈ aliases ∧ (s = a ∨ (a ++ "/") `prefix_of` s).

(** What the code tests: an alias that already ends with '/' is its own
    prefix. *)
Definition aliasApplies (a s : str) : Prop :=
  s = a ∨ (a ++ "/") `prefix_of` s ∨ ("/" `suffix_of` a ∧ a `prefix_of` s).

(** The cheap filter on the name the matcher starts with. *)
Definition nameFilter (s name : str) : bool :=
  Js.endsWith s ("/" ++ name)
  || bool_decide (s = "./" ++ name)
  || bool_decide (s = name).

(** The absolute path a specifier denotes: the alias-resolved one, or else
    the one resolved from the directory of the importing file when the
    specifier is relative. *)
Definition resolvedTarget (importingFile s : str) (aliases : PathAliases)
    (projectRoot : str) : option str :=
  if truthy (resolveAliasImport cwd s aliases projectRoot)
  then resolveAliasImport cwd s aliases projectRoot
  else if Js.startsWith s "."
  then Some (resolve cwd [dirname importingFile; s])
  else None.

(** The references of a project that [findImportUpdates] looks at. *)
Definition referenceCount (project : Project) : nat :=
  foldr (λ sf n,
      length (sf_imports sf) + length (sf_calls sf) + length (sf_exports sf)
      + n)
    0 project.

End Vocabulary.

(** A base name that the pattern accepts is a first word that starts with a
    lower-case letter, followed by at least one more word, each after a
    hyphen; every word is non-empty and lower-case alphanumeric. *)
Record kebab_shape (b w0 : str) (ws : list str) : Prop := {
  ks_eq : b = w0 ++ concat ((λ w, "-"%char :: w) <$> ws);
  ks_head : ∃ c w, w0 = c :: w ∧ Js.is_lower c = true;
  ks_first : Forall (λ c, lower_alnum_char c = true) w0;
  ks_more : ws ≠ [];
  ks_words :
    Forall (λ w, w ≠ [] ∧ Forall (λ c, lower_alnum_char c = true) w) ws;
}.

(** The capitalised concatenation of the words of a base name. *)
Definition pascalOf (b : str) : str :=
  Js.join [] (capitalize <$> Js.split "-" b).

(** An extension is empty, or a '.' followed by characters that are neither
    '.' nor '/'. *)
Definition ext_shape (e : str) : Prop :=
  e = [] ∨ ∃ e', e = "."%char :: e'
                 ∧ Forall (λ c, not_dot c = true) e'
                 ∧ Forall (λ c, not_sep c = true) e'.

(** Some word after the first one begins with a lower-case letter. *)
Definition later_word_letter (b : str) : Prop :=
  ∃ w c w', w ∈ tail (Js.split "-" b) ∧ w = c :: w' ∧ Js.is_lower c = true.

(** The mapping the plan builder makes for a file. *)
Definition mappingOf (filePath : str) : RenameMapping :=
  let fileName := basename filePath [] in
  {| oldPath := filePath;
     newPath := join [dirname filePath; toPascalCase fileName];
     oldName := fileName;
     newName := toPascalCase fileName |}.

(** The module specifiers [applyImportUpdates] reads in a source file. *)
Definition specifiersOf (sf : SourceFile) : list str :=
  (imp_moduleSpecifier <$> sf_imports sf)
  ++ omap dynamicSpecifier (sf_calls sf)
  ++ omap (λ e, if truthy (exp_moduleSpecifier e)
                then exp_moduleSpecifier e else None) (sf_exports sf).


(** The updates of one file, in order. *)
Definition updatesOf (k : str) (updates : list ImportUpdate)
    : list ImportUpdate :=
  filter (λ u, file u = k) updates.

(** What the second loop of [applyImportUpdates] does to a source file,
    given the group of its path, if there is one. *)
Definition applyGroup (g : option (list ImportUpdate)) (sf : SourceFile)
    : SourceFile :=
  match g with
  | Some fileUpdates => applyToSourceFile fileUpdates sf
  | None => sf
  end.

(** A [Map] without one key. *)
Fixpoint mapDelete {V} (k : str) (m : list (str * V)) : list (str * V) :=
  match m with
  | [] => []
  | (k', v) :: m' =>
      if bool_decide (k' = k) then mapDelete k m' else (k', v) :: mapDelete k m'
  end.

(** The group of a path: the updates of that file, when there are any. *)
Definition groupOf (k : str) (updates : list ImportUpdate)
    : option (list ImportUpdate) :=
  match updatesOf k updates with
  | [] => None
  | fileUpdates => Some fileUpdates
  end.





(** The claim as the specification words it: no mapping of the plan has a
    file at its new path. *)
Definition plan_targets_free {Content} (d : gmap str Content)
    (plan : list RenameMapping) : Prop :=
  ∀ m, m ∈ plan → existsSync Content d (newPath m) = false.

(** The prefix [resolveAliasImport] tests for an alias, and what is left of
    a specifier after it. *)
Definition aliasPrefixOf (a : str) : str :=
  if Js.endsWith a "/" then a else a ++ "/".

Definition aliasRemainder (a s : str) : str :=
  if Js.startsWith s (aliasPrefixOf a)
  then drop (length (aliasPrefixOf a)) s
  else [].

(** The references of a source file that [findImportUpdates] reads, in the
    order of its three loops, each with its specifier and its line. *)
Definition referencesOf (sf : SourceFile) : list (str * nat) :=
  ((λ d, (imp_moduleSpecifier d, imp_line d)) <$> sf_imports sf)
  ++ omap (λ c, (λ s, (s, call_line c)) <$> dynamicSpecifier c) (sf_calls sf)
  ++ omap (λ e, if truthy (exp_moduleSpecifier e)
                then Some (default [] (exp_moduleSpecifier e), exp_line e)
                else None) (sf_exports sf).

(** The update that a mapping asks for at a reference. *)
Definition updateOf (path : str) (r : str * nat) (m : RenameMapping)
    : ImportUpdate :=
  {| file := path;
     oldImport := r.1;
     newImport := replaceImportPath r.1 (oldName m) (newName m);
     line := r.2 |}.

(** The updates of one reference: one for each mapping that matches it, in
    the order of the mappings. *)
Definition updatesFor (cwd : str) (mappings : list RenameMapping)
    (aliases : PathAliases) (projectRoot path : str) (r : str * nat)
    : list ImportUpdate :=
  updateOf path r
    <$> filter (λ m, matchesImport cwd path r.1 m aliases projectRoot = true)
          mappings.

(** A mapping as the plan builder makes them: the mapping of a file whose
    name is kebab-case. *)
Definition planned (m : RenameMapping) : Prop :=
  ∃ filePath,
    m = mappingOf filePath ∧ isKebabCase (basename filePath []) = true.

(** What [applyImportUpdates] does to a source file of a project in which
    no two files share a path: the updates of that file are applied. *)
Definition rewriteFile (us : list ImportUpdate) (sf : SourceFile)
    : SourceFile :=
  applyToSourceFile (updatesOf (sf_path sf) us) sf.

(** A segment of a normalised path: not empty, not '.', not '..', and
    without '/'. *)
Definition segment (s : str) : Prop :=
  s ≠ [] ∧ s ≠ "." ∧ s ≠ ".." ∧ Forall (λ c, not_sep c = true) s.

(** The normalised absolute path with the given segments, and the
    directory with the given segments: the root when there is none. *)
Definition absolutePath (segs : list str) : str :=
  concat ((λ s, "/"%char :: s) <$> segs).

Definition directory (segs : list str) : str :=
  match segs with [] => "/" | _ => absolutePath segs end.

(** The segments that [normalizeString] keeps when there is no '..'. *)
Definition kept (s : str) : Prop := s ≠ [] ∧ s ≠ ".".

(** The directories from the one with the segments [ds] up to the root,
    the nearest first, each given by its segments. *)
Fixpoint ancestorsRev (rds : list str) : list (list str) :=
  reverse rds
  :: match rds with [] => [] | _ :: rds' => ancestorsRev rds' end.

Definition ancestors (ds : list str) : list (list str) :=
  ancestorsRev (reverse ds).

(** The places of a configuration file in a directory, in the order of
    [VITE_CONFIG_NAMES], and the places where [findViteConfig] looks. *)
Definition configsIn (dir : list str) : list str :=
  (λ name, absolutePath (dir ++ [name])) <$> VITE_CONFIG_NAMES.

Definition configCandidates (ds : list str) : list str :=
  ancestors ds ≫= configsIn.




(** * Properties *)

(** ** Lists *)

Section ListFacts.

Lemma fmap_fixed {A} (f : A → A) (l : list A) :
  (∀ x, x ∈ l → f x = x) → f <$> l = l.
Proof.
  induction l as [|x l IH]; intros Hf; [done |].
  rewrite fmap_cons, Hf, IH; [done | | left].
  intros y Hy. apply Hf. by right.
Qed.

Lemma fmap_agree {A B} (f g : A → B) (l : list A) :
  (∀ x, x ∈ l → f x = g x) → f <$> l = g <$> l.
Proof.
  induction l as [|x l IH]; intros Hf; [done |].
  rewrite !fmap_cons, Hf, IH; [done | | left].
  intros y Hy. apply Hf. by right.
Qed.

Lemma fmap_changes {A} (f : A → A) (l : list A) x :
  x ∈ l → f x ≠ x → f <$> l ≠ l.
Proof.
  induction l as [|y l IH]; [by intros ?%elem_of_nil |].
  intros [-> | Hin]%elem_of_cons Hx; rewrite fmap_cons; intros [= H1 H2].
  - done.
  - by apply IH.
Qed.

End ListFacts.

(** ** JavaScript strings *)

Section JsFacts.

Implicit Types s p pat : str.

Lemma startsWith_prefix s p : Js.startsWith s p = true ↔ p `prefix_of` s.
Proof.
  revert s. induction p as [|a p IH]; intros s; simpl.
  - split; [intros _; apply prefix_nil | done].
  - destruct s as [|b s].
    + split; [done | intros H; by apply prefix_nil_not in H].
    + case_decide as Hab.
      * subst b. rewrite IH. split.
        -- apply prefix_cons.
        -- apply prefix_cons_inv_2.
      * split; [done |].
        intros H. by apply prefix_cons_inv_1 in H.
Qed.

Lemma endsWith_suffix s p : Js.endsWith s p = true ↔ p `suffix_of` s.
Proof.
  unfold Js.endsWith. rewrite startsWith_prefix.
  symmetry. apply suffix_prefix_reverse.
Qed.

Lemma startsWith_false s p : Js.startsWith s p = false ↔ ¬ p `prefix_of` s.
Proof.
  rewrite <- startsWith_prefix. destruct (Js.startsWith s p); naive_solver.
Qed.

Lemma endsWith_false s p : Js.endsWith s p = false ↔ ¬ p `suffix_of` s.
Proof.
  rewrite <- endsWith_suffix. destruct (Js.endsWith s p); naive_solver.
Qed.

Lemma lastIndexOf_None s pat :
  Js.lastIndexOf s pat = None → ∀ p q, s ≠ p ++ pat ++ q.
Proof.
  induction s as [|c s IH]; simpl.
  - destruct pat; [done |]. intros _ p q H.
    symmetry in H. apply app_eq_nil in H as [_ H]. done.
  - destruct (Js.lastIndexOf s pat) eqn:Hl; [done |].
    destruct (Js.startsWith (c :: s) pat) eqn:Hs; [done |].
    intros _ p q H. destruct p as [|c' p]; simpl in H.
    + apply startsWith_false in Hs. apply Hs. by exists q.
    + injection H as -> H. by eapply IH.
Qed.

Lemma lastIndexOf_Some s pat i :
  Js.lastIndexOf s pat = Some i →
  s = take i s ++ pat ++ drop (i + length pat) s
  ∧ ∀ p q, s = p ++ pat ++ q → length p ≤ i.
Proof.
  revert i. induction s as [|c s IH]; intros i; simpl.
  - destruct pat; [|done]. intros [= <-]. split; [done |].
    intros p q H. symmetry in H. apply app_eq_nil in H as [-> _].
    simpl. lia.
  - destruct (Js.lastIndexOf s pat) as [j|] eqn:Hl.
    + intros [= <-]. destruct (IH j eq_refl) as [Heq Hmax].
      split.
      * simpl. by rewrite <- Heq.
      * intros [|c' p] q H; simpl in *; [lia |].
        injection H as -> H. apply Hmax in H. lia.
    + destruct (Js.startsWith (c :: s) pat) eqn:Hs; [|done].
      intros [= <-]. apply startsWith_prefix in Hs as [q Hq].
      split.
      * simpl. rewrite Hq at 1. f_equal.
        rewrite Hq. by rewrite drop_app_length.
      * intros [|c' p] q' H; simpl in *; [lia |].
        injection H as -> H. by apply lastIndexOf_None in H.
Qed.

(** When the pattern ends the string, its last occurrence is that one. *)
Lemma lastIndexOf_suffix pre pat :
  pat ≠ [] → Js.lastIndexOf (pre ++ pat) pat = Some (length pre).
Proof.
  intros Hne.
  assert (0 < length pat) as Hpos by (destruct pat; simpl; [done | lia]).
  destruct (Js.lastIndexOf (pre ++ pat) pat) as [i|] eqn:Hl.
  - apply lastIndexOf_Some in Hl as [Heq Hmax].
    f_equal. apply Nat.le_antisymm.
    + assert (length (pre ++ pat)
              = length (take i (pre ++ pat) ++ pat
                        ++ drop (i + length pat) (pre ++ pat))) as Hlen
        by (by rewrite <- Heq).
      rewrite !length_app, length_take, length_drop, length_app in Hlen.
      lia.
    + apply (Hmax pre []). by rewrite app_nil_r.
  - exfalso. eapply (lastIndexOf_None _ _ Hl pre []). by rewrite app_nil_r.
Qed.

End JsFacts.

(** ** The rewriter *)

(** C5. When the old name occurs in the specifier, [replaceImportPath]
    replaces its last occurrence by the new name and keeps every character
    before and after it; when it does not occur, the specifier is returned
    unchanged. *)
Theorem replaceImportPath_last_occurrence (s oldName newName : str) :
  (occurs oldName s →
   ∃ pre post,
     s = pre ++ oldName ++ post
     ∧ (∀ p q, s = p ++ oldName ++ q → length p ≤ length pre)
     ∧ replaceImportPath s oldName newName = pre ++ newName ++ post)
  ∧ (¬ occurs oldName s → replaceImportPath s oldName newName = s).
Proof.
  unfold replaceImportPath, occurs.
  destruct (Js.lastIndexOf s oldName) as [i|] eqn:Hl.
  - apply lastIndexOf_Some in Hl as [Heq Hmax]. split.
    + intros _.
      exists (take i s), (drop (i + length oldName) s).
      split; [done |]. split; [|done].
      intros p q Hpq. pose proof (Hmax p q Hpq) as Hle.
      rewrite length_take. apply Nat.min_glb; [done |].
      rewrite Hpq, length_app. lia.
    + intros Hno. exfalso. apply Hno. eauto.
  - split; [|done].
    intros (p & q & Hpq). by apply lastIndexOf_None with (p := p) (q := q) in Hl.
Qed.

Lemma replaceImportPath_last_occurrence_witness :
  ∃ pre post,
    ("@/my-button/my-button.vue" : str) = pre ++ ("my-button" : str) ++ post
    ∧ (∀ p q,
         ("@/my-button/my-button.vue" : str) = p ++ ("my-button" : str) ++ q →
         length p ≤ length pre)
    ∧ replaceImportPath "@/my-button/my-button.vue" "my-button" "MyButton"
      = pre ++ ("MyButton" : str) ++ post.
Proof.
  apply (proj1 (replaceImportPath_last_occurrence _ _ _)).
  by exists ("@/my-button/" : str), (".vue" : str).
Defined.

(** ** Alias lookup *)

Section AliasFacts.

Variable cwd : str.

Lemma aliasApplies_test a s :
  Js.startsWith s (if Js.endsWith a "/" then a else a ++ "/")
  || bool_decide (s = a) = true
  ↔ aliasApplies a s.
Proof.
  unfold aliasApplies.
  rewrite orb_true_iff, bool_decide_eq_true, startsWith_prefix.
  destruct (Js.endsWith a "/") eqn:He.
  - apply endsWith_suffix in He. split.
    + intros [H | H]; [right; right; done | by left].
    + intros [H | [H | [_ H]]]; [by right | left | by left].
      by apply prefix_app_l in H.
  - apply endsWith_false in He. split.
    + intros [H | H]; [right; left; done | by left].
    + intros [H | [H | [H _]]]; [by right | by left | done].
Qed.

Lemma resolveAliasImport_Some s aliases projectRoot p :
  resolveAliasImport cwd s aliases projectRoot = Some p →
  ∃ a ap rel, (a, ap) ∈ aliases ∧ aliasApplies a s
    ∧ p = resolve cwd [projectRoot; ap; rel].
Proof.
  induction aliases as [|[a ap] aliases IH]; simpl; [done |].
  destruct (Js.startsWith s _ || bool_decide (s = a)) eqn:Ht.
  - intros [= <-]. apply aliasApplies_test in Ht.
    eexists a, ap, _. split; [left | done].
  - intros H. destruct (IH H) as (a' & ap' & rel & Hin & Ha & Hp).
    exists a', ap', rel. split; [by right | done].
Qed.

Lemma resolveAliasImport_None s aliases projectRoot :
  (∀ a ap, (a, ap) ∈ aliases → ¬ aliasApplies a s) →
  resolveAliasImport cwd s aliases projectRoot = None.
Proof.
  induction aliases as [|[a ap] aliases IH]; simpl; [done |].
  intros Hno.
  destruct (Js.startsWith s _ || bool_decide (s = a)) eqn:Ht.
  - apply aliasApplies_test in Ht. exfalso. eapply Hno; [left | done].
  - apply IH. intros a' ap' Hin. apply (Hno a' ap'). by right.
Qed.

End AliasFacts.

(** C7, as amended.  [resolveAliasImport] resolves a specifier only under
    an alias of the table that the specifier equals, or that it starts with
    followed by '/', or that itself ends with '/' and starts the specifier;
    for every other specifier it returns null.  In particular the alias '@'
    alone resolves no specifier whose first segment merely begins with
    '@'. *)
Theorem resolveAliasImport_segment_boundary (cwd s : str)
    (aliases : PathAliases) (projectRoot : str) :
  (∀ p, resolveAliasImport cwd s aliases projectRoot = Some p →
     ∃ a ap rel, (a, ap) ∈ aliases ∧ aliasApplies a s
       ∧ p = resolve cwd [projectRoot; ap; rel])
  ∧ ((∀ a ap, (a, ap) ∈ aliases → ¬ aliasApplies a s) →
     resolveAliasImport cwd s aliases projectRoot = None)
  ∧ (∀ c rest ap, c ≠ "/"%char →
       resolveAliasImport cwd ("@" ++ c :: rest) [("@" : str, ap)] projectRoot
       = None).
Proof.
  split; [|split].
  - apply resolveAliasImport_Some.
  - apply resolveAliasImport_None.
  - intros c rest ap Hc. simpl.
    by destruct (decide ("/"%char = c)) as [<- | _].
Qed.

Lemma resolveAliasImport_segment_boundary_witness :
  resolveAliasImport "/p" "@foo/bar" [("@" : str, "src" : str)] "/p" = None
  ∧ resolveAliasImport "/p" "@foo/bar" DEFAULT_ALIASES "/p" = None.
Proof.
  split.
  - exact (proj2 (proj2 (resolveAliasImport_segment_boundary
                           "/p" "@foo/bar" [] "/p"))
             "f"%char ("oo/bar" : str) ("src" : str) ltac:(done)).
  - apply (proj1 (proj2 (resolveAliasImport_segment_boundary
                           "/p" "@foo/bar" DEFAULT_ALIASES "/p"))).
    intros a ap Hin [H | [H | [H _]]];
      repeat (apply elem_of_cons in Hin as [[= -> ->] | Hin]);
      try (by apply elem_of_nil in Hin);
      try done;
      try (by apply startsWith_prefix in H);
      try (by apply endsWith_suffix in H).
Defined.

(** The claim as worded fails for an alias written with its trailing
    '/'. *)
Lemma alias_followed_by_slash_counterexample :
  ¬ alias_followed_by_slash "/p" "@/foo" [("@/" : str, "src" : str)] "/p".
Proof.
  intros H. destruct (H "/p/src/foo" eq_refl) as (a & ap & Hin & Ha).
  apply list_elem_of_singleton in Hin as [= -> ->].
  destruct Ha as [Ha | Ha]; [done |].
  by apply startsWith_prefix in Ha.
Qed.

(** ** The matcher *)

Section MatcherFacts.

Variable cwd : str.

Lemma matchesImport_target f s m aliases projectRoot :
  matchesImport cwd f s m aliases projectRoot = true
  ↔ nameFilter s (oldName m) = true
    ∧ resolvedTarget cwd f s aliases projectRoot = Some (oldPath m).
Proof.
  unfold matchesImport, nameFilter, resolvedTarget.
  set (R := resolveAliasImport cwd s aliases projectRoot).
  set (dot := Js.startsWith s ".").
  assert ((if truthy R then bool_decide (R = Some (oldPath m))
           else if dot
                then bool_decide (resolve cwd [dirname f; s] = oldPath m)
                else false) = true
          ↔ (if truthy R then R
             else if dot then Some (resolve cwd [dirname f; s]) else None)
            = Some (oldPath m)) as <-.
  { destruct (truthy R); [by rewrite bool_decide_eq_true |].
    destruct dot; [|done].
    rewrite bool_decide_eq_true. split; congruence. }
  destruct (Js.endsWith s _); repeat case_bool_decide;
    cbn [negb andb orb]; try tauto; try (split; [done | by intros []]).
Qed.

Lemma matchesImport_same_path f s A B aliases projectRoot :
  matchesImport cwd f s A aliases projectRoot = true →
  matchesImport cwd f s B aliases projectRoot = true →
  oldPath A = oldPath B.
Proof.
  rewrite !matchesImport_target. intros [_ HA] [_ HB]. congruence.
Qed.

Lemma foldl_length_le {U X} (f : list U → X → list U) (l : list X) acc :
  (∀ acc x, length (f acc x) ≤ S (length acc)) →
  length (foldl f acc l) ≤ length acc + length l.
Proof.
  intros Hf. revert acc. induction l as [|x l IH]; intros acc; simpl.
  - lia.
  - specialize (IH (f acc x)). specialize (Hf acc x). lia.
Qed.

Lemma pushMatches_pair f s n A B aliases projectRoot updates :
  oldPath A ≠ oldPath B →
  length (pushMatches cwd f s n [A; B] aliases projectRoot updates)
  ≤ S (length updates).
Proof.
  intros Hne. unfold pushMatches. simpl.
  destruct (matchesImport cwd f s A aliases projectRoot) eqn:HA;
    destruct (matchesImport cwd f s B aliases projectRoot) eqn:HB;
    rewrite ?length_app; simpl; try lia.
  exfalso. apply Hne. by eapply matchesImport_same_path.
Qed.

Lemma findImportUpdates_pair project A B options :
  oldPath A ≠ oldPath B →
  length (findImportUpdates cwd project [A; B] options)
  ≤ referenceCount project.
Proof.
  intros Hne. unfold findImportUpdates.
  set (aliases := default DEFAULT_ALIASES _).
  set (projectRoot := default cwd _).
  enough (∀ acc,
    length (foldl (λ updates sourceFile,
        foldl (λ updates exportDecl,
            if truthy (exp_moduleSpecifier exportDecl) then
              pushMatches cwd (sf_path sourceFile)
                (default [] (exp_moduleSpecifier exportDecl))
                (exp_line exportDecl) [A; B] aliases projectRoot updates
            else updates)
          (foldl (λ updates callExpr,
              match dynamicSpecifier callExpr with
              | Some moduleSpecifier =>
                  pushMatches cwd (sf_path sourceFile) moduleSpecifier
                    (call_line callExpr) [A; B] aliases projectRoot updates
              | None => updates
              end)
            (foldl (λ updates importDecl,
                pushMatches cwd (sf_path sourceFile)
                  (imp_moduleSpecifier importDecl)
                  (imp_line importDecl) [A; B] aliases projectRoot updates)
              updates (sf_imports sourceFile))
            (sf_calls sourceFile))
          (sf_exports sourceFile))
      acc project) ≤ length acc + referenceCount project) as H
    by (specialize (H []); simpl in H; exact H).
  induction project as [|sf project IH]; intros acc; simpl; [lia |].
  etrans; [apply IH |].
  etrans; [apply Nat.add_le_mono_r, foldl_length_le |].
  { intros acc' e. destruct (truthy _); [|lia].
    by apply pushMatches_pair. }
  etrans; [do 2 apply Nat.add_le_mono_r; apply foldl_length_le |].
  { intros acc' e. destruct (dynamicSpecifier e); [|lia].
    by apply pushMatches_pair. }
  etrans; [do 3 apply Nat.add_le_mono_r; apply foldl_length_le |].
  { intros acc' e. by apply pushMatches_pair. }
  lia.
Qed.

End MatcherFacts.

(** ** What [findImportUpdates] returns *)

Section FindFacts.

Variable cwd : str.

Lemma foldl_push_bind {A B} (f : list B → A → list B) (g : A → list B)
    (l : list A) (acc : list B) :
  (∀ acc x, f acc x = acc ++ g x) → foldl f acc l = acc ++ (l ≫= g).
Proof.
  intros Hf. revert acc. induction l as [|x l IH]; intros acc.
  - by rewrite app_nil_r.
  - cbn [foldl]. by rewrite IH, Hf, bind_cons, app_assoc.
Qed.

Lemma omap_bind {A B C} (h : A → option B) (g : B → list C) (l : list A) :
  omap h l ≫= g = l ≫= (λ x, from_option g [] (h x)).
Proof.
  induction l as [|x l IH]; [done |].
  rewrite bind_cons. cbn [omap list_omap].
  destruct (h x); cbn [from_option app]; [by rewrite bind_cons, IH | done].
Qed.

Lemma fmap_bind_list {A B C} (h : A → B) (g : B → list C) (l : list A) :
  (h <$> l) ≫= g = l ≫= (λ x, g (h x)).
Proof.
  induction l as [|x l IH]; [done |].
  by rewrite fmap_cons, !bind_cons, IH.
Qed.

Lemma pushMatches_spec f s n mappings aliases projectRoot updates :
  pushMatches cwd f s n mappings aliases projectRoot updates
  = updates ++ updatesFor cwd mappings aliases projectRoot f (s, n).
Proof.
  unfold pushMatches, updatesFor. revert updates.
  induction mappings as [|m mappings IH]; intros updates; simpl.
  - by rewrite app_nil_r.
  - rewrite IH, filter_cons. cbn [fst snd].
    destruct (matchesImport cwd f s m aliases projectRoot) eqn:Hm.
    + rewrite decide_True by done. by rewrite fmap_cons, <- app_assoc.
    + by rewrite decide_False by congruence.
Qed.

(** The three loops over a source file, and the loop over the files, read
    as one comprehension. *)
Lemma findImportUpdates_bind project mappings options :
  findImportUpdates cwd project mappings options
  = project ≫= (λ sf,
      referencesOf sf ≫=
        updatesFor cwd mappings
          (default DEFAULT_ALIASES (opt_aliases options))
          (default cwd (opt_projectRoot options)) (sf_path sf)).
Proof.
  unfold findImportUpdates.
  set (aliases := default DEFAULT_ALIASES _).
  set (projectRoot := default cwd _).
  rewrite (foldl_push_bind _
             (λ sf, referencesOf sf ≫=
                updatesFor cwd mappings aliases projectRoot (sf_path sf)));
    [done |].
  intros acc sf. unfold referencesOf.
  rewrite !bind_app, fmap_bind_list, !omap_bind.
  rewrite (foldl_push_bind _
             (λ d, updatesFor cwd mappings aliases projectRoot (sf_path sf)
                     (imp_moduleSpecifier d, imp_line d)))
    by (intros; apply pushMatches_spec).
  rewrite (foldl_push_bind _
             (λ c, from_option
                     (updatesFor cwd mappings aliases projectRoot (sf_path sf))
                     [] ((λ s, (s, call_line c)) <$> dynamicSpecifier c))).
  2:{ intros acc' c. destruct (dynamicSpecifier c); simpl.
      - apply pushMatches_spec.
      - by rewrite app_nil_r. }
  rewrite (foldl_push_bind _
             (λ e, from_option
                     (updatesFor cwd mappings aliases projectRoot (sf_path sf))
                     []
                     (if truthy (exp_moduleSpecifier e)
                      then Some (default [] (exp_moduleSpecifier e), exp_line e)
                      else None))).
  2:{ intros acc' e. destruct (truthy (exp_moduleSpecifier e)); simpl.
      - apply pushMatches_spec.
      - by rewrite app_nil_r. }
  by rewrite <- !app_assoc.
Qed.

Lemma elem_of_updatesFor u mappings aliases projectRoot path r :
  u ∈ updatesFor cwd mappings aliases projectRoot path r
  ↔ ∃ m, m ∈ mappings
       ∧ matchesImport cwd path r.1 m aliases projectRoot = true
       ∧ u = updateOf path r m.
Proof.
  unfold updatesFor. rewrite list_elem_of_fmap. split.
  - intros (m & -> & [Hm Hin]%list_elem_of_filter). eauto.
  - intros (m & Hin & Hm & ->). exists m. split; [done |].
    by apply list_elem_of_filter.
Qed.

Lemma elem_of_findImportUpdates u project mappings options :
  u ∈ findImportUpdates cwd project mappings options
  ↔ ∃ sf r m,
      sf ∈ project ∧ r ∈ referencesOf sf ∧ m ∈ mappings
      ∧ matchesImport cwd (sf_path sf) r.1 m
          (default DEFAULT_ALIASES (opt_aliases options))
          (default cwd (opt_projectRoot options)) = true
      ∧ u = updateOf (sf_path sf) r m.
Proof.
  rewrite findImportUpdates_bind, list_elem_of_bind. split.
  - intros (sf & (r & Hu & Hr)%list_elem_of_bind & Hsf).
    apply elem_of_updatesFor in Hu as (m & Hm & Hmatch & ->).
    by exists sf, r, m.
  - intros (sf & r & m & Hsf & Hr & Hm & Hmatch & ->).
    exists sf. split; [|done]. apply list_elem_of_bind.
    exists r. split; [|done]. apply elem_of_updatesFor. eauto.
Qed.

Lemma bind_agree {A B} (f g : A → list B) (l : list A) :
  (∀ x, x ∈ l → f x = g x) → l ≫= f = l ≫= g.
Proof.
  induction l as [|x l IH]; intros H; [done |].
  rewrite !bind_cons, H, IH; [done | | by left].
  intros y Hy. apply H. by right.
Qed.

End FindFacts.

(** C1.  Two mappings with the same old name in different directories are
    never both matched by one specifier; which of them is matched is decided
    by the equality of the resolved absolute path with the mapping's old
    path; and [findImportUpdates], which goes through the references of the
    files one by one, gives each reference at most one update: the update of
    [A] where [A] is matched, the update of [B] where [B] is matched, and
    none where neither is. *)
Theorem same_name_never_cross_matched (cwd f s : str) (A B : RenameMapping)
    (aliases : PathAliases) (projectRoot : str) :
  oldName A = oldName B →
  dirname (oldPath A) ≠ dirname (oldPath B) →
  ¬ (matchesImport cwd f s A aliases projectRoot = true
     ∧ matchesImport cwd f s B aliases projectRoot = true)
  ∧ (∀ m, m ∈ [A; B] →
       matchesImport cwd f s m aliases projectRoot = true
       ↔ nameFilter s (oldName A) = true
         ∧ resolvedTarget cwd f s aliases projectRoot = Some (oldPath m))
  ∧ (∀ project options,
       length (findImportUpdates cwd project [A; B] options)
       ≤ referenceCount project)
  ∧ (∀ project options,
       findImportUpdates cwd project [A; B] options
       = project ≫= (λ sf, referencesOf sf ≫= (λ r,
           if matchesImport cwd (sf_path sf) r.1 A
                (default DEFAULT_ALIASES (opt_aliases options))
                (default cwd (opt_projectRoot options))
           then [updateOf (sf_path sf) r A]
           else if matchesImport cwd (sf_path sf) r.1 B
                     (default DEFAULT_ALIASES (opt_aliases options))
                     (default cwd (opt_projectRoot options))
           then [updateOf (sf_path sf) r B]
           else []))).
Proof.
  intros Hname Hdir.
  assert (oldPath A ≠ oldPath B) as Hpath by congruence.
  split; [|split; [|split]].
  - intros [HA HB]. apply Hpath. by eapply matchesImport_same_path.
  - intros m Hm. rewrite matchesImport_target.
    apply elem_of_cons in Hm as [-> | Hm]; [done |].
    apply list_elem_of_singleton in Hm as ->. by rewrite Hname.
  - intros project options. by apply findImportUpdates_pair.
  - intros project options. rewrite findImportUpdates_bind.
    apply bind_agree. intros sf _. apply bind_agree. intros r _.
    unfold updatesFor. rewrite !filter_cons, filter_nil.
    destruct (matchesImport cwd (sf_path sf) r.1 A _ _) eqn:HA;
      destruct (matchesImport cwd (sf_path sf) r.1 B _ _) eqn:HB.
    + destruct Hpath. by eapply matchesImport_same_path.
    + rewrite decide_True, decide_False by done. done.
    + rewrite decide_False, decide_True by done. done.
    + rewrite !decide_False by done. done.
Qed.

(** ** Regular expressions: the derivative test decides the language *)

Section RegexFacts.
Import Regex.

Lemma lang_class_inv p s : lang (Class p) s → ∃ c, s = [c] ∧ p c = true.
Proof. inversion 1; subst. eauto. Qed.

Lemma lang_seq_inv r1 r2 s :
  lang (Seq r1 r2) s → ∃ s1 s2, s = s1 ++ s2 ∧ lang r1 s1 ∧ lang r2 s2.
Proof. inversion 1; subst. eauto. Qed.

Lemma lang_alt_inv r1 r2 s : lang (Alt r1 r2) s → lang r1 s ∨ lang r2 s.
Proof. inversion 1; subst; eauto. Qed.

Lemma lang_eps_inv s : lang Eps s → s = [].
Proof. by inversion 1. Qed.

Lemma lang_void_inv s : ¬ lang Void s.
Proof. inversion 1. Qed.

Lemma nullable_lang r : nullable r = true ↔ lang r [].
Proof.
  induction r as [| |p|r1 IH1 r2 IH2|r1 IH1 r2 IH2|r IH]; simpl.
  - split; [done | by intros ?%lang_void_inv].
  - split; [constructor | done].
  - split; [done | by intros (c & ? & _)%lang_class_inv].
  - rewrite andb_true_iff, IH1, IH2. split.
    + intros [H1 H2]. by apply (lang_seq _ _ [] []).
    + intros (s1 & s2 & Heq & H1 & H2)%lang_seq_inv.
      symmetry in Heq. by apply app_eq_nil in Heq as [-> ->].
  - rewrite orb_true_iff, IH1, IH2. split.
    + intros [H | H]; [by apply lang_alt_l | by apply lang_alt_r].
    + apply lang_alt_inv.
  - split; [constructor | done].
Qed.

Lemma lang_star_cons_inv r c s :
  lang (Star r) (c :: s) →
  ∃ s1 s2, s = s1 ++ s2 ∧ lang r (c :: s1) ∧ lang (Star r) s2.
Proof.
  intros H. remember (Star r) as r' eqn:Hr. remember (c :: s) as cs eqn:Hcs.
  revert Hr Hcs.
  induction H as [| | | | | |r0 s1 s2 H1 _ H2 IH2]; try done.
  intros [= ->] Hcs.
  destruct s1 as [|c' s1]; simpl in Hcs.
  - by apply IH2.
  - injection Hcs as -> <-. eauto.
Qed.

Lemma deriv_lang c r s : lang (deriv c r) s ↔ lang r (c :: s).
Proof.
  revert s.
  induction r as [| |p|r1 IH1 r2 IH2|r1 IH1 r2 IH2|r IH]; intros s; simpl.
  - split; by intros ?%lang_void_inv.
  - split; [by intros ?%lang_void_inv | by intros ?%lang_eps_inv].
  - destruct (p c) eqn:Hp.
    + split.
      * intros ->%lang_eps_inv. by constructor.
      * intros (c' & [= <- ->] & _)%lang_class_inv. constructor.
    + split; [by intros ?%lang_void_inv |].
      intros (c' & [= <- ->] & ?)%lang_class_inv. congruence.
  - assert (lang (Seq (deriv c r1) r2) s
            ↔ ∃ s1 s2, s = s1 ++ s2 ∧ lang r1 (c :: s1) ∧ lang r2 s2) as Hseq.
    { split.
      - intros (s1 & s2 & -> & H1 & H2)%lang_seq_inv.
        eexists _, _. split; [done |]. split; [by apply IH1 | done].
      - intros (s1 & s2 & -> & H1 & H2).
        apply lang_seq; [by apply IH1 | done]. }
    assert (lang (Seq r1 r2) (c :: s)
            ↔ (lang r1 [] ∧ lang r2 (c :: s))
              ∨ ∃ s1 s2, s = s1 ++ s2 ∧ lang r1 (c :: s1) ∧ lang r2 s2)
      as Hcons.
    { split.
      - intros (s1 & s2 & Heq & H1 & H2)%lang_seq_inv.
        destruct s1 as [|c' s1]; simpl in Heq.
        + subst s2. by left.
        + injection Heq as <- ->. right. eauto.
      - intros [[H1 H2] | (s1 & s2 & -> & H1 & H2)].
        + by apply (lang_seq _ _ [] (c :: s)).
        + by apply (lang_seq _ _ (c :: s1) s2). }
    rewrite Hcons, <- Hseq, <- IH2, <- nullable_lang.
    destruct (nullable r1) eqn:Hn.
    + split.
      * intros [H | H]%lang_alt_inv; [by right | by left].
      * intros [[_ H] | H]; [by apply lang_alt_r | by apply lang_alt_l].
    + split; [by right |]. by intros [[? _] | H].
  - split.
    + intros [H | H]%lang_alt_inv;
        [apply lang_alt_l; by apply IH1 | apply lang_alt_r; by apply IH2].
    + intros [H | H]%lang_alt_inv;
        [apply lang_alt_l; by apply IH1 | apply lang_alt_r; by apply IH2].
  - split.
    + intros (s1 & s2 & -> & H1 & H2)%lang_seq_inv.
      apply IH in H1. by apply (lang_star_cons _ (c :: s1) s2).
    + intros H. apply lang_star_cons_inv in H as (s1 & s2 & -> & H1 & H2).
      apply lang_seq; [by apply IH | done].
Qed.

Lemma test_lang r s : test r s = true ↔ lang r s.
Proof.
  revert r. induction s as [|c s IH]; intros r; simpl.
  - apply nullable_lang.
  - rewrite IH. apply deriv_lang.
Qed.

(** A starred expression is a sequence of words of its body. *)
Lemma lang_star_inv r s :
  lang (Star r) s → ∃ ws, s = concat ws ∧ Forall (lang r) ws.
Proof.
  intros H. remember (Star r) as r' eqn:Hr. revert Hr.
  induction H as [| | | | | |r0 s1 s2 H1 _ H2 IH2]; try done.
  - intros _. by exists [].
  - intros [= ->]. destruct (IH2 eq_refl) as (ws & -> & Hws).
    exists (s1 :: ws). split; [done | by constructor].
Qed.

Lemma lang_star_class p s :
  lang (Star (Class p)) s → Forall (λ c, p c = true) s.
Proof.
  intros H. apply lang_star_inv in H as (ws & -> & Hws).
  induction Hws as [|w ws Hw _ IH]; simpl; [constructor |].
  apply lang_class_inv in Hw as (c & -> & Hc). by constructor.
Qed.

Lemma lang_plus_class p s :
  lang (Plus (Class p)) s → s ≠ [] ∧ Forall (λ c, p c = true) s.
Proof.
  intros H. apply lang_seq_inv in H as (s1 & s2 & -> & H1 & H2).
  apply lang_class_inv in H1 as (c & -> & Hc).
  apply lang_star_class in H2. split; [done | by constructor].
Qed.

End RegexFacts.

(** ** Characters *)

Section CharFacts.

Lemma toUpperChar_lower c :
  Js.is_lower c = true → Js.is_upper (Js.toUpperChar c) = true.
Proof. ascii_cases c. Qed.

Lemma toUpperChar_digit c : Js.is_digit c = true → Js.toUpperChar c = c.
Proof. ascii_cases c. Qed.

Lemma toUpperChar_upper c : Js.is_upper c = true → Js.toUpperChar c = c.
Proof. ascii_cases c. Qed.

Lemma toLowerChar_lower_alnum c :
  lower_alnum_char c = true → Js.toLowerChar c = c.
Proof. ascii_cases c. Qed.

Lemma toLowerChar_upper c : Js.is_upper c = true → Js.toLowerChar c ≠ c.
Proof. ascii_cases c. Qed.

Lemma toLowerChar_not_upper c : Js.is_upper (Js.toLowerChar c) = false.
Proof. ascii_cases c. Qed.

Lemma upper_not_lower_alnum c :
  Js.is_upper c = true → lower_alnum_char c = false.
Proof. ascii_cases c. Qed.

Lemma upper_not_hyphen c : Js.is_upper c = true → c ≠ "-"%char.
Proof. ascii_cases c. Qed.

Lemma lower_alnum_not_hyphen c :
  lower_alnum_char c = true → c ≠ "-"%char.
Proof. ascii_cases c. Qed.

Lemma lower_alnum_alnum c : lower_alnum_char c = true → alnum_char c = true.
Proof. ascii_cases c. Qed.

Lemma toUpperChar_alnum c :
  lower_alnum_char c = true → alnum_char (Js.toUpperChar c) = true.
Proof. ascii_cases c. Qed.

Lemma alnum_not_dot c : alnum_char c = true → not_dot c = true.
Proof. ascii_cases c. Qed.

Lemma alnum_not_sep c : alnum_char c = true → not_sep c = true.
Proof. ascii_cases c. Qed.

End CharFacts.

(** ** The shape of a kebab-case base name *)

Section KebabFacts.
Import Regex.

Lemma hyphen_word_inv x :
  lang (Seq (Chr "-") (Plus lower_alnum)) x →
  ∃ w, x = "-"%char :: w ∧ w ≠ []
       ∧ Forall (λ c, lower_alnum_char c = true) w.
Proof.
  intros (s1 & s2 & -> & H1 & H2)%lang_seq_inv.
  apply lang_class_inv in H1 as (c & -> & Hc).
  apply bool_decide_eq_true in Hc as ->.
  apply lang_plus_class in H2 as [Hne Hall]. eauto.
Qed.

Lemma hyphen_words_inv xs :
  Forall (lang (Seq (Chr "-") (Plus lower_alnum))) xs →
  ∃ ws, concat xs = concat ((λ w, "-"%char :: w) <$> ws)
        ∧ length ws = length xs
        ∧ Forall (λ w, w ≠ []
                       ∧ Forall (λ c, lower_alnum_char c = true) w) ws.
Proof.
  induction 1 as [|x xs Hx _ (ws & Heq & Hlen & Hws)].
  - by exists [].
  - apply hyphen_word_inv in Hx as (w & -> & Hne & Hw).
    exists (w :: ws). simpl. rewrite Heq, Hlen.
    split; [done |]. split; [done |]. by constructor.
Qed.

Lemma kebab_re_shape b : lang kebab_re b → ∃ w0 ws, kebab_shape b w0 ws.
Proof.
  intros (s1 & s2 & -> & H1 & H2)%lang_seq_inv.
  apply lang_class_inv in H1 as (c & -> & Hc).
  apply lang_seq_inv in H2 as (s3 & s4 & -> & H3 & H4).
  apply lang_star_class in H3.
  apply lang_seq_inv in H4 as (x & s5 & -> & Hx & H5).
  apply lang_star_inv in H5 as (xs & -> & Hxs).
  destruct (hyphen_words_inv (x :: xs)) as (ws & Heq & Hlen & Hws);
    [by constructor |].
  exists (c :: s3), ws. split.
  - by rewrite <- Heq.
  - eauto.
  - constructor; [|done]. unfold lower_alnum_char. by rewrite Hc.
  - by destruct ws.
  - done.
Qed.

Lemma isKebabCase_shape n :
  isKebabCase n = true →
  ∃ w0 ws, kebab_shape (basename n (extname n)) w0 ws.
Proof. unfold isKebabCase. intros H%test_lang. by apply kebab_re_shape. Qed.

(** Splitting at the hyphens gives the words back. *)
Lemma split_words sep w (ws : list str) :
  sep ∉ w → Forall (λ w, sep ∉ w) ws →
  Js.split sep (w ++ concat ((λ w, sep :: w) <$> ws)) = w :: ws.
Proof.
  intros Hw Hws. revert w Hw.
  induction Hws as [|w1 ws Hw1 _ IH]; intros w Hw.
  - simpl. rewrite app_nil_r.
    induction w as [|c w IHw]; simpl; [done |].
    apply not_elem_of_cons in Hw as [Hc Hw].
    rewrite decide_False by done. by rewrite IHw.
  - induction w as [|c w IHw]; simpl.
    + rewrite decide_True by done. f_equal. by apply IH.
    + apply not_elem_of_cons in Hw as [Hc Hw].
      rewrite decide_False by done. simpl in IHw. by rewrite IHw.
Qed.

Lemma join_nil_concat (ws : list str) : Js.join [] ws = concat ws.
Proof.
  induction ws as [|w [|w' ws] IH]; simpl in *; [done | | by rewrite IH].
  by rewrite app_nil_r.
Qed.

Lemma kebab_shape_split b w0 ws :
  kebab_shape b w0 ws → Js.split "-" b = w0 :: ws.
Proof.
  intros [-> _ H0 _ Hws]. apply split_words.
  - intros Hin. eapply Forall_forall in H0; [|done].
    by apply lower_alnum_not_hyphen in H0.
  - eapply Forall_impl; [done |]. intros w [_ Hw] Hin.
    eapply Forall_forall in Hw; [|done].
    by apply lower_alnum_not_hyphen in Hw.
Qed.

Lemma toPascalCase_unfold n :
  toPascalCase n = pascalOf (basename n (extname n)) ++ extname n.
Proof. done. Qed.

Lemma capitalize_word w :
  Forall (λ c, lower_alnum_char c = true) w →
  capitalize w
  = match w with [] => [] | c :: w' => Js.toUpperChar c :: w' end.
Proof.
  destruct w as [|c w]; [done |]. intros [Hc Hw]%Forall_cons.
  unfold capitalize. simpl. rewrite drop_0. f_equal.
  unfold Js.toLowerCase. induction Hw as [|x w Hx _ IH]; [done |].
  by rewrite fmap_cons, toLowerChar_lower_alnum, IH.
Qed.

Lemma capitalize_alnum w :
  Forall (λ c, lower_alnum_char c = true) w →
  Forall (λ c, alnum_char c = true) (capitalize w).
Proof.
  intros Hw. rewrite capitalize_word by done.
  destruct Hw as [|c w Hc Hw]; constructor.
  - by apply toUpperChar_alnum.
  - eapply Forall_impl; [done |]. apply lower_alnum_alnum.
Qed.

Lemma pascalOf_shape b w0 ws :
  kebab_shape b w0 ws →
  pascalOf b = capitalize w0 ++ concat (capitalize <$> ws).
Proof.
  intros Hs. unfold pascalOf.
  by rewrite (kebab_shape_split _ _ _ Hs), join_nil_concat.
Qed.

(** The Pascal-case name starts with an upper-case letter and is
    alphanumeric throughout. *)
Lemma pascalOf_head b w0 ws :
  kebab_shape b w0 ws →
  ∃ C P, pascalOf b = C :: P ∧ Js.is_upper C = true.
Proof.
  intros Hs. rewrite (pascalOf_shape _ _ _ Hs).
  destruct Hs as [_ (c & w & -> & Hc) H0 _ _].
  rewrite capitalize_word by done. simpl.
  eexists _, _. split; [done |]. by apply toUpperChar_lower.
Qed.

Lemma pascalOf_alnum b w0 ws :
  kebab_shape b w0 ws → Forall (λ c, alnum_char c = true) (pascalOf b).
Proof.
  intros Hs. rewrite (pascalOf_shape _ _ _ Hs).
  destruct Hs as [_ _ H0 _ Hws].
  apply Forall_app. split; [by apply capitalize_alnum |].
  induction Hws as [|w ws [_ Hw] _ IH]; simpl; [constructor |].
  apply Forall_app. split; [by apply capitalize_alnum | done].
Qed.

End KebabFacts.

(** ** Path functions *)

Section PathFacts.

Context {A : Type}.
Implicit Types (p q : A → bool) (l : list A).

Lemma takeWhile_all p l :
  Forall (λ x, p x = true) l → takeWhile p l = l.
Proof. induction 1 as [|x l Hx _ IH]; simpl; [done |]. by rewrite Hx, IH. Qed.

Lemma dropWhile_all p l :
  Forall (λ x, p x = true) l → dropWhile p l = [].
Proof. induction 1 as [|x l Hx _ IH]; simpl; [done |]. by rewrite Hx. Qed.

Lemma dropWhile_none p l :
  Forall (λ x, p x = false) l → dropWhile p l = l.
Proof. destruct 1 as [|x l Hx _]; simpl; [done |]. by rewrite Hx. Qed.

Lemma takeWhile_Forall p l : Forall (λ x, p x = true) (takeWhile p l).
Proof.
  induction l as [|x l IH]; simpl; [constructor |].
  destruct (p x) eqn:Hx; by constructor.
Qed.

Lemma takeWhile_keeps (P : A → Prop) p l :
  Forall P l → Forall P (takeWhile p l).
Proof.
  induction 1 as [|x l Hx _ IH]; simpl; [constructor |].
  destruct (p x); by constructor.
Qed.

Lemma takeWhile_dropWhile p l : takeWhile p l ++ dropWhile p l = l.
Proof.
  induction l as [|x l IH]; simpl; [done |].
  destruct (p x); simpl; [by rewrite IH | done].
Qed.

Lemma dropWhile_head p l x l' : dropWhile p l = x :: l' → p x = false.
Proof.
  induction l as [|y l IH]; simpl; [done |].
  destruct (p y) eqn:Hy; [done |]. by intros [= -> _].
Qed.

Lemma takeWhile_stop p l1 x l2 :
  Forall (λ x, p x = true) l1 → p x = false →
  takeWhile p (l1 ++ x :: l2) = l1.
Proof.
  intros H Hx. induction H as [|y l1 Hy _ IH]; simpl.
  - by rewrite Hx.
  - by rewrite Hy, IH.
Qed.

Lemma dropWhile_stop p l1 x l2 :
  Forall (λ x, p x = true) l1 → p x = false →
  dropWhile p (l1 ++ x :: l2) = x :: l2.
Proof.
  intros H Hx. induction H as [|y l1 Hy _ IH]; simpl.
  - by rewrite Hx.
  - by rewrite Hy, IH.
Qed.

End PathFacts.

Section PathNameFacts.

Implicit Types (n e b : str).

Lemma not_sep_is_sep c : not_sep c = true → is_sep c = false.
Proof. unfold not_sep. by destruct (is_sep c). Qed.

Lemma not_dot_is_dot c : not_dot c = true → is_dot c = false.
Proof. unfold not_dot. by destruct (is_dot c). Qed.

Lemma is_dot_eq c : not_dot c = false → c = "."%char.
Proof.
  unfold not_dot, is_dot. case_bool_decide; [done | by simpl].
Qed.

Lemma last_component_rev_no_sep n :
  Forall (λ c, not_sep c = true) n → last_component_rev n = reverse n.
Proof.
  intros Hn. unfold last_component_rev.
  assert (Forall (λ c, not_sep c = true) (reverse n)) as Hr
    by (by apply Forall_reverse).
  rewrite dropWhile_none.
  - by apply takeWhile_all.
  - eapply Forall_impl; [done |]. apply not_sep_is_sep.
Qed.

Lemma last_component_no_sep n :
  Forall (λ c, not_sep c = true) n → last_component n = n.
Proof.
  intros Hn. unfold last_component.
  by rewrite last_component_rev_no_sep, reverse_involutive.
Qed.

Lemma last_component_not_sep n :
  Forall (λ c, not_sep c = true) (last_component n).
Proof. apply Forall_reverse, takeWhile_Forall. Qed.

Lemma basename_nil n : basename n [] = last_component n.
Proof. done. Qed.

Lemma extname_shape n : ext_shape (extname n).
Proof.
  unfold extname, ext_shape.
  destruct (dropWhile not_dot (last_component_rev n)) as [|d [|d' r]];
    [by left | by left |].
  case_bool_decide; [by left |]. right.
  exists (reverse (takeWhile not_dot (last_component_rev n))).
  split; [by rewrite reverse_app |].
  split; apply Forall_reverse.
  - apply takeWhile_Forall.
  - apply takeWhile_keeps, takeWhile_Forall.
Qed.

(** The extension of a dotless, slashless, non-empty name followed by an
    extension is that extension, and the base name is that name. *)
Lemma extname_app P e :
  P ≠ [] → Forall (λ c, alnum_char c = true) P → ext_shape e →
  extname (P ++ e) = e.
Proof.
  intros Hne HP He.
  assert (Forall (λ c, not_dot c = true) (reverse P)) as Hdot.
  { apply Forall_reverse. eapply Forall_impl; [done |]. apply alnum_not_dot. }
  assert (Forall (λ c, not_sep c = true) P) as Hsep.
  { eapply Forall_impl; [done |]. apply alnum_not_sep. }
  unfold extname. destruct He as [-> | (e' & -> & Hd & Hs)].
  - rewrite app_nil_r, last_component_rev_no_sep by done.
    by rewrite dropWhile_all.
  - rewrite last_component_rev_no_sep
      by (apply Forall_app; split; [done | by constructor]).
    rewrite reverse_app, reverse_cons, <- app_assoc. simpl.
    rewrite dropWhile_stop by (by try apply Forall_reverse).
    rewrite takeWhile_stop by (by try apply Forall_reverse).
    destruct (reverse P) as [|x r] eqn:HrP.
    { apply (f_equal reverse) in HrP.
      by rewrite reverse_involutive in HrP. }
    rewrite bool_decide_eq_false_2.
    + by rewrite reverse_app, reverse_involutive.
    + apply Forall_cons in Hdot as [Hx _].
      destruct (reverse e') as [|y r'] eqn:Hre; simpl.
      * intros [= -> _]. done.
      * apply (Forall_reverse _ e') in Hd. rewrite Hre in Hd.
        apply Forall_cons in Hd as [Hy _]. intros [= -> _]. done.
Qed.

Lemma basename_app P e :
  P ≠ [] → Forall (λ c, alnum_char c = true) P → ext_shape e →
  basename (P ++ e) e = P.
Proof.
  intros Hne HP He.
  assert (Forall (λ c, not_sep c = true) P) as Hsep.
  { eapply Forall_impl; [done |]. apply alnum_not_sep. }
  unfold basename. destruct He as [-> | (e' & -> & Hd & Hs)].
  - rewrite app_nil_r. simpl. by apply last_component_no_sep.
  - rewrite bool_decide_eq_true_2 by done.
    rewrite bool_decide_eq_true_2 by (rewrite length_app; lia).
    rewrite last_component_no_sep
      by (apply Forall_app; split; [done | by constructor]).
    assert (P ++ "."%char :: e' ≠ "."%char :: e') as Hneq.
    { intros Heq. apply (f_equal length) in Heq.
      rewrite length_app in Heq. destruct P; [done | simpl in Heq; lia]. }
    simpl. rewrite bool_decide_eq_false_2 by done.
    rewrite (proj2 (endsWith_suffix _ _)) by (by apply suffix_app_r).
    rewrite bool_decide_eq_false_2 by done.
    assert (length (P ++ "."%char :: e') - S (length e') = length P) as ->
      by (rewrite length_app; simpl; lia).
    by rewrite take_app_length.
Qed.

(** A name without '/' is its base name followed by its extension. *)
Lemma basename_extname_split n :
  Forall (λ c, not_sep c = true) n →
  basename n (extname n) ++ extname n = n.
Proof.
  intros Hn. unfold extname.
  rewrite last_component_rev_no_sep by done.
  pose proof (takeWhile_dropWhile not_dot (reverse n)) as Hsplit.
  destruct (dropWhile not_dot (reverse n)) as [|d [|d' r]] eqn:Hdrop.
  - rewrite basename_nil. by rewrite app_nil_r, last_component_no_sep.
  - rewrite basename_nil. by rewrite app_nil_r, last_component_no_sep.
  - apply dropWhile_head in Hdrop as Hd. apply is_dot_eq in Hd as ->.
    set (t := takeWhile not_dot (reverse n)) in *.
    assert (n = reverse (d' :: r) ++ "."%char :: reverse t) as Hn'.
    { rewrite <- (reverse_involutive n), <- Hsplit.
      by rewrite reverse_app, reverse_cons, <- app_assoc. }
    case_bool_decide as Hdd.
    + rewrite basename_nil. by rewrite app_nil_r, last_component_no_sep.
    + rewrite reverse_app. simpl. clearbody t.
      set (e := "."%char :: reverse t) in *.
      set (b := reverse (d' :: r)) in *.
      assert (b ≠ []) as Hb.
      { intros H%(f_equal reverse). unfold b in H.
        by rewrite reverse_involutive in H. }
      assert (length n = length b + length e) as Hlen
        by (by rewrite Hn', length_app).
      assert (0 < length b) as Hposb by (destruct b; simpl; [done | lia]).
      assert (e ≠ n) as Hneq by (intros Heq; rewrite <- Heq in Hlen; lia).
      unfold basename.
      rewrite bool_decide_eq_true_2 by done.
      rewrite bool_decide_eq_true_2 by lia.
      cbn [andb]. rewrite bool_decide_eq_false_2 by done.
      rewrite last_component_no_sep by done.
      rewrite (proj2 (endsWith_suffix _ _))
        by (rewrite Hn'; by apply suffix_app_r).
      rewrite bool_decide_eq_false_2 by done.
      replace (length n - length e) with (length b) by lia.
      rewrite Hn' at 1. by rewrite take_app_length.
Qed.

End PathNameFacts.

(** ** The naming transform *)

(** C8.  The output of [toPascalCase] on a kebab-case name is no longer
    kebab-case. *)
Theorem toPascalCase_not_kebab (n : str) :
  isKebabCase n = true → isKebabCase (toPascalCase n) = false.
Proof.
  intros Hk. destruct (isKebabCase_shape n Hk) as (w0 & ws & Hs).
  rewrite toPascalCase_unfold.
  destruct (pascalOf_head _ _ _ Hs) as (C & P & HP & HC).
  pose proof (pascalOf_alnum _ _ _ Hs) as Halnum.
  pose proof (extname_shape n) as He.
  unfold isKebabCase. rewrite HP in Halnum |- *.
  rewrite extname_app, basename_app by done.
  apply not_true_is_false. intros Ht.
  apply test_lang, kebab_re_shape in Ht as (w0' & ws' & Hs').
  destruct Hs' as [Heq (c & w & -> & Hc) _ _ _].
  injection Heq as -> _.
  apply upper_not_lower_alnum in HC. unfold lower_alnum_char in HC.
  by rewrite Hc in HC.
Qed.

Lemma toPascalCase_not_kebab_witness :
  isKebabCase (toPascalCase "my-button.vue") = false.
Proof. apply toPascalCase_not_kebab. reflexivity. Defined.

Section PascalTwice.

Lemma split_no_sep sep (w : str) : sep ∉ w → Js.split sep w = [w].
Proof.
  induction w as [|c w IH]; simpl; [done |].
  intros [Hc Hw]%not_elem_of_cons.
  rewrite decide_False by done. by rewrite IH.
Qed.

(** Applied to a name that starts with an upper-case letter and is
    alphanumeric, the transform lower-cases everything after the first
    letter. *)
Lemma pascalOf_alnum_word C P :
  Js.is_upper C = true → Forall (λ c, alnum_char c = true) (C :: P) →
  pascalOf (C :: P) = C :: Js.toLowerCase P.
Proof.
  intros HC Hall. unfold pascalOf.
  assert (Js.split "-" (C :: P) = [C :: P]) as ->.
  { apply split_no_sep. intros Hin.
    eapply Forall_forall in Hall; [|done]. done. }
  rewrite join_nil_concat. simpl. rewrite app_nil_r.
  unfold capitalize. simpl. rewrite drop_0.
  by rewrite toUpperChar_upper.
Qed.

Lemma pascalOf_twice b w0 ws :
  kebab_shape b w0 ws → later_word_letter b →
  pascalOf (pascalOf b) ≠ pascalOf b.
Proof.
  intros Hs (w & c & w' & Hin & -> & Hc).
  destruct (pascalOf_head _ _ _ Hs) as (C & P & HP & HC).
  pose proof (pascalOf_alnum _ _ _ Hs) as Halnum.
  rewrite HP in Halnum |- *. rewrite pascalOf_alnum_word by done.
  intros [= Heq]. revert Heq.
  apply (fmap_changes _ _ (Js.toUpperChar c)).
  - rewrite (pascalOf_shape _ _ _ Hs) in HP.
    rewrite (kebab_shape_split _ _ _ Hs) in Hin. simpl in Hin.
    destruct Hs as [_ (c0 & w0' & -> & Hc0) H0 _ Hws].
    rewrite capitalize_word in HP by done. injection HP as _ <-.
    apply elem_of_app. right.
    apply list_elem_of_split in Hin as (ws1 & ws2 & ->).
    rewrite fmap_app, fmap_cons, concat_app, concat_cons.
    apply elem_of_app. right. apply elem_of_app. left.
    apply Forall_app in Hws as [_ [[_ Hw] _]%Forall_cons].
    rewrite capitalize_word by done. left.
  - apply toLowerChar_upper. by apply toUpperChar_lower.
Qed.

Lemma toUpperChar_not_lower c : Js.is_lower c = false → Js.toUpperChar c = c.
Proof. unfold Js.toUpperChar. by intros ->. Qed.

(** When every later word begins with a digit, the Pascal-case name has no
    upper-case letter after the first, and a second application leaves it
    as it is. *)
Lemma pascalOf_fixed b w0 ws :
  kebab_shape b w0 ws → ¬ later_word_letter b →
  pascalOf (pascalOf b) = pascalOf b.
Proof.
  intros Hs Hno.
  destruct (pascalOf_head _ _ _ Hs) as (C & P & HP & HC).
  pose proof (pascalOf_alnum _ _ _ Hs) as Halnum.
  rewrite HP in Halnum |- *. rewrite pascalOf_alnum_word by done.
  f_equal. apply fmap_fixed. intros x Hx. apply toLowerChar_lower_alnum.
  rewrite (pascalOf_shape _ _ _ Hs) in HP.
  assert (∀ w c w', w ∈ ws → w = c :: w' → Js.is_lower c = false) as Hdig.
  { intros w c w' Hin -> . apply not_true_is_false. intros Hc.
    apply Hno. exists (c :: w'), c, w'.
    by rewrite (kebab_shape_split _ _ _ Hs). }
  destruct Hs as [_ (c0 & w0' & -> & Hc0) H0 _ Hws].
  rewrite capitalize_word in HP by done. injection HP as _ <-.
  apply Forall_cons in H0 as [_ H0].
  apply elem_of_app in Hx as [Hx | Hx].
  { by eapply Forall_forall in H0. }
  clear H0 Halnum. revert Hx Hdig.
  induction Hws as [|w ws [Hne Hw] _ IH]; intros Hx Hdig; simpl in Hx.
  { by apply elem_of_nil in Hx. }
  apply elem_of_app in Hx as [Hx | Hx].
  - rewrite capitalize_word in Hx by done.
    destruct w as [|c w']; [done |].
    rewrite toUpperChar_not_lower in Hx by (eapply Hdig; [left | done]).
    by eapply Forall_forall in Hw.
  - apply IH; [done |]. intros w' c w'' Hin. apply Hdig. by right.
Qed.

End PascalTwice.

(** C10, as amended.  [toPascalCase] is not idempotent: on every kebab-case
    name in which a word after the first begins with a letter, such as
    'my-button.vue', a second application changes the result of the first
    ('MyButton.vue' becomes 'Mybutton.vue'); on the other kebab-case names
    it does not. *)
Theorem toPascalCase_not_idempotent (n : str) :
  isKebabCase n = true →
  (later_word_letter (basename n (extname n)) →
   toPascalCase (toPascalCase n) ≠ toPascalCase n)
  ∧ (¬ later_word_letter (basename n (extname n)) →
     toPascalCase (toPascalCase n) = toPascalCase n).
Proof.
  intros Hk. destruct (isKebabCase_shape n Hk) as (w0 & ws & Hs).
  destruct (pascalOf_head _ _ _ Hs) as (C & P & HP & HC).
  pose proof (pascalOf_alnum _ _ _ Hs) as Halnum.
  pose proof (extname_shape n) as He.
  rewrite (toPascalCase_unfold (toPascalCase n)), toPascalCase_unfold.
  assert (pascalOf (basename n (extname n)) ≠ []) as Hne by (by rewrite HP).
  rewrite extname_app, basename_app by done. split.
  - intros Hl Heq%app_inv_tail. by eapply pascalOf_twice.
  - intros Hno. f_equal. by eapply pascalOf_fixed.
Qed.

Lemma toPascalCase_not_idempotent_witness :
  toPascalCase (toPascalCase "my-button.vue") ≠ toPascalCase "my-button.vue"
  ∧ toPascalCase "MyButton.vue" = ("Mybutton.vue" : str).
Proof.
  split; [|reflexivity].
  apply (proj1 (toPascalCase_not_idempotent "my-button.vue" eq_refl)).
  exists ("button" : str), "b"%char, ("utton" : str).
  split; [|done]. vm_compute. left.
Defined.

(** The claim as worded, for every kebab-case name, fails when the later
    words begin with digits. *)
Lemma toPascalCase_idempotent_counterexample :
  isKebabCase "a-1.vue" = true
  ∧ length (Js.split "-" (basename "a-1.vue" (extname "a-1.vue"))) = 2
  ∧ ¬ (toPascalCase (toPascalCase "a-1.vue") ≠ toPascalCase "a-1.vue").
Proof.
  split; [reflexivity |]. split; [reflexivity |].
  intros H. apply H. reflexivity.
Qed.

(** ** The plan builder *)

Section PlanFacts.

Context (cwd : str) {Content : Type}.
Context (glob : str → str → list str → gmap str Content → list str).

Lemma pushMapping_spec mappings filePath :
  pushMapping mappings filePath
  = mappings ++ (if isKebabCase (basename filePath []) then
                   [mappingOf filePath] else []).
Proof.
  unfold pushMapping. destruct (isKebabCase _); [done |].
  by rewrite app_nil_r.
Qed.

Lemma foldl_pushMapping files mappings :
  foldl pushMapping mappings files
  = mappings
    ++ (mappingOf <$> filter (λ fp, isKebabCase (basename fp []) = true) files).
Proof.
  revert mappings. induction files as [|fp files IH]; intros mappings; simpl.
  - by rewrite app_nil_r.
  - rewrite IH, pushMapping_spec, <- app_assoc. f_equal.
    rewrite filter_cons. destruct (isKebabCase _) eqn:Hk.
    + by rewrite decide_True.
    + by rewrite decide_False by congruence.
Qed.

Lemma findKebabCaseFiles_spec (options : FindFilesOptions)
    (d : gmap str Content) :
  findKebabCaseFiles cwd Content glob options d
  = mappingOf
      <$> filter (λ fp, isKebabCase (basename fp []) = true)
            (glob "**/*.vue"
               (resolve cwd [default cwd (ff_cwd options);
                             ff_targetDir options])
               (default DEFAULT_IGNORE (ff_ignore options)) d).
Proof. unfold findKebabCaseFiles. by rewrite foldl_pushMapping. Qed.

Lemma createMappingsFromFiles_spec (files : list str)
    (d : gmap str Content) :
  createMappingsFromFiles Content files d
  = mappingOf
      <$> filter (λ fp, isKebabCase (basename fp []) = true)
            (filter (λ fp, is_Some (d !! fp)) files).
Proof.
  unfold createMappingsFromFiles.
  enough (∀ mappings,
    foldl (λ mappings filePath,
        if negb (existsSync Content d filePath) then mappings
        else pushMapping mappings filePath) mappings files
    = mappings
      ++ (mappingOf
            <$> filter (λ fp, isKebabCase (basename fp []) = true)
                  (filter (λ fp, is_Some (d !! fp)) files))) as H
    by apply (H []).
  induction files as [|fp files IH]; intros mappings; simpl.
  - by rewrite app_nil_r.
  - rewrite IH. unfold existsSync. rewrite (filter_cons _ fp).
    case_bool_decide as He; simpl.
    + rewrite decide_True by done.
      rewrite pushMapping_spec, <- app_assoc. f_equal.
      rewrite filter_cons. destruct (isKebabCase _) eqn:Hk.
      * by rewrite decide_True.
      * by rewrite decide_False by congruence.
    + by rewrite decide_False by done.
Qed.

(** Every mapping of a plan is the mapping of a file with a kebab-case
    name. *)
Lemma planned_mapping (options : FindFilesOptions) (files : list str)
    (d : gmap str Content) (m : RenameMapping) :
  m ∈ findKebabCaseFiles cwd Content glob options d
  ∨ m ∈ createMappingsFromFiles Content files d →
  ∃ filePath,
    m = mappingOf filePath ∧ isKebabCase (basename filePath []) = true.
Proof.
  rewrite findKebabCaseFiles_spec, createMappingsFromFiles_spec.
  intros [H | H]; apply list_elem_of_fmap in H as (fp & -> & Hin);
    apply list_elem_of_filter in Hin as [Hk _]; eauto.
Qed.

End PlanFacts.

Section TerminalRewrite.

Lemma kebab_shape_chars b w0 ws :
  kebab_shape b w0 ws →
  Forall (λ c, lower_alnum_char c = true ∨ c = "-"%char) b
  ∧ "-"%char ∈ b.
Proof.
  intros [-> _ H0 Hne Hws]. split.
  - apply Forall_app. split.
    + eapply Forall_impl; [done |]. by left.
    + clear Hne. induction Hws as [|w ws [_ Hw] _ IH]; simpl; [constructor |].
      constructor; [by right |]. apply Forall_app. split; [|done].
      eapply Forall_impl; [done |]. by left.
  - apply elem_of_app. right. destruct ws as [|w ws]; [done |].
    simpl. left.
Qed.

(** A specifier that passes the name filter ends with the name. *)
Lemma nameFilter_suffix s name :
  nameFilter s name = true → name `suffix_of` s.
Proof.
  unfold nameFilter. rewrite !orb_true_iff, !bool_decide_eq_true.
  intros [[H%endsWith_suffix | ->] | ->].
  - by apply suffix_cons_l in H.
  - by apply (suffix_app_r _ _ "./").
  - done.
Qed.

Lemma rewritten_fails_filter fp s :
  isKebabCase (basename fp []) = true →
  nameFilter s (basename fp []) = true →
  nameFilter
    (replaceImportPath s (basename fp []) (toPascalCase (basename fp [])))
    (basename fp []) = false.
Proof.
  intros Hk Hf. set (n := basename fp []) in *.
  assert (Forall (λ c, not_sep c = true) n) as Hsep
    by apply last_component_not_sep.
  destruct (isKebabCase_shape n Hk) as (w0 & ws & Hs).
  pose proof (basename_extname_split n Hsep) as Hn.
  rewrite toPascalCase_unfold.
  set (b := basename n (extname n)) in *. set (e := extname n) in *.
  destruct (pascalOf_head _ _ _ Hs) as (C & P & HP & HC).
  pose proof (pascalOf_alnum _ _ _ Hs) as Halnum.
  destruct (kebab_shape_chars _ _ _ Hs) as [Hchars Hhyphen].
  apply nameFilter_suffix in Hf as [pre ->].
  assert (n ≠ []) as Hne.
  { rewrite <- Hn. destruct Hs as [-> (c & w & -> & _) _ _ _]. done. }
  unfold replaceImportPath. rewrite lastIndexOf_suffix by done.
  rewrite take_app_length, drop_app_add, drop_all, !app_nil_r.
  apply not_true_is_false. intros Hsuf%nameFilter_suffix.
  rewrite <- Hn in Hsuf at 1. rewrite app_assoc in Hsuf.
  apply suffix_app_inv in Hsuf.
  destruct (suffix_weak_total b (pascalOf b) (pre ++ pascalOf b) Hsuf)
    as [Hbp | Hpb]; [by apply suffix_app_r | |].
  - destruct Hbp as [k Hk']. rewrite Hk' in Halnum.
    apply Forall_app in Halnum as [_ Hb].
    eapply Forall_forall in Hb; [|exact Hhyphen]. done.
  - destruct Hpb as [k Hk']. rewrite Hk', HP in Hchars.
    apply Forall_app in Hchars as [_ [HCc _]%Forall_cons].
    destruct HCc as [HCc | ->]; [|done].
    apply upper_not_lower_alnum in HC. congruence.
Qed.

End TerminalRewrite.

(** C6.  For a mapping of the plan, a specifier that matches it no longer
    matches it once rewritten: the rewrite is terminal. *)
Theorem rewrite_is_terminal (cwd : str) (Content : Type)
    (glob : str → str → list str → gmap str Content → list str)
    (options : FindFilesOptions) (files : list str) (d : gmap str Content)
    (f s : str) (m : RenameMapping) (aliases : PathAliases)
    (projectRoot : str) :
  m ∈ findKebabCaseFiles cwd Content glob options d
  ∨ m ∈ createMappingsFromFiles Content files d →
  matchesImport cwd f s m aliases projectRoot = true →
  matchesImport cwd f (replaceImportPath s (oldName m) (newName m)) m
    aliases projectRoot = false.
Proof.
  intros (fp & -> & Hk)%planned_mapping [Hf _]%matchesImport_target.
  apply not_true_is_false. intros [Hf' _]%matchesImport_target.
  simpl in *. by rewrite rewritten_fails_filter in Hf'.
Qed.

(** ** Applying the updates *)

Section MapFacts.

Context {V : Type}.
Implicit Types (m : list (str * V)) (k : str).

Lemma mapGet_mapSet k k' v m :
  mapGet k (mapSet k' v m) = if bool_decide (k' = k) then Some v else mapGet k m.
Proof.
  induction m as [|[k0 v0] m IH]; simpl.
  - done.
  - destruct (decide (k0 = k')) as [-> | Hne];
      [rewrite bool_decide_eq_true_2 by done
      |rewrite bool_decide_eq_false_2 by done];
      simpl; rewrite ?IH; by repeat case_bool_decide; simplify_eq.
Qed.

Lemma mapSet_keys k v m :
  (mapSet k v m).*1 = if mapGet k m is Some _ then m.*1 else m.*1 ++ [k].
Proof.
  induction m as [|[k0 v0] m IH]; [done |].
  cbn [mapSet mapGet]. case_bool_decide; [by subst |].
  rewrite !fmap_cons, IH. by destruct (mapGet k m).
Qed.

Lemma mapGet_None k m : mapGet k m = None ↔ k ∉ m.*1.
Proof.
  induction m as [|[k0 v0] m IH]; cbn [mapGet].
  - split; [intros _ ?%elem_of_nil; done | done].
  - rewrite fmap_cons, not_elem_of_cons. cbn [fst]. case_bool_decide as H0.
    + split; [done | intros [? _]; congruence].
    + rewrite IH. split; [intros ?; split; [congruence | done] | by intros []].
Qed.

Lemma mapSet_NoDup k v m : NoDup m.*1 → NoDup (mapSet k v m).*1.
Proof.
  intros Hnd. rewrite mapSet_keys.
  destruct (mapGet k m) eqn:Hg; [done |].
  apply mapGet_None in Hg.
  apply NoDup_app. split; [done |]. split; [|apply NoDup_singleton].
  intros x Hx ->%list_elem_of_singleton. done.
Qed.

Lemma mapDelete_notin k m : k ∉ m.*1 → mapDelete k m = m.
Proof.
  induction m as [|[k0 v0] m IH]; [done |].
  rewrite fmap_cons. intros [Hk Hm]%not_elem_of_cons. cbn [mapDelete fst] in *.
  rewrite bool_decide_eq_false_2 by congruence. by rewrite IH.
Qed.

Lemma mapGet_mapDelete k k' m :
  mapGet k (mapDelete k' m) = if bool_decide (k' = k) then None else mapGet k m.
Proof.
  induction m as [|[k0 v0] m IH]; simpl.
  - by case_bool_decide.
  - destruct (decide (k0 = k')) as [-> | Hne];
      [rewrite bool_decide_eq_true_2 by done
      |rewrite bool_decide_eq_false_2 by done];
      simpl; rewrite ?IH; by repeat case_bool_decide; simplify_eq.
Qed.

Lemma mapDelete_NoDup k m : NoDup m.*1 → NoDup (mapDelete k m).*1.
Proof.
  induction m as [|[k0 v0] m IH]; [done |].
  rewrite fmap_cons. intros [Hk Hm]%NoDup_cons. cbn [mapDelete fst] in *.
  case_bool_decide; [by apply IH |].
  rewrite fmap_cons. apply NoDup_cons. cbn [fst]. split; [|by apply IH].
  intros Hin. apply Hk. apply mapGet_None in Hk.
  assert (mapGet k0 (mapDelete k m) = None) as Hg.
  { rewrite mapGet_mapDelete. by destruct (bool_decide (k = k0)). }
  by apply mapGet_None in Hg.
Qed.

End MapFacts.

Section ApplyFacts.

Implicit Types (project : Project) (sf : SourceFile) (k : str).
Implicit Types (us : list ImportUpdate) (u : ImportUpdate).

Lemma applyToSourceFile_nil sf : applyToSourceFile [] sf = sf.
Proof.
  destruct sf as [p imports calls exports]. unfold applyToSourceFile.
  cbn [sf_path sf_imports sf_calls sf_exports]. f_equal.
  - by apply fmap_fixed.
  - apply fmap_fixed. intros c _.
    by destruct (dynamicSpecifier c), (call_arguments c).
  - apply fmap_fixed. intros e _. by destruct (truthy _).
Qed.

Lemma applyToSourceFile_path fileUpdates sf :
  sf_path (applyToSourceFile fileUpdates sf) = sf_path sf.
Proof. done. Qed.

Lemma default_groupOf k us : default [] (groupOf k us) = updatesOf k us.
Proof. unfold groupOf. by destruct (updatesOf k us). Qed.

Lemma applyGroup_groupOf k us sf :
  applyGroup (groupOf k us) sf = applyToSourceFile (updatesOf k us) sf.
Proof.
  unfold groupOf. destruct (updatesOf k us); [|done].
  by rewrite applyToSourceFile_nil.
Qed.

Lemma updatesOf_snoc k us u :
  updatesOf k (us ++ [u])
  = updatesOf k us ++ (if bool_decide (file u = k) then [u] else []).
Proof.
  unfold updatesOf. rewrite filter_app, filter_cons, filter_nil.
  by case_bool_decide; [rewrite decide_True | rewrite decide_False].
Qed.

(** The groups that the first loop of [applyImportUpdates] builds: one
    for each file, holding the updates of that file in order. *)
Lemma groupByFile_acc us acc pre :
  NoDup acc.*1 → (∀ k, mapGet k acc = groupOf k pre) →
  NoDup (foldl (λ updatesByFile update,
           mapSet (file update)
             (default [] (mapGet (file update) updatesByFile) ++ [update])
             updatesByFile) acc us).*1
  ∧ ∀ k, mapGet k (foldl (λ updatesByFile update,
           mapSet (file update)
             (default [] (mapGet (file update) updatesByFile) ++ [update])
             updatesByFile) acc us)
         = groupOf k (pre ++ us).
Proof.
  revert acc pre. induction us as [|u us IH]; intros acc pre Hnd Hget.
  - rewrite app_nil_r. done.
  - cbn [foldl]. replace (pre ++ u :: us) with ((pre ++ [u]) ++ us)
      by (by rewrite <- app_assoc).
    apply IH; [by apply mapSet_NoDup |].
    intros k. rewrite mapGet_mapSet, !Hget, default_groupOf.
    unfold groupOf. rewrite updatesOf_snoc.
    case_bool_decide as Hk.
    + subst k. by destruct (updatesOf (file u) pre).
    + by rewrite app_nil_r.
Qed.

Lemma groupByFile_spec us :
  NoDup (groupByFile us).*1
  ∧ ∀ k, mapGet k (groupByFile us) = groupOf k us.
Proof. by apply (groupByFile_acc us [] []); [constructor |]. Qed.

(** The second loop, seen from the first source file of the project. *)
Lemma apply_groups_cons (groups : list (str * list ImportUpdate)) sf project :
  NoDup groups.*1 →
  foldl (λ project '(filePath, fileUpdates),
      alterSourceFile (applyToSourceFile fileUpdates) filePath project)
    (sf :: project) groups
  = applyGroup (mapGet (sf_path sf) groups) sf
    :: foldl (λ project '(filePath, fileUpdates),
           alterSourceFile (applyToSourceFile fileUpdates) filePath project)
         project (mapDelete (sf_path sf) groups).
Proof.
  revert sf project.
  induction groups as [|[k fus] groups IH]; intros sf project; [done |].
  rewrite fmap_cons. intros [Hk Hnd]%NoDup_cons.
  cbn [foldl alterSourceFile mapGet mapDelete fst] in *.
  destruct (decide (sf_path sf = k)) as [Heq | Hne].
  - rewrite bool_decide_eq_true_2 by done.
    rewrite bool_decide_eq_true_2 by done.
    rewrite IH by done. rewrite applyToSourceFile_path, Heq.
    rewrite (proj2 (mapGet_None k groups)) by done.
    by rewrite mapDelete_notin.
  - rewrite bool_decide_eq_false_2 by done.
    rewrite bool_decide_eq_false_2 by done.
    by rewrite IH.
Qed.

Lemma apply_groups_nil (groups : list (str * list ImportUpdate)) :
  foldl (λ project '(filePath, fileUpdates),
      alterSourceFile (applyToSourceFile fileUpdates) filePath project)
    [] groups = [].
Proof. induction groups as [|[k fus] groups IH]; [done | by simpl]. Qed.





Lemma findUpdate_Some fileUpdates spec u :
  findUpdate fileUpdates spec = Some u → u ∈ fileUpdates ∧ oldImport u = spec.
Proof.
  unfold findUpdate. intros [Hin Hu]%find_some.
  split; [by apply list_elem_of_In | by apply bool_decide_eq_true in Hu].
Qed.




End ApplyFacts.



(** ** The plan builder and collisions *)

(** C3, as amended.  The plan builder makes a mapping for every candidate
    file whose name is kebab-case ([createMappingsFromFiles]: for every
    listed file that exists and whose name is kebab-case), with the
    Pascal-case name in the same directory as its new path; whether a file
    already exists at the new path is not looked at. *)
Theorem plan_builder_keeps_every_candidate (cwd : str) (Content : Type)
    (glob : str → str → list str → gmap str Content → list str)
    (options : FindFilesOptions) (files : list str) (d : gmap str Content) :
  findKebabCaseFiles cwd Content glob options d
  = mappingOf
      <$> filter (λ fp, isKebabCase (basename fp []) = true)
            (glob "**/*.vue"
               (resolve cwd [default cwd (ff_cwd options); ff_targetDir options])
               (default DEFAULT_IGNORE (ff_ignore options)) d)
  ∧ createMappingsFromFiles Content files d
    = mappingOf
        <$> filter (λ fp, isKebabCase (basename fp []) = true)
              (filter (λ fp, is_Some (d !! fp)) files).
Proof.
  split; [apply findKebabCaseFiles_spec | apply createMappingsFromFiles_spec].
Qed.

(** With [MyButton.vue] already next to [my-button.vue], both builders still
    plan the rename onto it. *)
Lemma plan_targets_free_counterexample :
  ¬ plan_targets_free Fixture.collisionDisk
      (findKebabCaseFiles "/p" Fixture.Text Fixture.glob Fixture.findOptions0
         Fixture.collisionDisk)
  ∧ ¬ plan_targets_free Fixture.collisionDisk
        (createMappingsFromFiles Fixture.Text
           [("/p/src/components/my-button.vue" : str)] Fixture.collisionDisk).
Proof.
  split; intros H; specialize (H Fixture.componentsButton);
    (assert (existsSync Fixture.Text Fixture.collisionDisk
               (newPath Fixture.componentsButton) = true) as He
       by (by vm_compute));
    rewrite H in He; try done; vm_compute.
  - left.
  - left.
Qed.

(** ** The dry run *)

Section DryRunFacts.

Context (cwd : str) {Content : Type}.
Context (glob : str → str → list str → gmap str Content → list str).
Context (parseSourceFile : str → Content → option SourceFile).

Lemma report_returns onProgress message current total (w : World Content) :
  ∃ w', report Content onProgress message current total w = (Returned (), w')
        ∧ disk w' = disk w.
Proof. unfold report. destruct onProgress; eauto. Qed.

Lemma loadFiles_returns onProgress sourceFiles total count project
    (w : World Content) :
  ∃ project' w',
    loadFiles Content parseSourceFile onProgress sourceFiles total count
      project w = (Returned project', w')
    ∧ disk w' = disk w.
Proof.
  revert count project w.
  induction sourceFiles as [|file' sourceFiles IH]; intros count project w.
  - by eexists _, _.
  - cbn [loadFiles]. unfold mbind, M_bind, getDisk.
    destruct (option_bind _ _ _ _) as [sf|]; [|apply IH].
    case_bool_decide.
    + destruct (report_returns onProgress "Loading project files..."
                  (Some (S count)) (Some total) w) as (w' & -> & Hd).
      destruct (IH (S count) (project ++ [sf]) w') as (p' & w'' & -> & Hd').
      eexists _, _. split; [done | congruence].
    + apply IH.
Qed.

Lemma loadProject_returns scanDir extensions ignore onProgress
    (w : World Content) :
  ∃ project w',
    loadProject Content glob parseSourceFile scanDir extensions ignore
      onProgress w = (Returned project, w')
    ∧ disk w' = disk w.
Proof. unfold loadProject, mbind, M_bind, getDisk. apply loadFiles_returns. Qed.

End DryRunFacts.

(** C4.  A dry run returns, leaves every file where and as it was, and the
    mappings and import updates it returns are those a real run from the
    same state returns. *)
Theorem dry_run_invariant (cwd : str) (Content : Type)
    (glob : str → str → list str → gmap str Content → list str)
    (parseSourceFile : str → Content → option SourceFile)
    (printSourceFile : Content → SourceFile → Content)
    (countLines byteSize : Content → nat)
    (loadViteAliases : str → gmap str Content → option PathAliases)
    (options : RenameOptions) (w : World Content) :
  let run b :=
    renameVueFiles cwd Content glob parseSourceFile printSourceFile
      countLines byteSize loadViteAliases (withDryRun b options) w in
  disk (run true).2 = disk w
  ∧ ∃ r, (run true).1 = Returned r
      ∧ res_dryRun r = true
      ∧ ∀ r', (run false).1 = Returned r' →
          mappings r' = mappings r ∧ importUpdates r' = importUpdates r.
Proof.
  intros run. unfold run, renameVueFiles.
  cbn [withDryRun targetDir ro_cwd importScanDir extensions ignore dryRun
       useGitMv aliases autoDetectAliases onProgress default from_option id].
  unfold mbind, M_bind, getDisk.
  destruct (report_returns (onProgress options) "Scanning for Vue files..."
              None None w) as (w1 & -> & Hd1).
  case_bool_decide as Hempty.
  { unfold mret, M_ret. cbn [fst snd]. split; [done |].
    eexists. split; [done |]. split; [done |]. by intros r' [= <-]. }
  destruct (report_returns (onProgress options)
              "Collecting file statistics..." None None w1)
    as (w2 & -> & Hd2).
  match goal with
  | |- context [loadProject _ _ _ ?dir ?ext ?ign ?cb w2] =>
      destruct (loadProject_returns glob parseSourceFile dir ext ign cb w2)
        as (project & w3 & -> & Hd3)
  end.
  destruct (report_returns (onProgress options)
              "Finding import references..." None None w3)
    as (w4 & -> & Hd4).
  cbn [negb]. unfold mret, M_ret. cbn [fst snd].
  split; [congruence |].
  eexists. split; [done |]. split; [done |].
  intros r'.
  destruct (report_returns (onProgress options) "Updating imports..."
              None None w4) as (w5 & -> & Hd5).
  unfold saveProject, mbind, M_bind, getDisk, setDisk.
  match goal with
  | |- context [report _ _ ?msg None None ?w6] =>
      destruct (report_returns (onProgress options) msg None None w6)
        as (w7 & -> & Hd7)
  end.
  destruct (renameFiles _ _ _ _) as [[[]|] w8]; [|done].
  by intros [= <-].
Qed.

Lemma dry_run_invariant_witness :
  ∃ r r',
    (Fixture.run (withDryRun true Fixture.options0) Fixture.world0).1
    = Returned r
    ∧ (Fixture.run (withDryRun false Fixture.options0) Fixture.world0).1
      = Returned r'
    ∧ mappings r' = mappings r
    ∧ importUpdates r' = importUpdates r
    ∧ disk (Fixture.run (withDryRun true Fixture.options0) Fixture.world0).2
      = Fixture.disk0.
Proof.
  destruct (dry_run_invariant "/p" Fixture.Text Fixture.glob Fixture.parse
              Fixture.print Fixture.lines Fixture.size Fixture.noViteAliases
              Fixture.options0 Fixture.world0) as [Hdisk (r & Hr & _ & Hreal)].
  eexists r, _. split; [exact Hr |].
  split; [vm_compute; reflexivity |].
  split; [|split; [|exact Hdisk]]; apply Hreal; vm_compute; reflexivity.
Defined.

(** ** Witnesses on the test project *)

Lemma same_name_never_cross_matched_witness :
  ¬ (matchesImport "/p" "/p/src/pages/home-page.vue" "@/shared/my-button.vue"
       Fixture.componentsButton DEFAULT_ALIASES "/p" = true
     ∧ matchesImport "/p" "/p/src/pages/home-page.vue"
         "@/shared/my-button.vue" Fixture.sharedButton DEFAULT_ALIASES "/p"
       = true)
  ∧ matchesImport "/p" "/p/src/pages/home-page.vue" "@/shared/my-button.vue"
      Fixture.sharedButton DEFAULT_ALIASES "/p" = true.
Proof.
  split; [|reflexivity].
  apply (same_name_never_cross_matched "/p" "/p/src/pages/home-page.vue"
           "@/shared/my-button.vue" Fixture.componentsButton
           Fixture.sharedButton DEFAULT_ALIASES "/p").
  - reflexivity.
  - vm_compute. congruence.
Defined.

Lemma rewrite_is_terminal_witness :
  matchesImport "/p" "/p/src/components/index.ts" "./my-button.vue"
    Fixture.componentsButton DEFAULT_ALIASES "/p" = true
  ∧ matchesImport "/p" "/p/src/components/index.ts"
      (replaceImportPath "./my-button.vue" "my-button.vue" "MyButton.vue")
      Fixture.componentsButton DEFAULT_ALIASES "/p" = false.
Proof.
  split; [reflexivity |].
  apply (rewrite_is_terminal "/p" Fixture.Text Fixture.glob
           Fixture.findOptions0 [("/p/src/components/my-button.vue" : str)]
           Fixture.disk0 "/p/src/components/index.ts" "./my-button.vue"
           Fixture.componentsButton DEFAULT_ALIASES "/p").
  - right. vm_compute. left.
  - reflexivity.
Defined.


(** ** References written without the extension *)

(** C2 on the code.  The plan builder gives the mapping of [my-button.vue]
    the full file name as its old name.  The reference './my-button.vue' is
    matched and rewritten to './MyButton.vue'; the reference './my-button'
    is not matched, [replaceImportPath] would leave it as it is, and
    [findImportUpdates] on the [index.ts] of the test project, which
    re-exports './user-card' without the extension, has no update for it. *)
Lemma extensionless_reference_not_matched :
  mappingOf "/p/src/components/my-button.vue" = Fixture.componentsButton
  ∧ matchesImport "/p" "/p/src/components/index.ts" "./my-button.vue"
      Fixture.componentsButton DEFAULT_ALIASES "/p" = true
  ∧ replaceImportPath "./my-button.vue" "my-button.vue" "MyButton.vue"
    = ("./MyButton.vue" : str)
  ∧ matchesImport "/p" "/p/src/components/index.ts" "./my-button"
      Fixture.componentsButton DEFAULT_ALIASES "/p" = false
  ∧ replaceImportPath "./my-button" "my-button.vue" "MyButton.vue"
    = ("./my-button" : str)
  ∧ findImportUpdates "/p" [Fixture.indexTs]
      [Fixture.componentsButton; Fixture.userCard]
      {| opt_aliases := None; opt_projectRoot := None |}
    = [ {| file := "/p/src/components/index.ts";
           oldImport := "./my-button.vue";
           newImport := "./MyButton.vue";
           line := 5 |} ].
Proof. by vm_compute. Qed.

(** * Further properties of the code *)

(** ** Alias lookup and the matcher *)

Section AliasOrderFacts.

Variable cwd : str.

Lemma resolveAliasImport_skip s before rest projectRoot :
  (∀ a ap, (a, ap) ∈ before → ¬ aliasApplies a s) →
  resolveAliasImport cwd s (before ++ rest) projectRoot
  = resolveAliasImport cwd s rest projectRoot.
Proof.
  induction before as [|[a ap] before IH]; intros Hno; [done |].
  cbn [app resolveAliasImport].
  destruct (Js.startsWith s _ || bool_decide (s = a)) eqn:Ht.
  - apply aliasApplies_test in Ht. exfalso. eapply Hno; [left | done].
  - apply IH. intros a' ap' Hin. apply (Hno a' ap'). by right.
Qed.

Lemma resolveAliasImport_head s a ap rest projectRoot :
  aliasApplies a s →
  resolveAliasImport cwd s ((a, ap) :: rest) projectRoot
  = Some (resolve cwd [projectRoot; ap; aliasRemainder a s]).
Proof.
  intros Ha%aliasApplies_test. cbn [resolveAliasImport].
  unfold aliasRemainder, aliasPrefixOf. by rewrite Ha.
Qed.

Lemma resolve_nonempty (args : list str) : resolve cwd args ≠ [].
Proof.
  unfold resolve. destruct (resolveLoop _ _) as [rp abs].
  destruct abs; [done |]. by case_bool_decide.
Qed.

Lemma resolveAliasImport_truthy s aliases projectRoot :
  (∃ a ap, (a, ap) ∈ aliases ∧ aliasApplies a s) →
  truthy (resolveAliasImport cwd s aliases projectRoot) = true.
Proof.
  intros (a & ap & Hin & Ha).
  destruct (resolveAliasImport cwd s aliases projectRoot) as [p|] eqn:Hr.
  - apply resolveAliasImport_Some in Hr as (a' & ap' & rel & _ & _ & ->).
    pose proof (resolve_nonempty [projectRoot; ap'; rel]) as Hne.
    by destruct (resolve _ _).
  - exfalso. revert Hr. clear -Hin Ha.
    induction aliases as [|[a0 ap0] aliases IH]; [by apply elem_of_nil in Hin |].
    cbn [resolveAliasImport].
    destruct (Js.startsWith s _ || bool_decide (s = a0)) eqn:Ht; [done |].
    apply elem_of_cons in Hin as [[= <- <-] | Hin]; [|by apply IH].
    apply aliasApplies_test in Ha. congruence.
Qed.

End AliasOrderFacts.

(** X1.  The first alias of the table that applies to a specifier decides
    its resolution, whatever aliases come after it: the rest of the
    specifier is resolved under that alias's directory below the project
    root. *)
Theorem resolveAliasImport_first_match (cwd s : str)
    (before : PathAliases) (a ap : str) (after : PathAliases)
    (projectRoot : str) :
  (∀ a' ap', (a', ap') ∈ before → ¬ aliasApplies a' s) →
  aliasApplies a s →
  resolveAliasImport cwd s (before ++ (a, ap) :: after) projectRoot
  = Some (resolve cwd [projectRoot; ap; aliasRemainder a s]).
Proof.
  intros Hno Ha. rewrite resolveAliasImport_skip by done.
  by apply resolveAliasImport_head.
Qed.

Lemma resolveAliasImport_first_match_witness :
  resolveAliasImport "/p" "@/components/my-button.vue"
    ([("~" : str, "lib" : str)] ++ ("@" : str, "src" : str)
       :: [("@/components" : str, "other" : str)]) "/p"
  = Some ("/p/src/components/my-button.vue" : str).
Proof.
  apply (resolveAliasImport_first_match "/p" "@/components/my-button.vue"
           [("~" : str, "lib" : str)] "@" "src"
           [("@/components" : str, "other" : str)] "/p").
  - intros a' ap' [= -> ->]%list_elem_of_singleton [H | [H | [_ H]]].
    + done.
    + by apply startsWith_prefix in H.
    + by apply startsWith_prefix in H.
  - right. left. by apply startsWith_prefix.
Defined.

(** X2.  A specifier that no alias applies to and that does not start with
    '.' is never matched, whatever the mapping and the importing file: bare
    package names are left alone even when they end with the name of a
    renamed file. *)
Theorem bare_specifier_never_matched (cwd f s : str) (m : RenameMapping)
    (aliases : PathAliases) (projectRoot : str) :
  (∀ a ap, (a, ap) ∈ aliases → ¬ aliasApplies a s) →
  Js.startsWith s "." = false →
  matchesImport cwd f s m aliases projectRoot = false.
Proof.
  intros Hno Hdot. unfold matchesImport.
  rewrite resolveAliasImport_None by done. cbn [truthy]. rewrite Hdot.
  by destruct (_ && _).
Qed.

Lemma bare_specifier_never_matched_witness :
  matchesImport "/p" "/p/src/components/index.ts" "some-lib/my-button.vue"
    Fixture.componentsButton DEFAULT_ALIASES "/p" = false.
Proof.
  apply bare_specifier_never_matched; [|reflexivity].
  intros a ap Hin [H | [H | [H _]]];
    repeat (apply elem_of_cons in Hin as [[= -> ->] | Hin]);
    try (by apply elem_of_nil in Hin);
    try done;
    try (by apply startsWith_prefix in H);
    try (by apply endsWith_suffix in H).
Defined.

(** X3.  When an alias of the table applies to a specifier, whether it
    matches a mapping does not depend on the importing file: the relative
    resolution is not consulted. *)
Theorem alias_match_ignores_importing_file (cwd f f' s : str)
    (m : RenameMapping) (aliases : PathAliases) (projectRoot : str) :
  (∃ a ap, (a, ap) ∈ aliases ∧ aliasApplies a s) →
  matchesImport cwd f s m aliases projectRoot
  = matchesImport cwd f' s m aliases projectRoot.
Proof.
  intros Ha. unfold matchesImport.
  by rewrite (resolveAliasImport_truthy cwd s aliases projectRoot Ha).
Qed.

Lemma alias_match_ignores_importing_file_witness :
  matchesImport "/p" "/p/src/pages/home-page.vue" "@/shared/my-button.vue"
    Fixture.sharedButton DEFAULT_ALIASES "/p"
  = matchesImport "/p" "/elsewhere/deep/down/x.ts" "@/shared/my-button.vue"
      Fixture.sharedButton DEFAULT_ALIASES "/p".
Proof.
  apply alias_match_ignores_importing_file.
  exists ("@" : str), ("src" : str). split; [left |].
  right. left. by apply startsWith_prefix.
Defined.

(** ** The rewriter at the end of a specifier *)

Lemma replaceImportPath_suffix (pre old new : str) :
  old ≠ [] → replaceImportPath (pre ++ old) old new = pre ++ new.
Proof.
  intros Hne. unfold replaceImportPath. rewrite lastIndexOf_suffix by done.
  by rewrite take_app_length, drop_app_add, drop_all, !app_nil_r.
Qed.

(** X4.  On a specifier that ends with the old name, [replaceImportPath]
    replaces that ending and keeps everything before it, and rewriting the
    result back from the new name to the old one gives the specifier
    again. *)
Theorem replaceImportPath_suffix_round_trip (pre old new : str) :
  old ≠ [] → new ≠ [] →
  replaceImportPath (pre ++ old) old new = pre ++ new
  ∧ replaceImportPath (replaceImportPath (pre ++ old) old new) new old
    = pre ++ old.
Proof.
  intros Hold Hnew. rewrite !replaceImportPath_suffix by done. done.
Qed.

Lemma replaceImportPath_suffix_round_trip_witness :
  replaceImportPath "@/my-button/my-button.vue" "my-button.vue" "MyButton.vue"
  = ("@/my-button/MyButton.vue" : str)
  ∧ replaceImportPath
      (replaceImportPath "@/my-button/my-button.vue" "my-button.vue"
         "MyButton.vue") "MyButton.vue" "my-button.vue"
    = ("@/my-button/my-button.vue" : str).
Proof.
  by apply (replaceImportPath_suffix_round_trip "@/my-button/"
              "my-button.vue" "MyButton.vue").
Defined.

(** X5.  [findImportUpdates] returns, file by file and reference by
    reference (static imports, then dynamic imports, then re-exports), one
    update for each mapping that matches the reference, in the order of the
    mappings; so an update is returned exactly when it is the update of a
    matching mapping at a reference of a file of the project. *)
Theorem findImportUpdates_comprehension (cwd : str) (project : Project)
    (mappings : list RenameMapping) (options : FindImportUpdatesOptions) :
  let aliases := default DEFAULT_ALIASES (opt_aliases options) in
  let projectRoot := default cwd (opt_projectRoot options) in
  findImportUpdates cwd project mappings options
  = project ≫= (λ sf,
      referencesOf sf ≫=
        updatesFor cwd mappings aliases projectRoot (sf_path sf))
  ∧ ∀ u, u ∈ findImportUpdates cwd project mappings options
      ↔ ∃ sf r m,
          sf ∈ project ∧ r ∈ referencesOf sf ∧ m ∈ mappings
          ∧ matchesImport cwd (sf_path sf) r.1 m aliases projectRoot = true
          ∧ u = updateOf (sf_path sf) r m.
Proof.
  split; [apply findImportUpdates_bind |].
  intros u. apply elem_of_findImportUpdates.
Qed.

(** ** [applyImportUpdates], file by file *)

Section ApplyMapFacts.

Implicit Types (project : Project) (sf : SourceFile) (k : str).
Implicit Types (us : list ImportUpdate) (u : ImportUpdate).

Lemma apply_groups_map project (G : list (str * list ImportUpdate)) us :
  NoDup G.*1 → NoDup (sf_path <$> project) →
  (∀ sf, sf ∈ project → mapGet (sf_path sf) G = groupOf (sf_path sf) us) →
  foldl (λ project '(filePath, fileUpdates),
      alterSourceFile (applyToSourceFile fileUpdates) filePath project)
    project G
  = rewriteFile us <$> project.
Proof.
  revert G. induction project as [|sf project IH]; intros G HG Hnd Hget.
  - by rewrite apply_groups_nil.
  - rewrite fmap_cons in Hnd. apply NoDup_cons in Hnd as [Hsf Hnd].
    rewrite apply_groups_cons, fmap_cons by done. f_equal.
    + rewrite Hget by left. apply applyGroup_groupOf.
    + apply IH; [by apply mapDelete_NoDup | done |].
      intros sf' Hsf'. rewrite mapGet_mapDelete.
      rewrite bool_decide_eq_false_2.
      * apply Hget. by right.
      * intros Heq. apply Hsf. rewrite Heq. by apply list_elem_of_fmap_2.
Qed.

Lemma applyImportUpdates_map project us :
  NoDup (sf_path <$> project) →
  applyImportUpdates project us = rewriteFile us <$> project.
Proof.
  intros Hnd. destruct (groupByFile_spec us) as [HG Hget].
  by apply apply_groups_map.
Qed.

Lemma rewriteFile_paths project us :
  sf_path <$> (rewriteFile us <$> project) = sf_path <$> project.
Proof. rewrite <- list_fmap_compose. by apply fmap_agree. Qed.




End ApplyMapFacts.



(** ** A second pass over the rewritten project *)

Section SecondPass.

Variable cwd : str.

Implicit Types (project : Project) (sf : SourceFile) (m : RenameMapping).
Implicit Types (us F : list ImportUpdate) (u : ImportUpdate) (s n : str).

(** A specifier that passes the name filter is the name after nothing or
    after something that ends with '/'. *)
Lemma nameFilter_prefix s n :
  nameFilter s n = true →
  ∃ pre, s = pre ++ n ∧ (pre = [] ∨ ∃ k, pre = k ++ ["/"%char]).
Proof.
  unfold nameFilter. rewrite !orb_true_iff, !bool_decide_eq_true.
  intros [[[k ->]%endsWith_suffix | ->] | ->].
  - exists (k ++ ["/"%char]). split; [by rewrite <- app_assoc | eauto].
  - exists ("./" : str). split; [done |]. right. by exists ("." : str).
  - exists []. split; [done | by left].
Qed.

Lemma last_segment pre n :
  pre = [] ∨ (∃ k, pre = k ++ ["/"%char]) →
  Forall (λ c, not_sep c = true) n →
  reverse (takeWhile not_sep (reverse (pre ++ n))) = n.
Proof.
  intros Hpre Hn. rewrite reverse_app.
  apply (Forall_reverse _ n) in Hn.
  destruct Hpre as [-> | [k ->]].
  - rewrite app_nil_r, takeWhile_all by done. apply reverse_involutive.
  - rewrite reverse_app. cbn [reverse app]. simpl.
    rewrite takeWhile_stop by done. apply reverse_involutive.
Qed.

Lemma last_segment_unique pre pre' n n' :
  pre = [] ∨ (∃ k, pre = k ++ ["/"%char]) →
  pre' = [] ∨ (∃ k, pre' = k ++ ["/"%char]) →
  Forall (λ c, not_sep c = true) n → Forall (λ c, not_sep c = true) n' →
  pre ++ n = pre' ++ n' → n = n'.
Proof.
  intros Hpre Hpre' Hn Hn' Heq.
  rewrite <- (last_segment pre n), <- (last_segment pre' n') by done.
  by rewrite Heq.
Qed.

Lemma toPascalCase_leaves_kebab n :
  isKebabCase n = true → isKebabCase (toPascalCase n) = false.
Proof.
  intros Hk. destruct (isKebabCase_shape n Hk) as (w0 & ws & Hs).
  rewrite toPascalCase_unfold.
  destruct (pascalOf_head _ _ _ Hs) as (C & P & HP & HC).
  pose proof (pascalOf_alnum _ _ _ Hs) as Halnum.
  pose proof (extname_shape n) as He.
  unfold isKebabCase. rewrite HP in Halnum |- *.
  rewrite extname_app, basename_app by done.
  apply not_true_is_false. intros Ht.
  apply test_lang, kebab_re_shape in Ht as (w0' & ws' & Hs').
  destruct Hs' as [Heq (c & w & -> & Hc) _ _ _].
  injection Heq as -> _.
  apply upper_not_lower_alnum in HC. unfold lower_alnum_char in HC.
  by rewrite Hc in HC.
Qed.

Lemma toPascalCase_no_sep n :
  isKebabCase n = true → Forall (λ c, not_sep c = true) (toPascalCase n).
Proof.
  intros Hk. destruct (isKebabCase_shape n Hk) as (w0 & ws & Hs).
  rewrite toPascalCase_unfold. apply Forall_app. split.
  - eapply Forall_impl; [by eapply pascalOf_alnum |]. apply alnum_not_sep.
  - destruct (extname_shape n) as [-> | (e' & -> & _ & He')]; [done |].
    by constructor.
Qed.

Lemma isKebabCase_nonempty n : isKebabCase n = true → n ≠ [].
Proof. by intros Hk ->. Qed.

(** The names of a planned mapping. *)
Lemma planned_names m :
  planned m →
  isKebabCase (oldName m) = true
  ∧ newName m = toPascalCase (oldName m)
  ∧ Forall (λ c, not_sep c = true) (oldName m).
Proof.
  intros (fp & -> & Hk). split; [done |]. split; [done |].
  apply last_component_not_sep.
Qed.

(** A specifier rewritten for one planned mapping passes the name filter
    of no planned mapping. *)
Lemma rewritten_fails_every_filter m m' s :
  planned m → planned m' →
  nameFilter s (oldName m) = true →
  nameFilter (replaceImportPath s (oldName m) (newName m)) (oldName m')
  = false.
Proof.
  intros (Hk & HN & Hsep)%planned_names (Hk' & _ & Hsep')%planned_names.
  intros (pre & -> & Hpre)%nameFilter_prefix.
  rewrite replaceImportPath_suffix by (by apply isKebabCase_nonempty).
  apply not_true_is_false. intros (pre' & Heq & Hpre')%nameFilter_prefix.
  apply last_segment_unique in Heq; [|done | done | | done].
  - pose proof (toPascalCase_leaves_kebab _ Hk) as Hnot.
    rewrite <- HN, Heq in Hnot. congruence.
  - rewrite HN. by apply toPascalCase_no_sep.
Qed.

Lemma slice_quoted (argText new : str) :
  argText ≠ [] →
  Js.slice_1_m1 (take 1 argText ++ new ++ take 1 argText) = new.
Proof.
  destruct argText as [|q argText]; [done |]. intros _.
  unfold Js.slice_1_m1. cbn [take app drop]. simpl.
  rewrite length_app. simpl.
  replace (length new + 1 - 1) with (length new) by lia.
  by rewrite drop_0, take_app_length.
Qed.

(** The references of a rewritten source file: each is a reference of the
    file as it was, either kept because no update was found for its
    specifier, or carrying the new specifier of the update found. *)
Lemma referencesOf_rewritten F sf r' :
  (∀ u, u ∈ F → oldImport u ≠ []) →
  r' ∈ referencesOf (applyToSourceFile F sf) →
  ∃ r, r ∈ referencesOf sf
    ∧ ((findUpdate F r.1 = None ∧ r'.1 = r.1)
       ∨ ∃ u, findUpdate F r.1 = Some u ∧ r'.1 = newImport u).
Proof.
  intros HF. unfold referencesOf, applyToSourceFile.
  cbn [sf_imports sf_calls sf_exports].
  rewrite !elem_of_app.
  intros [Himp | [Hcall | Hexp]].
  - apply list_elem_of_fmap in Himp as (d' & -> & Hd').
    apply list_elem_of_fmap in Hd' as (d & -> & Hd).
    exists (imp_moduleSpecifier d, imp_line d). split.
    { apply elem_of_app. left. apply list_elem_of_fmap. by exists d. }
    cbn [fst]. destruct (findUpdate F (imp_moduleSpecifier d)) as [u|];
      [right; by exists u | by left].
  - apply list_elem_of_omap in Hcall as (c' & Hc' & Hr').
    apply list_elem_of_fmap in Hc' as (c & -> & Hc).
    destruct (dynamicSpecifier c) as [spec|] eqn:Hspec;
      [|by rewrite Hspec in Hr'].
    destruct (call_arguments c) as [|argText args] eqn:Hargs.
    { unfold dynamicSpecifier in Hspec. rewrite Hargs in Hspec.
      by case_bool_decide. }
    exists (spec, call_line c). split.
    { apply elem_of_app. right. apply elem_of_app. left.
      apply list_elem_of_omap. exists c. split; [done |].
      by rewrite Hspec. }
    cbn [fst].
    destruct (findUpdate F spec) as [u|] eqn:Hf.
    + right. exists u. split; [done |].
      apply findUpdate_Some in Hf as [Hin Hold].
      assert (argText ≠ []) as Harg.
      { intros ->. unfold dynamicSpecifier in Hspec.
        rewrite Hargs in Hspec. case_bool_decide; [|done].
        injection Hspec as <-. by apply (HF u Hin). }
      unfold dynamicSpecifier in Hr', Hspec.
      cbn [call_expression call_arguments call_line] in Hr'.
      case_bool_decide; [|done].
      rewrite slice_quoted in Hr' by done. by injection Hr' as <-.
    + left. split; [done |]. rewrite Hspec in Hr'. by injection Hr' as <-.
  - apply list_elem_of_omap in Hexp as (e' & He' & Hr').
    apply list_elem_of_fmap in He' as (e & -> & He).
    destruct (truthy (exp_moduleSpecifier e)) eqn:Ht.
    + exists (default [] (exp_moduleSpecifier e), exp_line e). split.
      { apply elem_of_app. right. apply elem_of_app. right.
        apply list_elem_of_omap. exists e. split; [done |]. by rewrite Ht. }
      cbn [fst].
      destruct (findUpdate F (default [] (exp_moduleSpecifier e)))
        as [u|] eqn:Hf.
      * right. exists u. split; [done |].
        cbn [exp_moduleSpecifier exp_line] in Hr'.
        destruct (truthy (Some (newImport u))); [|done].
        by injection Hr' as <-.
      * left. split; [done |]. rewrite Ht in Hr'. by injection Hr' as <-.
    + by rewrite Ht in Hr'.
Qed.

Lemma specifiersOf_references sf : specifiersOf sf = (referencesOf sf).*1.
Proof.
  unfold specifiersOf, referencesOf. rewrite !fmap_app. f_equal; [|f_equal].
  - rewrite <- list_fmap_compose. by apply fmap_agree.
  - induction (sf_calls sf) as [|c l IH]; [done |].
    cbn [omap list_omap].
    destruct (dynamicSpecifier c); cbn [fmap option_fmap option_map];
      [by rewrite fmap_cons, IH | done].
  - induction (sf_exports sf) as [|e l IH]; [done |].
    cbn [omap list_omap].
    destruct (truthy (exp_moduleSpecifier e)) eqn:Ht; [|done].
    destruct (exp_moduleSpecifier e) as [s|]; [|done].
    by rewrite fmap_cons, IH.
Qed.

(** Updates none of which is for a specifier of the file change nothing. *)
Lemma applyToSourceFile_fixed F sf :
  (∀ s, s ∈ specifiersOf sf → findUpdate F s = None) →
  applyToSourceFile F sf = sf.
Proof.
  unfold specifiersOf. intros Hnone.
  destruct sf as [p imports calls exports]. unfold applyToSourceFile.
  cbn [sf_path sf_imports sf_calls sf_exports] in *. f_equal.
  - apply fmap_fixed. intros d Hd. rewrite Hnone; [done |].
    apply elem_of_app. left. apply list_elem_of_fmap. by exists d.
  - apply fmap_fixed. intros c Hc.
    destruct (dynamicSpecifier c) as [spec|] eqn:Hspec; [|done].
    destruct (call_arguments c); [done |].
    rewrite Hnone; [done |].
    apply elem_of_app. right. apply elem_of_app. left.
    apply list_elem_of_omap. eauto.
  - apply fmap_fixed. intros e He.
    destruct (truthy (exp_moduleSpecifier e)) eqn:Ht; [|done].
    rewrite Hnone; [done |].
    apply elem_of_app. right. apply elem_of_app. right.
    apply list_elem_of_omap. exists e. split; [done |].
    rewrite Ht. by destruct (exp_moduleSpecifier e).
Qed.

Section Pass.

Variables (project : Project) (ms : list RenameMapping).
Variable options : FindImportUpdatesOptions.

Hypothesis Hpaths : NoDup (sf_path <$> project).
Hypothesis Hplan : ∀ m, m ∈ ms → planned m.

Let aliases := default DEFAULT_ALIASES (opt_aliases options).
Let projectRoot := default cwd (opt_projectRoot options).
Let us := findImportUpdates cwd project ms options.

(** Every update of the first pass was made for a mapping of the plan whose
    filter its old specifier passes. *)
Lemma found_update u :
  u ∈ us →
  ∃ m, m ∈ ms ∧ nameFilter (oldImport u) (oldName m) = true
     ∧ newImport u = replaceImportPath (oldImport u) (oldName m) (newName m).
Proof.
  intros (sf & r & m & _ & _ & Hm & Hmatch & ->)%elem_of_findImportUpdates.
  apply matchesImport_target in Hmatch as [Hf _]. by exists m.
Qed.

Lemma found_update_nonempty u : u ∈ us → oldImport u ≠ [].
Proof using Hplan.
  intros (m & Hm & Hf & _)%found_update Hnil.
  apply nameFilter_suffix in Hf as [k Hk]. rewrite Hnil in Hk.
  destruct (planned_names m (Hplan m Hm)) as (Hkeb & _ & _).
  apply isKebabCase_nonempty in Hkeb. by destruct k, (oldName m).
Qed.

(** A reference that some mapping matches has an update in its file. *)
Lemma matched_reference_found sf r m :
  sf ∈ project → r ∈ referencesOf sf → m ∈ ms →
  matchesImport cwd (sf_path sf) r.1 m aliases projectRoot = true →
  is_Some (findUpdate (updatesOf (sf_path sf) us) r.1).
Proof.
  intros Hsf Hr Hm Hmatch.
  assert (updateOf (sf_path sf) r m ∈ updatesOf (sf_path sf) us) as Hin.
  { apply list_elem_of_filter. split; [done |].
    apply elem_of_findImportUpdates. by exists sf, r, m. }
  unfold findUpdate.
  destruct (find _ _) as [u|] eqn:Hfind; [done |].
  apply list_elem_of_In in Hin.
  apply (find_none _ _ Hfind) in Hin.
  by rewrite bool_decide_eq_true_2 in Hin.
Qed.

(** No reference of the rewritten project is matched by a mapping of the
    plan. *)
Lemma rewritten_reference_unmatched sf r' m' :
  sf ∈ project → r' ∈ referencesOf (rewriteFile us sf) → m' ∈ ms →
  matchesImport cwd (sf_path sf) r'.1 m' aliases projectRoot = false.
Proof using Hplan.
  intros Hsf Hr' Hm'. unfold rewriteFile in Hr'.
  apply referencesOf_rewritten in Hr'
    as (r & Hr & [[Hnone ->] | (u & Hfind & ->)]).
  - apply not_true_is_false. intros Hmatch.
    destruct (matched_reference_found sf r m' Hsf Hr Hm' Hmatch) as [u Hu].
    congruence.
  - apply findUpdate_Some in Hfind as [[_ Hin]%list_elem_of_filter _].
    apply found_update in Hin as (m & Hm & Hf & ->).
    apply not_true_is_false. intros [Hf' _]%matchesImport_target.
    rewrite rewritten_fails_every_filter in Hf' by auto. done.
  - intros u [_ Hin]%list_elem_of_filter. by apply found_update_nonempty.
Qed.

Lemma second_pass_nil :
  findImportUpdates cwd (applyImportUpdates project us) ms options = [].
Proof using Hpaths Hplan.
  rewrite applyImportUpdates_map by done.
  destruct (findImportUpdates cwd (rewriteFile us <$> project) ms options)
    as [|u l] eqn:Hl; [done |].
  assert (u ∈ findImportUpdates cwd (rewriteFile us <$> project) ms options)
    as Hu by (rewrite Hl; left).
  apply elem_of_findImportUpdates in Hu
    as (sf' & r' & m' & Hsf' & Hr' & Hm' & Hmatch & _).
  apply list_elem_of_fmap in Hsf' as (sf & -> & Hsf).
  unfold rewriteFile in Hmatch at 1. rewrite applyToSourceFile_path in Hmatch.
  pose proof (rewritten_reference_unmatched sf r' m' Hsf Hr' Hm') as Hno.
  unfold aliases, projectRoot in Hno. congruence.
Qed.

(** No update of the first pass is for a specifier of the rewritten
    project. *)
Lemma rewritten_file_fixed sf :
  sf ∈ project → rewriteFile us (rewriteFile us sf) = rewriteFile us sf.
Proof using Hplan.
  intros Hsf. unfold rewriteFile at 1. apply applyToSourceFile_fixed.
  intros s Hs. rewrite specifiersOf_references in Hs.
  apply list_elem_of_fmap in Hs as (r' & -> & Hr').
  destruct (findUpdate _ _) as [u|] eqn:Hfind; [exfalso | done].
  apply findUpdate_Some in Hfind as [[Hfile Hin]%list_elem_of_filter Hold].
  apply elem_of_findImportUpdates in Hin
    as (sf2 & r2 & m2 & _ & _ & Hm2 & Hmatch & ->).
  cbn [file oldImport updateOf] in Hfile, Hold.
  unfold rewriteFile in Hfile at 1. rewrite applyToSourceFile_path in Hfile.
  rewrite Hfile, Hold in Hmatch.
  pose proof (rewritten_reference_unmatched sf r' m2 Hsf Hr' Hm2) as Hno.
  unfold aliases, projectRoot in Hno. congruence.
Qed.

Lemma second_apply_fixed :
  applyImportUpdates (applyImportUpdates project us) us
  = applyImportUpdates project us.
Proof using Hpaths Hplan.
  rewrite (applyImportUpdates_map project) by done.
  rewrite applyImportUpdates_map by (by rewrite rewriteFile_paths).
  rewrite <- list_fmap_compose. apply fmap_agree.
  intros sf Hsf. by apply rewritten_file_fixed.
Qed.

End Pass.

End SecondPass.

(** X7.  After the updates that [findImportUpdates] finds for a plan have
    been applied, a second [findImportUpdates] over the rewritten project
    with the same plan finds nothing: every reference that a mapping matched
    has been rewritten, and no rewritten specifier is matched by any mapping
    of the plan. *)
Theorem second_pass_finds_nothing (cwd : str) (project : Project)
    (ms : list RenameMapping) (options : FindImportUpdatesOptions) :
  NoDup (sf_path <$> project) →
  (∀ m, m ∈ ms → planned m) →
  findImportUpdates cwd
    (applyImportUpdates project (findImportUpdates cwd project ms options))
    ms options
  = [].
Proof. apply second_pass_nil. Qed.

Lemma second_pass_finds_nothing_witness :
  findImportUpdates "/p" [Fixture.indexTs]
    [Fixture.componentsButton; Fixture.userCard]
    {| opt_aliases := None; opt_projectRoot := None |} ≠ []
  ∧ findImportUpdates "/p"
      (applyImportUpdates [Fixture.indexTs]
         (findImportUpdates "/p" [Fixture.indexTs]
            [Fixture.componentsButton; Fixture.userCard]
            {| opt_aliases := None; opt_projectRoot := None |}))
      [Fixture.componentsButton; Fixture.userCard]
      {| opt_aliases := None; opt_projectRoot := None |}
    = [].
Proof.
  split; [by vm_compute |].
  apply second_pass_finds_nothing.
  - apply NoDup_singleton.
  - intros m Hm.
    apply elem_of_cons in Hm as [-> | Hm];
      [by exists ("/p/src/components/my-button.vue" : str) |].
    apply list_elem_of_singleton in Hm as ->.
    by exists ("/p/src/components/user-card.vue" : str).
Defined.

(** X8.  Applying the updates of [findImportUpdates] a second time to the
    project they have been applied to changes nothing: no specifier of the
    rewritten project is the old specifier of one of its updates. *)
Theorem second_apply_changes_nothing (cwd : str) (project : Project)
    (ms : list RenameMapping) (options : FindImportUpdatesOptions) :
  NoDup (sf_path <$> project) →
  (∀ m, m ∈ ms → planned m) →
  let us := findImportUpdates cwd project ms options in
  applyImportUpdates (applyImportUpdates project us) us
  = applyImportUpdates project us.
Proof. apply second_apply_fixed. Qed.

Lemma second_apply_changes_nothing_witness :
  let us :=
    findImportUpdates "/p" [Fixture.indexTs]
      [Fixture.componentsButton; Fixture.userCard]
      {| opt_aliases := None; opt_projectRoot := None |} in
  applyImportUpdates [Fixture.indexTs] us ≠ [Fixture.indexTs]
  ∧ applyImportUpdates (applyImportUpdates [Fixture.indexTs] us) us
    = applyImportUpdates [Fixture.indexTs] us.
Proof.
  split; [by vm_compute |].
  apply second_apply_changes_nothing.
  - apply NoDup_singleton.
  - intros m Hm.
    apply elem_of_cons in Hm as [-> | Hm];
      [by exists ("/p/src/components/my-button.vue" : str) |].
    apply list_elem_of_singleton in Hm as ->.
    by exists ("/p/src/components/user-card.vue" : str).
Defined.

(** ** The naming transform on kebab-case names *)

Section KebabWords.
Import Regex.

Lemma lang_star_class_intro p s :
  Forall (λ c, p c = true) s → lang (Star (Class p)) s.
Proof.
  induction 1 as [|c s Hc _ IH]; [constructor |].
  change (c :: s) with ([c] ++ s). by repeat constructor.
Qed.

Lemma lang_plus_class_intro p s :
  s ≠ [] → Forall (λ c, p c = true) s → lang (Plus (Class p)) s.
Proof.
  destruct s as [|c s]; [done |]. intros _ [Hc Hs]%Forall_cons.
  change (c :: s) with ([c] ++ s). constructor; [by constructor |].
  by apply lang_star_class_intro.
Qed.

Lemma hyphen_word_intro w :
  w ≠ [] → Forall (λ c, lower_alnum_char c = true) w →
  lang (Seq (Chr "-") (Plus lower_alnum)) ("-"%char :: w).
Proof.
  intros Hne Hw. change ("-"%char :: w) with (["-"%char] ++ w).
  constructor; [by constructor |]. by apply lang_plus_class_intro.
Qed.

Lemma hyphen_words_intro (ws : list str) :
  Forall (λ w, w ≠ [] ∧ Forall (λ c, lower_alnum_char c = true) w) ws →
  lang (Star (Seq (Chr "-") (Plus lower_alnum)))
    (concat ((λ w, "-"%char :: w) <$> ws)).
Proof.
  induction 1 as [|w ws [Hne Hw] _ IH]; [constructor |].
  rewrite fmap_cons. cbn [concat].
  constructor; [by apply hyphen_word_intro | done].
Qed.

Lemma kebab_shape_lang b w0 ws : kebab_shape b w0 ws → lang kebab_re b.
Proof.
  intros [-> (c & w & -> & Hc) [_ Hw]%Forall_cons Hne Hws].
  destruct ws as [|w1 ws]; [done |].
  apply Forall_cons in Hws as [[Hne1 Hw1] Hws].
  change ((c :: w) ++ concat ((λ w, "-"%char :: w) <$> w1 :: ws))
    with ([c] ++ w ++ ("-"%char :: w1)
            ++ concat ((λ w, "-"%char :: w) <$> ws)).
  constructor; [by constructor |].
  constructor; [by apply lang_star_class_intro |].
  constructor; [by apply hyphen_word_intro | by apply hyphen_words_intro].
Qed.

Lemma toLowerChar_toUpperChar c :
  lower_alnum_char c = true → Js.toLowerChar (Js.toUpperChar c) = c.
Proof. ascii_cases c. Qed.

Lemma toLowerCase_lower_alnum w :
  Forall (λ c, lower_alnum_char c = true) w → Js.toLowerCase w = w.
Proof.
  intros Hw. apply fmap_fixed. intros c Hc.
  eapply Forall_forall in Hw; [|done]. by apply toLowerChar_lower_alnum.
Qed.

Lemma toLowerCase_capitalize w :
  Forall (λ c, lower_alnum_char c = true) w →
  Js.toLowerCase (capitalize w) = w.
Proof.
  intros Hw. rewrite capitalize_word by done.
  destruct Hw as [|c w Hc Hw]; [done |].
  unfold Js.toLowerCase. rewrite fmap_cons, toLowerChar_toUpperChar by done.
  f_equal. by apply toLowerCase_lower_alnum.
Qed.

Lemma toLowerCase_pascalOf b w0 ws :
  kebab_shape b w0 ws → Js.toLowerCase (pascalOf b) = w0 ++ concat ws.
Proof.
  intros Hs. rewrite (pascalOf_shape _ _ _ Hs).
  destruct Hs as [_ _ H0 _ Hws].
  unfold Js.toLowerCase. rewrite fmap_app.
  fold (Js.toLowerCase (capitalize w0)). rewrite toLowerCase_capitalize by done.
  f_equal. clear H0.
  induction Hws as [|w ws [_ Hw] _ IH]; [done |].
  rewrite fmap_cons. cbn [concat]. rewrite fmap_app, IH.
  fold (Js.toLowerCase (capitalize w)). by rewrite toLowerCase_capitalize.
Qed.

Lemma filter_hyphens b w0 ws :
  kebab_shape b w0 ws → filter (λ c, c ≠ "-"%char) b = w0 ++ concat ws.
Proof.
  assert (∀ w : str, Forall (λ c, lower_alnum_char c = true) w →
            filter (λ c, c ≠ "-"%char) w = w) as Hword.
  { induction 1 as [|c w Hc _ IH]; [done |].
    rewrite filter_cons, decide_True by (by apply lower_alnum_not_hyphen).
    by rewrite IH. }
  intros [-> _ H0 _ Hws]. rewrite filter_app, Hword by done. f_equal.
  induction Hws as [|w ws [_ Hw] _ IH]; [done |].
  rewrite fmap_cons. cbn [concat]. rewrite filter_app, IH.
  rewrite filter_cons, decide_False by (by intros ?).
  by rewrite Hword.
Qed.

Lemma kebab_shape_words_length b w0 ws :
  kebab_shape b w0 ws →
  length b = length (w0 ++ concat ws) + length ws.
Proof.
  intros [-> _ _ _ _]. rewrite !length_app.
  induction ws as [|w ws IH]; [simpl; lia |].
  rewrite fmap_cons. cbn [concat]. rewrite !length_app. simpl. lia.
Qed.

End KebabWords.

(** X9.  [isKebabCase] accepts a name exactly when its base name, the name
    without its extension, is a first word that begins with a lower-case
    letter followed by one or more further words, each after one hyphen,
    every word being non-empty and made of lower-case letters and digits. *)
Theorem isKebabCase_words (n : str) :
  isKebabCase n = true
  ↔ ∃ w0 ws, kebab_shape (basename n (extname n)) w0 ws.
Proof.
  split; [apply isKebabCase_shape |].
  intros (w0 & ws & Hs). unfold isKebabCase.
  by apply test_lang, (kebab_shape_lang _ w0 ws).
Qed.

(** X10.  On a kebab-case name [toPascalCase] keeps the extension, and the
    new base name is the old one without its hyphens, up to the case of its
    letters; the name gets shorter by the number of hyphens. *)
Theorem toPascalCase_keeps_letters (n : str) :
  isKebabCase n = true →
  let b := basename n (extname n) in
  extname (toPascalCase n) = extname n
  ∧ Js.toLowerCase (basename (toPascalCase n) (extname n))
    = filter (λ c, c ≠ "-"%char) b
  ∧ length (basename (toPascalCase n) (extname n)) + length (Js.split "-" b)
    = S (length b).
Proof.
  intros Hk b. destruct (isKebabCase_shape n Hk) as (w0 & ws & Hs).
  fold b in Hs. rewrite toPascalCase_unfold. fold b.
  destruct (pascalOf_head _ _ _ Hs) as (C & P & HP & HC).
  pose proof (pascalOf_alnum _ _ _ Hs) as Halnum.
  pose proof (extname_shape n) as He.
  assert (pascalOf b ≠ []) as Hne by (by rewrite HP).
  rewrite extname_app, basename_app by done.
  split; [done |]. split.
  - by rewrite (toLowerCase_pascalOf _ _ _ Hs), (filter_hyphens _ _ _ Hs).
  - rewrite <- (length_fmap Js.toLowerChar (pascalOf b)).
    fold (Js.toLowerCase (pascalOf b)).
    rewrite (toLowerCase_pascalOf _ _ _ Hs), (kebab_shape_split _ _ _ Hs).
    rewrite (kebab_shape_words_length _ _ _ Hs). simpl. lia.
Qed.

Lemma toPascalCase_keeps_letters_witness :
  extname (toPascalCase "user-profile-card.vue") = (".vue" : str)
  ∧ Js.toLowerCase (basename (toPascalCase "user-profile-card.vue") ".vue")
    = ("userprofilecard" : str).
Proof.
  destruct (toPascalCase_keeps_letters "user-profile-card.vue")
    as (H1 & H2 & _); [reflexivity |].
  split; [exact H1 | exact H2].
Defined.

(** ** Names that differ by a hyphen before a digit *)

Section SplitFacts.

Implicit Types (u v x w : str) (sep : ascii).

Lemma split_nonempty sep u : Js.split sep u ≠ [].
Proof.
  induction u as [|c u IH]; simpl; [done |].
  case_decide; [done |]. by destruct (Js.split sep u).
Qed.

Lemma split_last sep u : ∃ us wl, Js.split sep u = us ++ [wl].
Proof.
  pose proof (split_nonempty sep u) as Hne.
  destruct (Js.split sep u) as [|w ws] using rev_ind; [done | eauto].
Qed.

Lemma split_app_sep sep u v :
  Js.split sep (u ++ sep :: v) = Js.split sep u ++ Js.split sep v.
Proof.
  induction u as [|c u IH]; simpl.
  - by rewrite decide_True.
  - case_decide; [by rewrite IH |]. rewrite IH.
    pose proof (split_nonempty sep u). by destruct (Js.split sep u).
Qed.

Lemma split_app_word sep u x (us xs : list str) wl w1 :
  Js.split sep u = us ++ [wl] → Js.split sep x = w1 :: xs →
  Js.split sep (u ++ x) = us ++ (wl ++ w1) :: xs.
Proof.
  intros Hu Hx. revert us wl Hu.
  induction u as [|c u IH]; intros us wl Hu; simpl in *.
  - destruct us as [|w [|w' us]]; by simplify_eq/=.
  - destruct (split_last sep u) as (us0 & wl0 & Hu0).
    rewrite (IH us0 wl0 Hu0). rewrite Hu0 in Hu. case_decide.
    + change ([] :: us0 ++ [wl0]) with (([] :: us0) ++ [wl0]) in Hu.
      by apply app_inj_tail in Hu as [<- <-].
    + destruct us0 as [|w0 us0]; cbn [app] in *.
      * change [c :: wl0] with ([] ++ [c :: wl0]) in Hu.
        by apply app_inj_tail in Hu as [<- <-].
      * change ((c :: w0) :: us0 ++ [wl0])
          with (((c :: w0) :: us0) ++ [wl0]) in Hu.
        by apply app_inj_tail in Hu as [<- <-].
Qed.

Lemma capitalize_app_digit wl d w :
  Js.is_digit d = true →
  capitalize (wl ++ d :: w) = capitalize wl ++ capitalize (d :: w).
Proof.
  intros Hd.
  assert (Js.toLowerChar d = d ∧ Js.toUpperChar d = d) as [Hlo Hup].
  { revert Hd. ascii_cases d. }
  unfold capitalize. destruct wl as [|c wl]; [done |].
  cbn [app take drop]. rewrite !drop_0, !take_0.
  unfold Js.toLowerCase, Js.toUpperCase.
  rewrite fmap_app, !fmap_cons, Hlo, Hup. by rewrite <- !app_assoc.
Qed.

(** A hyphen before a digit leaves no trace in the Pascal-case name. *)
Lemma pascalOf_digit_hyphen u d v :
  Js.is_digit d = true →
  pascalOf (u ++ "-"%char :: d :: v) = pascalOf (u ++ d :: v).
Proof.
  intros Hd. unfold pascalOf. rewrite !join_nil_concat.
  destruct (split_last "-" u) as (us & wl & Hu).
  assert (d ≠ "-"%char) as Hne by (intros ->; done).
  assert (∃ w ws, Js.split "-" (d :: v) = (d :: w) :: ws) as (w & ws & Hx).
  { simpl. rewrite decide_False by done.
    pose proof (split_nonempty "-" v).
    destruct (Js.split "-" v) as [|w ws]; [done | eauto]. }
  rewrite split_app_sep, Hu, Hx.
  rewrite (split_app_word "-" u (d :: v) us ws wl (d :: w)) by done.
  rewrite !fmap_app, !fmap_cons, !concat_app. cbn [concat fmap list_fmap].
  rewrite capitalize_app_digit by done. by rewrite <- !app_assoc.
Qed.

End SplitFacts.

Section FileNameFacts.

Implicit Types (dir n e b : str).

(** The extension and the base name of a name made of a part without '.'
    and '/' followed by an extension. *)
Lemma extname_app_plain b e :
  b ≠ [] → Forall (λ c, not_dot c = true) b →
  Forall (λ c, not_sep c = true) b → ext_shape e →
  extname (b ++ e) = e.
Proof.
  intros Hne Hdot%(Forall_reverse _ b) Hsep He.
  unfold extname. destruct He as [-> | (e' & -> & Hd & Hs)].
  - rewrite app_nil_r, last_component_rev_no_sep by done.
    by rewrite dropWhile_all.
  - rewrite last_component_rev_no_sep
      by (apply Forall_app; split; [done | by constructor]).
    rewrite reverse_app, reverse_cons, <- app_assoc. simpl.
    rewrite dropWhile_stop by (by try apply Forall_reverse).
    rewrite takeWhile_stop by (by try apply Forall_reverse).
    destruct (reverse b) as [|x r] eqn:Hrb.
    { apply (f_equal reverse) in Hrb.
      by rewrite reverse_involutive in Hrb. }
    rewrite bool_decide_eq_false_2.
    + by rewrite reverse_app, reverse_involutive.
    + apply Forall_cons in Hdot as [Hx _].
      destruct (reverse e') as [|y r'] eqn:Hre; simpl.
      * intros [= -> _]. done.
      * apply (Forall_reverse _ e') in Hd. rewrite Hre in Hd.
        apply Forall_cons in Hd as [Hy _]. intros [= -> _]. done.
Qed.

Lemma basename_app_plain b e :
  b ≠ [] → Forall (λ c, not_sep c = true) b → ext_shape e →
  basename (b ++ e) e = b.
Proof.
  intros Hne Hsep He.
  unfold basename. destruct He as [-> | (e' & -> & Hd & Hs)].
  - rewrite app_nil_r. simpl. by apply last_component_no_sep.
  - rewrite bool_decide_eq_true_2 by done.
    rewrite bool_decide_eq_true_2 by (rewrite length_app; lia).
    rewrite last_component_no_sep
      by (apply Forall_app; split; [done | by constructor]).
    assert (b ++ "."%char :: e' ≠ "."%char :: e') as Hneq.
    { intros Heq. apply (f_equal length) in Heq.
      rewrite length_app in Heq. destruct b; [done | simpl in Heq; lia]. }
    simpl. rewrite bool_decide_eq_false_2 by done.
    rewrite (proj2 (endsWith_suffix _ _)) by (by apply suffix_app_r).
    rewrite bool_decide_eq_false_2 by done.
    assert (length (b ++ "."%char :: e') - S (length e') = length b) as ->
      by (rewrite length_app; simpl; lia).
    by rewrite take_app_length.
Qed.

Lemma dropWhile_is_sep_name (l : str) :
  l ≠ [] → Forall (λ c, not_sep c = true) l → ∀ k,
  dropWhile is_sep (l ++ k) = l ++ k.
Proof.
  destruct l as [|c l]; [done |]. intros _ [Hc _]%Forall_cons k.
  simpl. by rewrite (not_sep_is_sep c Hc).
Qed.

Lemma reverse_file dir n :
  reverse (dir ++ "/"%char :: n) = reverse n ++ "/"%char :: reverse dir.
Proof. by rewrite reverse_app, reverse_cons, <- app_assoc. Qed.

(** The name and the directory of a file in a directory. *)
Lemma basename_file dir n :
  n ≠ [] → Forall (λ c, not_sep c = true) n →
  basename (dir ++ "/"%char :: n) [] = n.
Proof.
  intros Hne Hn. rewrite basename_nil.
  unfold last_component, last_component_rev. rewrite reverse_file.
  assert (reverse n ≠ []) as Hrne.
  { intros H%(f_equal reverse). by rewrite reverse_involutive in H. }
  apply (Forall_reverse _ n) in Hn.
  rewrite dropWhile_is_sep_name, takeWhile_stop by done.
  apply reverse_involutive.
Qed.

Lemma dirname_file dir n :
  n ≠ [] → Forall (λ c, not_sep c = true) n →
  dirname (dir ++ "/"%char :: n)
  = match dir with
    | [] => "/"
    | c0 :: dir' =>
        if is_sep c0 && bool_decide (dir' = []) then "//" else dir
    end.
Proof.
  intros Hne Hn.
  assert (reverse n ≠ []) as Hrne.
  { intros H%(f_equal reverse). by rewrite reverse_involutive in H. }
  apply (Forall_reverse _ n) in Hn.
  destruct dir as [|c0 dir']; cbn [app dirname].
  - assert (reverse n = reverse n ++ []) as -> by (by rewrite app_nil_r).
    rewrite dropWhile_is_sep_name by done. rewrite app_nil_r.
    by rewrite dropWhile_all.
  - rewrite reverse_file, dropWhile_is_sep_name, dropWhile_stop by done.
    destruct (is_sep c0); cbn [andb]; [|by rewrite reverse_involutive].
    case_bool_decide as Hd.
    + apply (f_equal reverse) in Hd. rewrite reverse_involutive in Hd.
      by rewrite Hd, bool_decide_eq_true_2.
    + rewrite bool_decide_eq_false_2; [by rewrite reverse_involutive |].
      intros ->. by rewrite reverse_nil in Hd.
Qed.

Lemma toPascalCase_digit_hyphen u d v e :
  Js.is_digit d = true →
  Forall (λ c, not_dot c = true ∧ not_sep c = true) (u ++ v) →
  ext_shape e →
  toPascalCase (u ++ "-"%char :: d :: v ++ e)
  = toPascalCase (u ++ d :: v ++ e).
Proof.
  intros Hd Huv He.
  assert (not_dot d = true ∧ not_sep d = true) as [Hd1 Hd2].
  { revert Hd. ascii_cases d. }
  apply Forall_app in Huv as [Hu Hv].
  assert (∀ x : str, Forall (λ c, not_dot c = true ∧ not_sep c = true) x →
            Forall (λ c, not_dot c = true) x
            ∧ Forall (λ c, not_sep c = true) x) as Hboth.
  { intros x Hx. split; (eapply Forall_impl; [done |]); by intros c [??]. }
  destruct (Hboth u Hu) as [Hu1 Hu2]. destruct (Hboth v Hv) as [Hv1 Hv2].
  replace (u ++ "-"%char :: d :: v ++ e)
    with ((u ++ "-"%char :: d :: v) ++ e) by (by rewrite <- app_assoc).
  replace (u ++ d :: v ++ e)
    with ((u ++ d :: v) ++ e) by (by rewrite <- app_assoc).
  rewrite !toPascalCase_unfold.
  rewrite !extname_app_plain, !basename_app_plain;
    try done; try (by destruct u);
    repeat first [apply Forall_app; split | apply Forall_cons; split]; try done.
  by rewrite pascalOf_digit_hyphen.
Qed.

End FileNameFacts.

(** X11.  The plan builder can give two files of one directory the same
    new path: a hyphen before a digit leaves no trace in the Pascal-case
    name, so two names that differ only by such a hyphen get the same new
    name. *)
Theorem plan_merges_digit_words (dir u v e : str) (d : ascii) :
  Js.is_digit d = true →
  Forall (λ c, not_dot c = true ∧ not_sep c = true) (u ++ v) →
  ext_shape e →
  let f1 := dir ++ "/" ++ u ++ "-"%char :: d :: v ++ e in
  let f2 := dir ++ "/" ++ u ++ d :: v ++ e in
  oldPath (mappingOf f1) ≠ oldPath (mappingOf f2)
  ∧ newName (mappingOf f1) = newName (mappingOf f2)
  ∧ newPath (mappingOf f1) = newPath (mappingOf f2).
Proof.
  intros Hd Huv He f1 f2.
  assert (not_dot d = true ∧ not_sep d = true) as [Hd1 Hd2].
  { revert Hd. ascii_cases d. }
  assert (Forall (λ c, not_sep c = true) e) as Hes.
  { destruct He as [-> | (e' & -> & _ & He')]; [done | by constructor]. }
  assert (Forall (λ c, not_sep c = true) (u ++ v)) as Huvs.
  { eapply Forall_impl; [done |]. by intros c [??]. }
  apply Forall_app in Huvs as [Hus Hvs].
  assert (basename f1 [] = u ++ "-"%char :: d :: v ++ e) as Hb1.
  { apply basename_file; [by destruct u |].
    repeat first [apply Forall_app; split | apply Forall_cons; split]; done. }
  assert (basename f2 [] = u ++ d :: v ++ e) as Hb2.
  { apply basename_file; [by destruct u |].
    repeat first [apply Forall_app; split | apply Forall_cons; split]; done. }
  assert (dirname f1 = dirname f2) as Hdir.
  { etrans; [apply (dirname_file dir (u ++ "-"%char :: d :: v ++ e))
            | symmetry; apply (dirname_file dir (u ++ d :: v ++ e))];
      try (by destruct u);
      repeat first [apply Forall_app; split | apply Forall_cons; split];
      done. }
  unfold mappingOf. cbn [oldPath newName newPath].
  rewrite Hb1, Hb2, Hdir, toPascalCase_digit_hyphen by done.
  split; [|done]. unfold f1, f2. intros Heq.
  apply app_inv_head in Heq. apply app_inv_head in Heq.
  apply app_inv_head in Heq. injection Heq as Heq _.
  revert Hd. rewrite <- Heq. done.
Qed.

Lemma plan_merges_digit_words_witness :
  isKebabCase "my-button-2.vue" = true
  ∧ isKebabCase "my-button2.vue" = true
  ∧ newPath (mappingOf "/p/src/components/my-button-2.vue")
    = newPath (mappingOf "/p/src/components/my-button2.vue")
  ∧ newPath (mappingOf "/p/src/components/my-button2.vue")
    = ("/p/src/components/MyButton2.vue" : str).
Proof.
  split; [reflexivity |]. split; [reflexivity |]. split; [|reflexivity].
  apply (plan_merges_digit_words "/p/src/components" "my-button" "" ".vue"
           "2").
  - reflexivity.
  - by repeat constructor.
  - right. exists ("vue" : str). by repeat constructor.
Defined.

(** ** Renaming the files *)

Section RenameFacts.

Context {Content : Type}.

Implicit Types (w : World Content) (ms : list RenameMapping).
Implicit Types (m : RenameMapping) (p old new : str) (g : bool).


Lemma renameFile_None old new g w :
  disk w !! old = None → renameFile Content old new g w = (Thrown, w).
Proof.
  intros Hold. unfold renameFile, mbind, M_bind, getDisk. by rewrite Hold.
Qed.

Lemma renameFiles_app ms1 ms2 g w :
  renameFiles Content (ms1 ++ ms2) g w
  = match renameFiles Content ms1 g w with
    | (Returned _, w1) => renameFiles Content ms2 g w1
    | (Thrown, w1) => (Thrown, w1)
    end.
Proof.
  revert w. induction ms1 as [|m ms1 IH]; intros w; [done |].
  cbn [app renameFiles]. unfold mbind, M_bind.
  destruct (renameFile _ _ _ _ w) as [[[]|] w1]; [apply IH | done].
Qed.

Lemma renameFiles_stops ms1 m ms2 g w w1 :
  renameFiles Content ms1 g w = (Returned (), w1) →
  disk w1 !! oldPath m = None →
  renameFiles Content (ms1 ++ m :: ms2) g w = (Thrown, w1).
Proof.
  intros Hms1 Hold. rewrite renameFiles_app, Hms1.
  cbn [renameFiles]. unfold mbind, M_bind. by rewrite renameFile_None.
Qed.




End RenameFacts.



(** X13.  The renaming loop stops at the first mapping whose old path has
    no file: the call throws, the files renamed before stay renamed, and
    the mappings after it are not looked at. *)
Theorem renameFiles_stops_at_missing (Content : Type)
    (ms1 : list RenameMapping) (m : RenameMapping) (ms2 : list RenameMapping)
    (useGitMv : bool) (w w1 : World Content) :
  renameFiles Content ms1 useGitMv w = (Returned (), w1) →
  disk w1 !! oldPath m = None →
  renameFiles Content (ms1 ++ m :: ms2) useGitMv w = (Thrown, w1).
Proof. apply renameFiles_stops. Qed.

Lemma renameFiles_stops_at_missing_witness :
  ∃ w1,
    renameFiles Fixture.Text
      ([Fixture.componentsButton] ++ Fixture.sharedButton
         :: [Fixture.userCard]) true Fixture.world0
    = (Thrown, w1)
    ∧ disk w1 !! ("/p/src/components/MyButton.vue" : str)
      = Some Fixture.emptyText
    ∧ disk w1 !! ("/p/src/components/user-card.vue" : str)
      = Some Fixture.emptyText.
Proof.
  eexists. split.
  - apply renameFiles_stops_at_missing; [reflexivity |]. by vm_compute.
  - split; by vm_compute.
Defined.



(** ** Normalised paths *)

Section CleanPaths.

Implicit Types (s n : str) (segs ds xs : list str).

Lemma not_sep_notin s : Forall (λ c, not_sep c = true) s → "/"%char ∉ s.
Proof.
  intros Hs Hin. eapply Forall_forall in Hs; [|done]. done.
Qed.

Lemma segments_no_sep segs :
  Forall segment segs → Forall (λ s, "/"%char ∉ s) segs.
Proof.
  intros Hsegs. eapply Forall_impl; [done |].
  intros s (_ & _ & _ & Hs). by apply not_sep_notin.
Qed.

Lemma absolutePath_snoc segs n :
  absolutePath (segs ++ [n]) = absolutePath segs ++ "/"%char :: n.
Proof.
  unfold absolutePath. rewrite fmap_app, concat_app. simpl.
  by rewrite app_nil_r.
Qed.

Lemma absolutePath_app segs segs' :
  absolutePath (segs ++ segs') = absolutePath segs ++ absolutePath segs'.
Proof. unfold absolutePath. by rewrite fmap_app, concat_app. Qed.

Lemma absolutePath_nonempty segs : segs ≠ [] → absolutePath segs ≠ [].
Proof. by destruct segs. Qed.

Lemma split_absolutePath segs :
  Forall segment segs → Js.split "/" (absolutePath segs) = [] :: segs.
Proof.
  intros Hsegs. apply (split_words "/" [] segs); [by intros ?%elem_of_nil |].
  by apply segments_no_sep.
Qed.

Lemma split_relative s segs :
  "/"%char ∉ s → Forall segment segs →
  Js.split "/" (s ++ absolutePath segs) = s :: segs.
Proof.
  intros Hs Hsegs. apply (split_words "/" s segs); [done |].
  by apply segments_no_sep.
Qed.

Lemma split_directory ds :
  Forall segment ds →
  filter kept (Js.split "/" (directory ds)) = ds
  ∧ Forall (λ s, s ≠ "..") (Js.split "/" (directory ds)).
Proof.
  intros Hds. destruct ds as [|d ds]; [by split; repeat constructor |].
  unfold directory. rewrite split_absolutePath by done.
  rewrite filter_cons_False by (by intros [? _]). split.
  - induction Hds as [|s segs (Hs1 & Hs2 & _) _ IH]; [done |].
    by rewrite filter_cons_True, IH.
  - constructor; [done |]. eapply Forall_impl; [done |].
    by intros s (_ & _ & ? & _).
Qed.

Lemma filter_kept_segments segs : Forall segment segs → filter kept segs = segs.
Proof.
  induction 1 as [|s segs (Hs1 & Hs2 & _) _ IH]; [done |].
  by rewrite filter_cons_True, IH.
Qed.

Lemma segments_no_dotdot segs :
  Forall segment segs → Forall (λ s, s ≠ "..") segs.
Proof.
  intros H. eapply Forall_impl; [done |]. by intros s (_ & _ & ? & _).
Qed.

(** Without '..' [normalizeString] drops the empty segments and the '.'
    segments, and keeps the others as they are. *)
Lemma normalizeStep_plain allowAboveRoot (l acc : list str) :
  Forall (λ s, s ≠ "..") l →
  foldl (normalizeStep allowAboveRoot) acc l = reverse (filter kept l) ++ acc.
Proof.
  intros Hl. revert acc. induction Hl as [|s l Hs _ IH]; intros acc; [done |].
  cbn [foldl]. rewrite IH. unfold normalizeStep.
  destruct (decide (s = [])) as [-> | Hne].
  { by rewrite filter_cons_False by (by intros [? _]). }
  rewrite (bool_decide_eq_false_2 (s = [])) by done. cbn [orb].
  destruct (decide (s = ".")) as [-> | Hdot].
  { by rewrite filter_cons_False by (by intros [_ ?]). }
  rewrite (bool_decide_eq_false_2 (s = ".")) by done.
  rewrite (bool_decide_eq_false_2 (s = "..")) by done.
  rewrite filter_cons_True by done.
  by rewrite reverse_cons, <- app_assoc.
Qed.

Lemma normalizeString_plain p allowAboveRoot :
  Forall (λ s, s ≠ "..") (Js.split "/" p) →
  normalizeString p allowAboveRoot
  = Js.join "/" (filter kept (Js.split "/" p)).
Proof.
  intros Hp. unfold normalizeString.
  by rewrite normalizeStep_plain, app_nil_r, reverse_involutive.
Qed.

Lemma join_absolutePath segs :
  segs ≠ [] → "/" ++ Js.join "/" segs = absolutePath segs.
Proof.
  induction segs as [|s [|s' segs] IH]; [done | |]; intros _.
  - unfold absolutePath. simpl. by rewrite app_nil_r.
  - change (Js.join "/" (s :: s' :: segs))
      with (s ++ "/" ++ Js.join "/" (s' :: segs)).
    rewrite IH by done. done.
Qed.

Lemma join_nonempty segs n : Js.join "/" (segs ++ [n]) = [] → n = [].
Proof.
  intros Hj. destruct (decide (n = [])) as [|Hn]; [done |]. exfalso.
  assert ("/" ++ Js.join "/" (segs ++ [n]) = absolutePath (segs ++ [n]))
    as Heq by (apply join_absolutePath; by destruct segs).
  rewrite Hj, absolutePath_snoc in Heq.
  apply (f_equal length) in Heq. rewrite !length_app in Heq.
  destruct n; [done |]. simpl in Heq. lia.
Qed.

(** The loop of [path.resolve]. *)
Lemma resolveLoop_relative p rargs acc :
  p ≠ [] → isAbsolute p = false →
  resolveLoop (p :: rargs) acc = resolveLoop rargs (p ++ "/" ++ acc).
Proof.
  intros Hne Hrel. cbn [resolveLoop].
  by rewrite bool_decide_eq_false_2, Hrel.
Qed.

Lemma resolveLoop_absolute p rargs acc :
  isAbsolute p = true → resolveLoop (p :: rargs) acc = (p ++ "/" ++ acc, true).
Proof.
  intros Habs. cbn [resolveLoop].
  rewrite bool_decide_eq_false_2 by (by intros ->). by rewrite Habs.
Qed.

Lemma directory_absolute ds : isAbsolute (directory ds) = true.
Proof. by destruct ds. Qed.

(** The name and the directory of a file with a normalised path. *)
Lemma basename_absolutePath ds n :
  segment n → basename (absolutePath (ds ++ [n])) [] = n.
Proof.
  intros (Hne & _ & _ & Hn). rewrite absolutePath_snoc.
  by apply basename_file.
Qed.

Lemma dirname_absolutePath ds n :
  Forall segment ds → segment n →
  dirname (absolutePath (ds ++ [n])) = directory ds.
Proof.
  intros Hds (Hne & _ & _ & Hn). rewrite absolutePath_snoc.
  rewrite dirname_file by done.
  destruct Hds as [|d ds (Hd & _) _]; [done |].
  unfold absolutePath. simpl. rewrite bool_decide_eq_false_2; [done |].
  by destruct d.
Qed.

Lemma normalize_nonempty p :
  p ≠ [] →
  normalize p
  = if bool_decide (normalizeString p (negb (isAbsolute p)) = []) then
      if isAbsolute p then "/" else if Js.endsWith p "/" then "./" else "."
    else
      (if isAbsolute p then app "/" else id)
        (if Js.endsWith p "/"
         then normalizeString p (negb (isAbsolute p)) ++ "/"
         else normalizeString p (negb (isAbsolute p))).
Proof.
  destruct p as [|c p]; [done |]. intros _. unfold normalize.
  case_bool_decide; [done |]. by destruct (isAbsolute _).
Qed.

(** [path.join] of a directory and a name. *)
Lemma join_directory ds n :
  Forall segment ds → segment n →
  join [directory ds; n] = absolutePath (ds ++ [n]).
Proof.
  intros Hds Hn. pose proof Hn as (Hne & Hdot & Hdd & Hsep).
  destruct (split_directory ds Hds) as [Hkept Hplain].
  assert (directory ds ≠ []) as HD by (by destruct ds).
  unfold join. rewrite filter_cons_True by done.
  rewrite filter_cons_True by done. rewrite filter_nil.
  change (Js.join "/" [directory ds; n]) with (directory ds ++ "/"%char :: n).
  assert (Js.split "/" (directory ds ++ "/"%char :: n)
          = Js.split "/" (directory ds) ++ [n]) as Hsplit.
  { rewrite split_app_sep, (split_no_sep "/" n); [done |].
    by apply not_sep_notin. }
  rewrite normalize_nonempty by (by destruct (directory ds)).
  assert (isAbsolute (directory ds ++ "/"%char :: n) = true) as ->
    by (by destruct ds).
  assert (Js.endsWith (directory ds ++ "/"%char :: n) "/" = false) as ->.
  { apply endsWith_false. intros [k Hk].
    apply (f_equal reverse) in Hk.
    rewrite reverse_file, reverse_app in Hk. simpl in Hk.
    apply (Forall_reverse _ n) in Hsep.
    destruct (reverse n) as [|c r] eqn:Hr.
    - apply (f_equal reverse) in Hr. by rewrite reverse_involutive in Hr.
    - apply Forall_cons in Hsep as [Hc _]. by injection Hk as -> _. }
  rewrite normalizeString_plain by
    (rewrite Hsplit; apply Forall_app; split; [done | by repeat constructor]).
  rewrite Hsplit, filter_app, Hkept, filter_cons_True, filter_nil by done.
  rewrite bool_decide_eq_false_2 by (by intros ?%join_nonempty).
  apply join_absolutePath. by destruct ds.
Qed.

(** [path.resolve] of a directory and of one or two relative paths without
    '..'. *)
Lemma resolve_directory_1 cwd ds r :
  Forall segment ds → r ≠ [] → isAbsolute r = false →
  Forall (λ s, s ≠ "..") (Js.split "/" r) →
  resolve cwd [directory ds; r]
  = "/" ++ Js.join "/" (ds ++ filter kept (Js.split "/" r)).
Proof.
  intros Hds Hr Hrel Hplain.
  destruct (split_directory ds Hds) as [Hkept Hdplain].
  unfold resolve. cbn [reverse rev_append app].
  change (reverse [cwd; directory ds; r]) with [r; directory ds; cwd].
  rewrite resolveLoop_relative, resolveLoop_absolute
    by (done || apply directory_absolute).
  cbn [negb]. f_equal.
  assert (Js.split "/" (directory ds ++ "/" ++ r ++ "/" ++ [])
          = Js.split "/" (directory ds) ++ Js.split "/" r ++ [[]]) as Hsplit.
  { change (directory ds ++ "/" ++ r ++ "/" ++ [])
      with (directory ds ++ "/"%char :: (r ++ "/"%char :: [])).
    by rewrite !split_app_sep. }
  rewrite normalizeString_plain
    by (rewrite Hsplit; repeat (apply Forall_app; split); try done;
        by repeat constructor).
  rewrite Hsplit, !filter_app, Hkept.
  rewrite (filter_cons_False kept []) by (by intros [? _]).
  by rewrite filter_nil, app_nil_r.
Qed.

Lemma resolve_directory_2 cwd ds r1 r2 :
  Forall segment ds →
  r1 ≠ [] → isAbsolute r1 = false →
  Forall (λ s, s ≠ "..") (Js.split "/" r1) →
  r2 ≠ [] → isAbsolute r2 = false →
  Forall (λ s, s ≠ "..") (Js.split "/" r2) →
  resolve cwd [directory ds; r1; r2]
  = "/" ++ Js.join "/" (ds ++ filter kept (Js.split "/" r1)
                           ++ filter kept (Js.split "/" r2)).
Proof.
  intros Hds Hr1 Hrel1 Hplain1 Hr2 Hrel2 Hplain2.
  destruct (split_directory ds Hds) as [Hkept Hdplain].
  unfold resolve.
  change (reverse [cwd; directory ds; r1; r2])
    with [r2; r1; directory ds; cwd].
  rewrite !resolveLoop_relative, resolveLoop_absolute
    by (done || apply directory_absolute).
  cbn [negb]. f_equal.
  assert (Js.split "/" (directory ds ++ "/" ++ r1 ++ "/" ++ r2 ++ "/" ++ [])
          = Js.split "/" (directory ds) ++ Js.split "/" r1
              ++ Js.split "/" r2 ++ [[]]) as Hsplit.
  { change (directory ds ++ "/" ++ r1 ++ "/" ++ r2 ++ "/" ++ [])
      with (directory ds
              ++ "/"%char :: (r1 ++ "/"%char :: (r2 ++ "/"%char :: []))).
    by rewrite !split_app_sep. }
  rewrite normalizeString_plain
    by (rewrite Hsplit; repeat (apply Forall_app; split); try done;
        by repeat constructor).
  rewrite Hsplit, !filter_app, Hkept.
  rewrite (filter_cons_False kept []) by (by intros [? _]).
  by rewrite filter_nil, app_nil_r.
Qed.

End CleanPaths.

(** ** The plan and the matcher on normalised paths *)

Section OnCleanPaths.

Variable cwd : str.

Implicit Types (s n : str) (segs ds xs rs : list str) (m : RenameMapping).

Lemma kebab_segment n :
  isKebabCase n = true → Forall (λ c, not_sep c = true) n → segment n.
Proof.
  intros Hk Hn. split; [by intros -> |].
  split; [by intros -> |]. split; [by intros -> | done].
Qed.

Lemma pascal_segment n : isKebabCase n = true → segment (toPascalCase n).
Proof.
  intros Hk. pose proof (toPascalCase_no_sep n Hk) as Hsep.
  destruct (isKebabCase_shape n Hk) as (w0 & ws & Hs).
  destruct (pascalOf_head _ _ _ Hs) as (C & P & HP & HC).
  rewrite toPascalCase_unfold, HP in Hsep |- *.
  split; [done |].
  split; [intros [= -> _]; done |]. split; [intros [= -> _]; done | done].
Qed.

Lemma mappingOf_absolutePath ds n :
  Forall segment ds → Forall (λ c, not_sep c = true) n →
  isKebabCase n = true →
  mappingOf (absolutePath (ds ++ [n]))
  = {| oldPath := absolutePath (ds ++ [n]);
       newPath := absolutePath (ds ++ [toPascalCase n]);
       oldName := n;
       newName := toPascalCase n |}.
Proof.
  intros Hds Hn Hk. unfold mappingOf.
  rewrite basename_absolutePath, dirname_absolutePath
    by (done || by apply kebab_segment).
  by rewrite join_directory by (done || by apply pascal_segment).
Qed.

Lemma endsWith_name s xs n :
  Js.endsWith (s ++ absolutePath (xs ++ [n])) ("/" ++ n) = true.
Proof.
  apply endsWith_suffix. rewrite absolutePath_snoc.
  exists (s ++ absolutePath xs). by rewrite <- app_assoc.
Qed.

Lemma nameFilter_name s xs n :
  nameFilter (s ++ absolutePath (xs ++ [n])) n = true.
Proof. unfold nameFilter. by rewrite endsWith_name. Qed.

Lemma relative_target f ds x xs n aliases projectRoot :
  Forall segment (ds ++ x :: xs ++ [n]) →
  (∀ a ap, (a, ap) ∈ aliases →
     ¬ aliasApplies a ("." ++ absolutePath (xs ++ [n]))) →
  f = absolutePath (ds ++ [x]) →
  resolvedTarget cwd f ("." ++ absolutePath (xs ++ [n])) aliases projectRoot
  = Some (absolutePath (ds ++ xs ++ [n])).
Proof.
  intros Hsegs Hno ->.
  apply Forall_app in Hsegs as [Hds [Hx Hxs]%Forall_cons].
  unfold resolvedTarget. rewrite resolveAliasImport_None by done.
  cbn [truthy].
  assert (Js.startsWith ("." ++ absolutePath (xs ++ [n])) "." = true) as ->
    by done.
  rewrite dirname_absolutePath by done.
  assert (Js.split "/" ("." ++ absolutePath (xs ++ [n]))
          = ("." : str) :: xs ++ [n]) as Hsplit.
  { apply split_relative; [|done].
    intros Hin. by apply list_elem_of_singleton in Hin. }
  rewrite resolve_directory_1; try done.
  - rewrite Hsplit, filter_cons_False by (by intros [_ ?]).
    rewrite filter_kept_segments by done.
    rewrite join_absolutePath; [done |]. by destruct ds, xs.
  - rewrite Hsplit. constructor; [done |]. by apply segments_no_dotdot.
Qed.

Lemma alias_target s before a ap after rs xs n :
  Forall segment (rs ++ Js.split "/" ap ++ xs ++ [n]) → rs ≠ [] →
  Js.endsWith a "/" = false →
  (∀ a' ap', (a', ap') ∈ before → ¬ aliasApplies a' s) →
  s = a ++ absolutePath (xs ++ [n]) →
  resolveAliasImport cwd s (before ++ (a, ap) :: after) (absolutePath rs)
  = Some (absolutePath (rs ++ Js.split "/" ap ++ xs ++ [n])).
Proof.
  intros Hsegs Hrs Ha Hno ->.
  apply Forall_app in Hsegs as [Hroot [Hap Hxs]%Forall_app].
  destruct (xs ++ [n]) as [|y ys] eqn:Hy; [by destruct xs |].
  apply Forall_cons in Hxs as Hyys. destruct Hyys as [Hysg Hys].
  pose proof Hysg as (Hyne & _ & _ & Hysep).
  assert (absolutePath (y :: ys) = "/"%char :: y ++ absolutePath ys)
    as Habs by done.
  assert ((a ++ "/") `prefix_of` a ++ absolutePath (y :: ys)) as Hpre.
  { exists (y ++ absolutePath ys). by rewrite Habs, <- app_assoc. }
  rewrite resolveAliasImport_skip by done.
  rewrite resolveAliasImport_head by (right; by left).
  assert (aliasRemainder a (a ++ absolutePath (y :: ys))
          = y ++ absolutePath ys) as ->.
  { unfold aliasRemainder, aliasPrefixOf. rewrite Ha.
    rewrite (proj2 (startsWith_prefix _ _)) by done.
    rewrite Habs.
    replace (a ++ "/"%char :: y ++ absolutePath ys)
      with ((a ++ "/") ++ y ++ absolutePath ys)
      by (by rewrite <- app_assoc).
    by rewrite drop_app_length. }
  f_equal.
  assert (ap ≠ []) as Hapne.
  { intros ->. simpl in Hap. by apply Forall_cons in Hap as [(? & _) _]. }
  assert (isAbsolute ap = false) as Haprel.
  { destruct ap as [|c ap']; [done |]. simpl.
    apply not_true_is_false. intros ->%bool_decide_eq_true.
    simpl in Hap. by apply Forall_cons in Hap as [(? & _) _]. }
  assert (Js.split "/" (y ++ absolutePath ys) = y :: ys) as Hsplit
    by (apply split_relative; [by apply not_sep_notin | done]).
  replace (absolutePath rs) with (directory rs) by (by destruct rs).
  rewrite resolve_directory_2; try done.
  - rewrite Hsplit, !filter_kept_segments by done.
    apply join_absolutePath. by destruct rs.
  - by apply segments_no_dotdot.
  - by destruct y.
  - destruct y as [|c y']; [done |]. apply Forall_cons in Hysep as [Hc _].
    by apply not_sep_is_sep.
  - rewrite Hsplit. by apply segments_no_dotdot.
Qed.

End OnCleanPaths.

(** X15.  For a kebab-case file with a normalised absolute path the plan
    builder keeps the directory and replaces the last segment by the
    Pascal-case name; the new path differs from the old one, and its name
    is not kebab-case, so that the file is not planned again. *)
Theorem planned_file_stays_in_directory (ds : list str) (n : str) :
  Forall segment ds → Forall (λ c, not_sep c = true) n →
  isKebabCase n = true →
  let m := mappingOf (absolutePath (ds ++ [n])) in
  oldName m = n
  ∧ newPath m = absolutePath (ds ++ [toPascalCase n])
  ∧ newPath m ≠ oldPath m
  ∧ isKebabCase (basename (newPath m) []) = false.
Proof.
  intros Hds Hn Hk m. unfold m. rewrite mappingOf_absolutePath by done.
  cbn [oldName newPath oldPath].
  split; [done |]. split; [done |]. split.
  - rewrite !absolutePath_snoc. intros Heq%app_inv_head.
    injection Heq as Heq. pose proof (toPascalCase_leaves_kebab n Hk) as Hno.
    rewrite Heq in Hno. congruence.
  - rewrite basename_absolutePath by (by apply pascal_segment).
    by apply toPascalCase_leaves_kebab.
Qed.

Lemma planned_file_stays_in_directory_witness :
  newPath (mappingOf "/p/src/components/user-card.vue")
  = ("/p/src/components/UserCard.vue" : str)
  ∧ isKebabCase
      (basename (newPath (mappingOf "/p/src/components/user-card.vue")) [])
    = false.
Proof.
  destruct (planned_file_stays_in_directory
              [("p" : str); ("src" : str); ("components" : str)]
              "user-card.vue") as (_ & Hnew & _ & Hnot).
  - by repeat constructor.
  - by repeat constructor.
  - reflexivity.
  - split; [exact Hnew | exact Hnot].
Defined.

(** X16.  A relative specifier './x/.../n' written in a file of the
    directory [ds], to which no alias applies, is matched by a mapping with
    the old name [n] exactly when the old path of the mapping is the file
    [n] below that directory. *)
Theorem relative_import_matched (cwd : str) (ds : list str) (x : str)
    (xs : list str) (n : str) (m : RenameMapping) (aliases : PathAliases)
    (projectRoot : str) :
  Forall segment (ds ++ x :: xs ++ [n]) →
  (∀ a ap, (a, ap) ∈ aliases →
     ¬ aliasApplies a ("." ++ absolutePath (xs ++ [n]))) →
  oldName m = n →
  matchesImport cwd (absolutePath (ds ++ [x]))
    ("." ++ absolutePath (xs ++ [n])) m aliases projectRoot = true
  ↔ oldPath m = absolutePath (ds ++ xs ++ [n]).
Proof.
  intros Hsegs Hno Hname. rewrite matchesImport_target.
  rewrite (relative_target cwd _ ds x xs n) by done.
  rewrite Hname, nameFilter_name. split; [by intros [_ [= ->]] |].
  by intros ->.
Qed.

Lemma relative_import_matched_witness :
  matchesImport "/p" "/p/src/pages/home.ts" "./widgets/my-button.vue"
    {| oldPath := "/p/src/pages/widgets/my-button.vue";
       newPath := "/p/src/pages/widgets/MyButton.vue";
       oldName := "my-button.vue";
       newName := "MyButton.vue" |} DEFAULT_ALIASES "/p" = true.
Proof.
  apply (relative_import_matched "/p" [("p" : str); ("src" : str);
           ("pages" : str)] "home.ts" [("widgets" : str)] "my-button.vue").
  - by repeat constructor.
  - intros a ap Hin [H | [H | [H _]]];
      repeat (apply elem_of_cons in Hin as [[= -> ->] | Hin]);
      try (by apply elem_of_nil in Hin);
      try done;
      try (by apply startsWith_prefix in H);
      try (by apply endsWith_suffix in H).
  - reflexivity.
  - reflexivity.
Defined.

(** X17.  A specifier 'a/x/.../n' under the first alias [a] of the table
    that applies to it is matched by a mapping with the old name [n]
    exactly when the old path of the mapping is the file [n] below the
    directory of the alias in the project root, whatever the importing
    file. *)
Theorem alias_import_matched (cwd f : str) (before : PathAliases)
    (a ap : str) (after : PathAliases) (rs xs : list str) (n : str)
    (m : RenameMapping) :
  Forall segment (rs ++ Js.split "/" ap ++ xs ++ [n]) → rs ≠ [] →
  Js.endsWith a "/" = false →
  (∀ a' ap', (a', ap') ∈ before →
     ¬ aliasApplies a' (a ++ absolutePath (xs ++ [n]))) →
  oldName m = n →
  matchesImport cwd f (a ++ absolutePath (xs ++ [n])) m
    (before ++ (a, ap) :: after) (absolutePath rs) = true
  ↔ oldPath m = absolutePath (rs ++ Js.split "/" ap ++ xs ++ [n]).
Proof.
  intros Hsegs Hrs Ha Hno Hname. rewrite matchesImport_target.
  unfold resolvedTarget.
  rewrite (alias_target cwd _ before a ap after rs xs n) by done.
  rewrite Hname, nameFilter_name.
  assert (truthy (Some (absolutePath (rs ++ Js.split "/" ap ++ xs ++ [n])))
          = true) as ->.
  { destruct rs as [|r rs']; [done |]. done. }
  split; [by intros [_ [= ->]] |]. by intros ->.
Qed.

Lemma alias_import_matched_witness :
  matchesImport "/p" "/p/src/pages/home.ts" "@/shared/my-button.vue"
    Fixture.sharedButton ([] ++ ("@" : str, "src" : str)
                            :: [("~" : str, "src" : str)]) "/p" = true.
Proof.
  apply (alias_import_matched "/p" "/p/src/pages/home.ts" [] "@" "src"
           [("~" : str, "src" : str)] [("p" : str)] [("shared" : str)]
           "my-button.vue" Fixture.sharedButton).
  - by repeat constructor.
  - done.
  - reflexivity.
  - by intros a' ap' ?%elem_of_nil.
  - reflexivity.
  - reflexivity.
Defined.

(** ** The alias table of a project *)

Section AliasMerge.

Implicit Types (va acc : PathAliases) (a : str).

Lemma spread_get va acc a :
  NoDup va.*1 →
  mapGet a (foldl (λ merged '(alias, aliasPath), mapSet alias aliasPath merged)
              acc va)
  = match mapGet a va with Some p => Some p | None => mapGet a acc end.
Proof.
  revert acc. induction va as [|[k v] va IH]; intros acc Hnd; [done |].
  rewrite fmap_cons in Hnd. apply NoDup_cons in Hnd as [Hk Hnd].
  cbn [foldl mapGet]. rewrite IH, mapGet_mapSet by done.
  case_bool_decide as Hka; [|done]. subst a.
  by rewrite (proj2 (mapGet_None k va)).
Qed.

Lemma filter_agree {A} (P Q : A → Prop) `{!∀ x, Decision (P x)}
    `{!∀ x, Decision (Q x)} (l : list A) :
  (∀ x, x ∈ l → P x ↔ Q x) → filter P l = filter Q l.
Proof.
  induction l as [|x l IH]; intros Hag; [done |].
  rewrite !filter_cons, IH by (intros y Hy; apply Hag; by right).
  assert (P x ↔ Q x) as Hx by (apply Hag; left).
  destruct (decide (P x)), (decide (Q x)); done || tauto.
Qed.

Lemma spread_keys va acc :
  NoDup va.*1 →
  (foldl (λ merged '(alias, aliasPath), mapSet alias aliasPath merged)
     acc va).*1
  = acc.*1 ++ filter (λ k, k ∉ acc.*1) va.*1.
Proof.
  revert acc. induction va as [|[k v] va IH]; intros acc Hnd.
  { by rewrite app_nil_r. }
  rewrite fmap_cons in Hnd |- *. apply NoDup_cons in Hnd as [Hk Hnd].
  cbn [foldl fst]. rewrite IH, mapSet_keys by done.
  destruct (mapGet k acc) as [p|] eqn:Hget.
  - rewrite filter_cons_False; [done |].
    intros Hnot. apply mapGet_None in Hnot. congruence.
  - apply mapGet_None in Hget. rewrite filter_cons_True by done.
    rewrite <- app_assoc. cbn [app]. do 2 f_equal.
    apply filter_agree. intros k' Hk'.
    rewrite not_elem_of_app, list_elem_of_singleton. split; [tauto |].
    intros Hnot. split; [done |]. by intros ->.
Qed.

End AliasMerge.

(** X18.  [getProjectAliases] returns the default table when no alias is
    read from the vite configuration.  Otherwise an alias of the
    configuration takes precedence over the default of the same name, a
    default that the configuration does not name is kept, and the defaults
    keep their places at the head of the table, the new aliases following
    in the order of the configuration. *)
Theorem getProjectAliases_precedence (Content : Type)
    (loadViteAliases : str → gmap str Content → option PathAliases)
    (projectRoot : str) (defaultAliases : PathAliases)
    (d : gmap str Content) :
  (loadViteAliases projectRoot d = None →
   getProjectAliases Content loadViteAliases projectRoot defaultAliases d
   = defaultAliases)
  ∧ ∀ viteAliases,
      loadViteAliases projectRoot d = Some viteAliases →
      NoDup viteAliases.*1 →
      (∀ a,
         mapGet a (getProjectAliases Content loadViteAliases projectRoot
                     defaultAliases d)
         = match mapGet a viteAliases with
           | Some p => Some p
           | None => mapGet a defaultAliases
           end)
      ∧ (getProjectAliases Content loadViteAliases projectRoot
           defaultAliases d).*1
        = defaultAliases.*1
          ++ filter (λ k, k ∉ defaultAliases.*1) viteAliases.*1.
Proof.
  unfold getProjectAliases. split; [by intros -> |].
  intros viteAliases -> Hnd. split.
  - intros a. by apply spread_get.
  - by apply spread_keys.
Qed.

Lemma getProjectAliases_precedence_witness :
  getProjectAliases unit
    (λ _ _, Some [("@" : str, "app" : str); ("#" : str, "lib" : str)])
    "/p" DEFAULT_ALIASES ∅
  = [("@" : str, "app" : str); ("~" : str, "src" : str);
     ("#" : str, "lib" : str)].
Proof.
  destruct (getProjectAliases_precedence unit
              (λ _ _, Some [("@" : str, "app" : str); ("#" : str, "lib" : str)])
              "/p" DEFAULT_ALIASES ∅) as [_ Hmerge].
  destruct (Hmerge [("@" : str, "app" : str); ("#" : str, "lib" : str)])
    as [_ Hkeys]; [reflexivity | by apply (bool_decide_unpack _); vm_compute |].
  reflexivity.
Defined.

(** ** The search for the vite configuration *)

Section ViteFacts.

Context (cwd : str) {Content : Type}.

Implicit Types (d : gmap str Content) (ds dir : list str) (s : str).

Lemma split_elements sep s : Forall (λ w, sep ∉ w) (Js.split sep s).
Proof.
  induction s as [|c s IH]; simpl.
  - repeat constructor. by intros ?%elem_of_nil.
  - case_decide as Hc.
    + constructor; [by intros ?%elem_of_nil | done].
    + destruct IH as [|w ws Hw Hws].
      * repeat constructor. by intros ?%list_elem_of_singleton.
      * constructor; [|done]. by intros [?|?]%elem_of_cons.
Qed.

Lemma notin_not_sep s : "/"%char ∉ s → Forall (λ c, not_sep c = true) s.
Proof.
  intros Hs. apply Forall_forall. intros c Hc.
  unfold not_sep, is_sep. case_bool_decide; [by subst | done].
Qed.

(** Without leave to go above the root, the stack of [normalizeString]
    holds segments only. *)
Lemma normalizeStep_segments (res : list str) seg :
  Forall segment res → "/"%char ∉ seg →
  Forall segment (normalizeStep false res seg).
Proof.
  intros Hres Hseg. unfold normalizeStep.
  case_bool_decide as H1; [done |]. case_bool_decide as H2; [done |].
  cbn [orb]. case_bool_decide as H3.
  - destruct Hres as [|top below Htop Hbelow]; [done |].
    case_bool_decide; [by constructor | done].
  - constructor; [|done]. repeat split; try done. by apply notin_not_sep.
Qed.

Lemma normalizeString_segments p :
  ∃ segs, Forall segment segs ∧ normalizeString p false = Js.join "/" segs.
Proof.
  unfold normalizeString. eexists. split; [|done].
  apply Forall_reverse.
  assert (Forall segment ([] : list str)) as Hnil by constructor.
  revert Hnil. generalize ([] : list str).
  induction (split_elements "/" p) as [|w ws Hw _ IH]; intros acc Hacc;
    [done |].
  cbn [foldl]. apply IH. by apply normalizeStep_segments.
Qed.

Lemma resolveLoop_reaches_cwd rargs acc :
  isAbsolute cwd = true → (resolveLoop (rargs ++ [cwd]) acc).2 = true.
Proof.
  intros Habs. revert acc. induction rargs as [|p rargs IH]; intros acc.
  - cbn [app]. by rewrite resolveLoop_absolute.
  - cbn [app resolveLoop]. case_bool_decide; [apply IH |].
    destruct (isAbsolute p); [done | apply IH].
Qed.

(** In a process whose working directory is absolute, [path.resolve]
    returns a normalised absolute path. *)
Lemma resolve_directory args :
  isAbsolute cwd = true →
  ∃ ds, Forall segment ds ∧ resolve cwd args = directory ds.
Proof.
  intros Habs. unfold resolve. rewrite reverse_cons.
  pose proof (resolveLoop_reaches_cwd (reverse args) [] Habs) as Hloop.
  destruct (resolveLoop _ _) as [rp abs]. cbn [snd] in Hloop. subst abs.
  cbn [negb].
  destruct (normalizeString_segments rp) as (segs & Hsegs & ->).
  exists segs. split; [done |].
  destruct segs as [|s segs]; [done |]. by apply join_absolutePath.
Qed.

Lemma directory_snoc ds x :
  directory (ds ++ [x]) = absolutePath (ds ++ [x]).
Proof. by destruct ds. Qed.

Lemma directory_not_root ds x : segment x → directory (ds ++ [x]) ≠ "/".
Proof.
  intros (Hx & _). rewrite directory_snoc.
  destruct ds as [|d ds].
  - unfold absolutePath. simpl. rewrite app_nil_r. by destruct x.
  - intros Heq. apply (f_equal length) in Heq.
    rewrite absolutePath_snoc, length_app in Heq. simpl in Heq.
    destruct x; [done |]. simpl in Heq. lia.
Qed.

Lemma names_segments : Forall segment VITE_CONFIG_NAMES.
Proof. by repeat constructor. Qed.

Lemma findConfigAmong_find d ds names :
  Forall segment ds → Forall segment names →
  findConfigAmong Content d (directory ds) names
  = find (existsSync Content d)
      ((λ name, absolutePath (ds ++ [name])) <$> names).
Proof.
  intros Hds. induction 1 as [|name names Hname _ IH]; [done |].
  cbn [findConfigAmong]. rewrite fmap_cons. cbn [find].
  rewrite join_directory by done. by rewrite IH.
Qed.

Lemma findViteConfigInDir_find d ds :
  Forall segment ds →
  findViteConfigInDir Content d (directory ds)
  = find (existsSync Content d) (configsIn ds).
Proof.
  intros Hds. apply findConfigAmong_find; [done | apply names_segments].
Qed.

Lemma find_app_list {A} (f : A → bool) (l k : list A) :
  find f (l ++ k)
  = match find f l with Some x => Some x | None => find f k end.
Proof.
  induction l as [|x l IH]; [done |]. cbn [app find].
  by destruct (f x).
Qed.

Lemma ancestors_snoc ds x : ancestors (ds ++ [x]) = (ds ++ [x]) :: ancestors ds.
Proof.
  unfold ancestors. rewrite reverse_snoc. cbn [ancestorsRev].
  by rewrite reverse_cons, reverse_involutive.
Qed.

Lemma ancestors_prefix ds dir : dir ∈ ancestors ds → dir `prefix_of` ds.
Proof.
  induction ds as [|x ds IH] using rev_ind.
  - by intros ->%list_elem_of_singleton.
  - rewrite ancestors_snoc. intros [-> | Hin]%elem_of_cons; [done |].
    by apply prefix_app_r, IH.
Qed.

(** The loop visits the directories from the start up to the root, and
    ends there. *)
Lemma walkUp_candidates fuel d ds :
  Forall segment ds → length ds < fuel →
  walkUp Content fuel d (directory ds) "/"
  = Some (find (existsSync Content d) (configCandidates ds)).
Proof.
  revert fuel. induction ds as [|x ds IH] using rev_ind; intros fuel Hds Hfuel.
  - destruct fuel as [|fuel]; [simpl in Hfuel; lia |].
    cbn [walkUp directory]. rewrite bool_decide_eq_false_2 by (by intros ?).
    change ("/" : str) with (directory []).
    rewrite findViteConfigInDir_find by done.
    unfold configCandidates.
    change (ancestors []) with [([] : list str)].
    by rewrite bind_cons, app_nil_r.
  - apply Forall_app in Hds as [Hds [Hx _]%Forall_cons].
    rewrite length_app in Hfuel. simpl in Hfuel.
    destruct fuel as [|fuel]; [lia |].
    cbn [walkUp]. rewrite bool_decide_eq_true_2 by (by apply directory_not_root).
    rewrite findViteConfigInDir_find
      by (apply Forall_app; split; [done | by constructor]).
    unfold configCandidates. rewrite ancestors_snoc, bind_cons, find_app_list.
    destruct (find _ (configsIn _)) as [p|]; [done |].
    rewrite directory_snoc, dirname_absolutePath by done.
    apply IH; [done | lia].
Qed.

Lemma findViteConfig_candidates fuel d startDir ds :
  Forall segment ds → resolve cwd [startDir] = directory ds →
  length ds < fuel →
  findViteConfig cwd Content fuel d startDir
  = Some (find (existsSync Content d) (configCandidates ds)).
Proof.
  intros Hds Hres Hfuel. unfold findViteConfig. rewrite Hres.
  unfold parseRoot. rewrite directory_absolute.
  by apply walkUp_candidates.
Qed.

Lemma find_bind_list {A B} (f : B → bool) (g : A → list B) (l : list A) :
  find f (l ≫= g)
  = x ← find (λ x, existsb f (g x)) l; find f (g x).
Proof.
  induction l as [|x l IH]; [done |].
  rewrite bind_cons, find_app_list, IH. cbn [find].
  destruct (find f (g x)) as [y|] eqn:Hfind.
  - pose proof (find_some _ _ Hfind) as [Hin Hy].
    assert (existsb f (g x) = true) as ->
      by (apply existsb_exists; eauto).
    simpl. by rewrite Hfind.
  - assert (existsb f (g x) = false) as ->; [|done].
    apply not_true_is_false. intros (y & Hin & Hy)%existsb_exists.
    by rewrite (find_none _ _ Hfind y Hin) in Hy.
Qed.

End ViteFacts.

Section ProjectRootFacts.

Context (cwd : str) {Content : Type}.

Implicit Types (d : gmap str Content) (ds dir : list str).

Lemma config_dirname d dir p :
  Forall segment dir →
  find (existsSync Content d) (configsIn dir) = Some p →
  truthy (Some p) = true ∧ dirname p = directory dir.
Proof.
  intros Hdir [Hin _]%find_some. apply list_elem_of_In in Hin.
  apply list_elem_of_fmap in Hin as (name & -> & Hname).
  pose proof names_segments as Hnames.
  eapply Forall_forall in Hnames; [|done]. split.
  - rewrite absolutePath_snoc. by destruct (absolutePath dir).
  - by apply dirname_absolutePath.
Qed.

Lemma findProjectRoot_ancestor fuel d startDir ds :
  Forall segment ds → resolve cwd [startDir] = directory ds →
  length ds < fuel →
  findProjectRoot cwd Content fuel d startDir
  = Some (directory
            (default ds
               (find (λ dir, existsb (existsSync Content d) (configsIn dir))
                  (ancestors ds)))).
Proof.
  intros Hds Hres Hfuel. unfold findProjectRoot.
  rewrite (findViteConfig_candidates cwd fuel d startDir ds) by done.
  cbn [mbind option_bind]. f_equal.
  unfold configCandidates. rewrite find_bind_list.
  destruct (find _ (ancestors ds)) as [dir|] eqn:Hdir;
    cbn [mbind option_bind default from_option id]; [|by rewrite Hres].
  apply find_some in Hdir as [Hin Hex]. apply list_elem_of_In in Hin.
  assert (Forall segment dir) as Hsegs.
  { apply ancestors_prefix in Hin as [k ->].
    by apply Forall_app in Hds as [? _]. }
  destruct (find _ (configsIn dir)) as [p|] eqn:Hp.
  - destruct (config_dirname d dir p Hsegs Hp) as [-> Hdirname].
    by cbn [default from_option id].
  - exfalso. apply existsb_exists in Hex as (p & Hpin & Hpex).
    by rewrite (find_none _ _ Hp p Hpin) in Hpex.
Qed.

End ProjectRootFacts.

(** X19.  In a process whose working directory is absolute, the loop of
    [findViteConfig] comes to its end, and the function returns the first
    configuration file that exists, looking in the resolved start directory
    and then in each directory above it up to the root, and in each
    directory for the names in the order of [VITE_CONFIG_NAMES]; it returns
    null when there is none. *)
Theorem findViteConfig_nearest (cwd : str) (Content : Type)
    (d : gmap str Content) (startDir : str) :
  isAbsolute cwd = true →
  ∃ ds, Forall segment ds ∧ resolve cwd [startDir] = directory ds
    ∧ ∀ fuel, length ds < fuel →
        findViteConfig cwd Content fuel d startDir
        = Some (find (existsSync Content d) (configCandidates ds)).
Proof.
  intros Habs.
  destruct (resolve_directory cwd [startDir] Habs) as (ds & Hds & Hres).
  exists ds. split; [done |]. split; [done |].
  intros fuel Hfuel. by apply findViteConfig_candidates.
Qed.

Lemma findViteConfig_nearest_witness :
  (∃ ds, Forall segment ds
     ∧ resolve "/p" [("src/components" : str)] = directory ds
     ∧ ∀ fuel, length ds < fuel →
         findViteConfig "/p" Fixture.Text fuel ViteFixture.disk2
           "src/components"
         = Some (find (existsSync Fixture.Text ViteFixture.disk2)
                   (configCandidates ds)))
  ∧ findViteConfig "/p" Fixture.Text 4 ViteFixture.disk2 "src/components"
    = Some (Some ("/p/vite.config.js" : str)).
Proof.
  split; [|reflexivity].
  apply (findViteConfig_nearest "/p" Fixture.Text ViteFixture.disk2
           "src/components").
  reflexivity.
Defined.

(** X20.  In a process whose working directory is absolute,
    [findProjectRoot] returns the nearest directory, from the resolved start
    directory upwards, that holds a vite configuration file, and the
    resolved start directory itself when no directory up to the root holds
    one. *)
Theorem findProjectRoot_nearest (cwd : str) (Content : Type)
    (d : gmap str Content) (startDir : str) :
  isAbsolute cwd = true →
  ∃ ds, Forall segment ds ∧ resolve cwd [startDir] = directory ds
    ∧ ∀ fuel, length ds < fuel →
        findProjectRoot cwd Content fuel d startDir
        = Some (directory
                  (default ds
                     (find (λ dir, existsb (existsSync Content d)
                                     (configsIn dir))
                        (ancestors ds)))).
Proof.
  intros Habs.
  destruct (resolve_directory cwd [startDir] Habs) as (ds & Hds & Hres).
  exists ds. split; [done |]. split; [done |].
  intros fuel Hfuel. by apply findProjectRoot_ancestor.
Qed.

Lemma findProjectRoot_nearest_witness :
  (∃ ds, Forall segment ds
     ∧ resolve "/p" [("src/components" : str)] = directory ds
     ∧ ∀ fuel, length ds < fuel →
         findProjectRoot "/p" Fixture.Text fuel ViteFixture.disk2
           "src/components"
         = Some (directory
                   (default ds
                      (find (λ dir, existsb
                                      (existsSync Fixture.Text
                                         ViteFixture.disk2)
                                      (configsIn dir))
                         (ancestors ds)))))
  ∧ findProjectRoot "/p" Fixture.Text 4 ViteFixture.disk2 "src/components"
    = Some ("/p" : str)
  ∧ findProjectRoot "/p" Fixture.Text 4 ∅ "src/components"
    = Some ("/p/src/components" : str).
Proof.
  split; [|split; reflexivity].
  apply (findProjectRoot_nearest "/p" Fixture.Text ViteFixture.disk2
           "src/components").
  reflexivity.
Defined.

(** ** Counting lines *)

Lemma split_length sep (s : str) :
  length (Js.split sep s) = S (length (filter (λ c, c = sep) s)).
Proof.
  induction s as [|c s IH]; [done |]. simpl.
  rewrite filter_cons. case_decide as Hc.
  - simpl. by rewrite IH.
  - destruct (Js.split sep s) as [|w ws]; [done |]. by rewrite <- IH.
Qed.

(** X21.  [countFileLines] counts 0 lines for a file that cannot be read,
    and for a file that can be read one more than the number of its newline
    characters: an empty file counts one line, and a text that ends with a
    newline counts the empty line after it. *)
Theorem countFileLines_newlines (d : gmap str str) (filePath : str) :
  countFileLines str lineCount d filePath
  = match d !! filePath with
    | Some content => S (length (filter (λ c, c = "010"%char) content))
    | None => 0
    end.
Proof.
  unfold countFileLines. destruct (d !! filePath) as [content|]; [|done].
  apply split_length.
Qed.

(** ** What a real run writes *)

Section RealRun.

Context (cwd : str) {Content : Type}.
Context (printSourceFile : Content → SourceFile → Content).

Implicit Types (w : World Content) (ms : list RenameMapping).
Implicit Types (us : list ImportUpdate) (sf : SourceFile) (p : str).







End RealRun.





(** ** Imports from the parent directory *)

Section ParentImports.

Variable cwd : str.

Implicit Types (s n d : str) (segs ds xs : list str) (m : RenameMapping).

(** [path.resolve] of a directory and a relative path that begins with
    one '..'. *)
Lemma resolve_parent ds d segs :
  Forall segment (ds ++ [d]) → Forall segment segs →
  resolve cwd [directory (ds ++ [d]); ".." ++ absolutePath segs]
  = "/" ++ Js.join "/" (ds ++ segs).
Proof.
  intros Hdir Hsegs.
  destruct (split_directory (ds ++ [d]) Hdir) as [Hkept Hplain].
  apply Forall_app in Hdir as Hdir'. destruct Hdir' as [Hds [Hd _]%Forall_cons].
  unfold resolve.
  change (reverse [cwd; directory (ds ++ [d]); ".." ++ absolutePath segs])
    with [".." ++ absolutePath segs; directory (ds ++ [d]); cwd].
  rewrite resolveLoop_relative, resolveLoop_absolute
    by (done || apply directory_absolute).
  cbn [negb]. f_equal. unfold normalizeString. f_equal.
  assert (Js.split "/" (directory (ds ++ [d]) ++ "/"
                          ++ (".." ++ absolutePath segs) ++ "/" ++ [])
          = Js.split "/" (directory (ds ++ [d]))
              ++ [(".." : str)] ++ (segs ++ [[]])) as ->.
  { change (directory (ds ++ [d]) ++ "/"
              ++ (".." ++ absolutePath segs) ++ "/" ++ [])
      with (directory (ds ++ [d])
              ++ "/"%char :: ((".." ++ absolutePath segs) ++ "/"%char :: [])).
    rewrite !split_app_sep. f_equal.
    rewrite (split_relative ".." segs); [done | | done].
    intros Hin. repeat (apply elem_of_cons in Hin as [Hin | Hin]; [done |]).
    by apply elem_of_nil in Hin. }
  assert (normalizeStep false (d :: reverse ds) ".." = reverse ds) as Hpop.
  { unfold normalizeStep. destruct Hd as (_ & _ & Hdd & _).
    rewrite (bool_decide_eq_false_2 ((".." : str) = [])) by done.
    rewrite (bool_decide_eq_false_2 ((".." : str) = ".")) by done.
    rewrite (bool_decide_eq_true_2 ((".." : str) = "..")) by done.
    by rewrite (bool_decide_eq_false_2 (d = "..")). }
  rewrite !foldl_app, (normalizeStep_plain false _ []) by done.
  rewrite Hkept, app_nil_r, reverse_snoc.
  cbn [foldl]. rewrite Hpop.
  rewrite normalizeStep_plain by (by apply segments_no_dotdot).
  rewrite filter_kept_segments by done.
  change (normalizeStep false (reverse segs ++ reverse ds) [])
    with (reverse segs ++ reverse ds).
  by rewrite reverse_app, !reverse_involutive.
Qed.

Lemma parent_target f ds d x xs n aliases projectRoot :
  Forall segment (ds ++ d :: x :: xs ++ [n]) →
  (∀ a ap, (a, ap) ∈ aliases →
     ¬ aliasApplies a (".." ++ absolutePath (xs ++ [n]))) →
  f = absolutePath (ds ++ [d; x]) →
  resolvedTarget cwd f (".." ++ absolutePath (xs ++ [n])) aliases projectRoot
  = Some (absolutePath (ds ++ xs ++ [n])).
Proof.
  intros Hsegs Hno ->.
  apply Forall_app in Hsegs as [Hds [Hd [Hx Hxs]%Forall_cons]%Forall_cons].
  unfold resolvedTarget. rewrite resolveAliasImport_None by done.
  cbn [truthy].
  assert (Js.startsWith (".." ++ absolutePath (xs ++ [n])) "." = true) as ->
    by done.
  assert (Forall segment (ds ++ [d])) as Hdir
    by (apply Forall_app; split; [done | by constructor]).
  replace (ds ++ [d; x]) with ((ds ++ [d]) ++ [x])
    by (by rewrite <- app_assoc).
  rewrite dirname_absolutePath, resolve_parent by done.
  rewrite join_absolutePath; [done |]. by destruct ds, xs.
Qed.

End ParentImports.

(** X24.  A specifier '../x/.../n' written in a file of the directory
    [ds]/[d], to which no alias applies, is matched by a mapping with the
    old name [n] exactly when the old path of the mapping is the file [n]
    at that place below the parent directory [ds]. *)
Theorem parent_import_matched (cwd : str) (ds : list str) (d x : str)
    (xs : list str) (n : str) (m : RenameMapping) (aliases : PathAliases)
    (projectRoot : str) :
  Forall segment (ds ++ d :: x :: xs ++ [n]) →
  (∀ a ap, (a, ap) ∈ aliases →
     ¬ aliasApplies a (".." ++ absolutePath (xs ++ [n]))) →
  oldName m = n →
  matchesImport cwd (absolutePath (ds ++ [d; x]))
    (".." ++ absolutePath (xs ++ [n])) m aliases projectRoot = true
  ↔ oldPath m = absolutePath (ds ++ xs ++ [n]).
Proof.
  intros Hsegs Hno Hname. rewrite matchesImport_target.
  rewrite (parent_target cwd _ ds d x xs n) by done.
  rewrite Hname, nameFilter_name. split; [by intros [_ [= ->]] |].
  by intros ->.
Qed.

Lemma parent_import_matched_witness :
  matchesImport "/p" "/p/src/pages/home.ts" "../shared/my-button.vue"
    Fixture.sharedButton DEFAULT_ALIASES "/p" = true.
Proof.
  apply (parent_import_matched "/p" [("p" : str); ("src" : str)] "pages"
           "home.ts" [("shared" : str)] "my-button.vue").
  - by repeat constructor.
  - intros a ap Hin [H | [H | [H _]]];
      repeat (apply elem_of_cons in Hin as [[= -> ->] | Hin]);
      try (by apply elem_of_nil in Hin);
      try done;
      try (by apply startsWith_prefix in H);
      try (by apply endsWith_suffix in H).
  - reflexivity.
  - reflexivity.
Defined.

(** ** The rewritten specifier follows the renamed file *)

Section LastSegment.

Variable cwd : str.

Implicit Types (s n pre : str) (segs : list str) (args rargs : list str).

Lemma foldl_segments (l acc : list str) :
  Forall segment acc → Forall (λ w, "/"%char ∉ w) l →
  Forall segment (foldl (normalizeStep false) acc l).
Proof.
  intros Hacc Hl. revert acc Hacc.
  induction Hl as [|w l Hw _ IH]; intros acc Hacc; [done |].
  cbn [foldl]. apply IH. by apply normalizeStep_segments.
Qed.

Lemma normalizeStep_segment (res : list str) n :
  segment n → normalizeStep false res n = n :: res.
Proof.
  intros (H1 & H2 & H3 & _). unfold normalizeStep.
  by rewrite !bool_decide_eq_false_2.
Qed.

(** The segments before the last one do not depend on the last one. *)
Lemma normalizeString_last_segment pre :
  pre = [] ∨ (∃ k, pre = k ++ ["/"%char]) →
  ∃ segs, Forall segment segs
    ∧ ∀ n, segment n →
        normalizeString (pre ++ n ++ "/") false = Js.join "/" (segs ++ [n]).
Proof.
  intros [-> | [k ->]].
  - exists []. split; [done |]. intros n Hn. unfold normalizeString.
    change ([] ++ n ++ "/") with (n ++ "/"%char :: []).
    rewrite split_app_sep, (split_no_sep "/" n)
      by (destruct Hn as (_ & _ & _ & Hn); by apply not_sep_notin).
    cbn [app foldl]. by rewrite normalizeStep_segment.
  - exists (reverse (foldl (normalizeStep false) [] (Js.split "/" k))).
    split.
    { apply Forall_reverse, foldl_segments; [done | apply split_elements]. }
    intros n Hn. unfold normalizeString. f_equal.
    replace ((k ++ ["/"%char]) ++ n ++ "/")
      with (k ++ "/"%char :: (n ++ "/"%char :: []))
      by (by rewrite <- app_assoc).
    rewrite !split_app_sep, (split_no_sep "/" n)
      by (destruct Hn as (_ & _ & _ & Hn); by apply not_sep_notin).
    rewrite !foldl_app. cbn [foldl]. rewrite normalizeStep_segment by done.
    change (Js.split "/" []) with [([] : str)]. cbn [foldl].
    change (normalizeStep false ?res []) with res. by rewrite reverse_cons.
Qed.

Lemma resolveLoop_prefix rargs :
  ∃ P b, (P = [] ∨ ∃ k, P = k ++ ["/"%char])
    ∧ ∀ acc, resolveLoop rargs acc = (P ++ acc, b).
Proof.
  induction rargs as [|p rargs (P & b & HP & IH)].
  - exists [], false. split; [by left | done].
  - cbn [resolveLoop]. case_bool_decide as Hp; [by exists P, b |].
    destruct (isAbsolute p).
    + exists (p ++ "/"), true. split; [right; by exists p |].
      intros acc. by rewrite <- app_assoc.
    + exists (P ++ p ++ "/"), b. split.
      * right. exists (P ++ p). by rewrite <- app_assoc.
      * intros acc. rewrite IH. by rewrite <- !app_assoc.
Qed.

Lemma segment_relative n : segment n → isAbsolute n = false.
Proof.
  intros (Hne & _ & _ & Hn). destruct n as [|c n]; [done |].
  apply Forall_cons in Hn as [Hc _]. by apply not_sep_is_sep.
Qed.

(** In a process whose working directory is absolute, [path.resolve] of
    arguments of which the last one ends with a segment gives a normalised
    path that ends with that segment, and the segments before it do not
    depend on it. *)
Lemma resolve_last_segment args pre :
  isAbsolute cwd = true →
  pre = [] ∨ (∃ k, pre = k ++ ["/"%char]) →
  ∃ segs, Forall segment segs
    ∧ ∀ n, segment n →
        resolve cwd (args ++ [pre ++ n]) = absolutePath (segs ++ [n]).
Proof.
  intros Habs Hpre.
  destruct (resolveLoop_prefix (reverse args ++ [cwd])) as (P & b & HP & Hloop).
  assert (b = true) as ->.
  { pose proof (resolveLoop_reaches_cwd cwd (reverse args) [] Habs) as Hb.
    by rewrite Hloop in Hb. }
  assert (∃ Q, (Q = [] ∨ ∃ k, Q = k ++ ["/"%char])
            ∧ ∀ n, segment n →
                resolveLoop (reverse (cwd :: args ++ [pre ++ n])) []
                = (Q ++ n ++ "/", true)) as (Q & HQ & HQloop).
  { assert (∀ n, reverse (cwd :: args ++ [pre ++ n])
                 = (pre ++ n) :: (reverse args ++ [cwd])) as Hrev.
    { intros n. by rewrite reverse_cons, reverse_snoc. }
    destruct Hpre as [-> | [k ->]].
    - exists P. split; [done |]. intros n Hn. rewrite Hrev.
      cbn [app]. rewrite resolveLoop_relative, Hloop;
        [done | by destruct Hn | by apply segment_relative].
    - destruct (isAbsolute (k ++ ["/"%char])) eqn:Hk.
      + exists (k ++ ["/"%char]). split; [right; by exists k |].
        intros n Hn. rewrite Hrev, resolveLoop_absolute.
        * by rewrite <- !app_assoc.
        * by destruct k.
      + exists (P ++ k ++ ["/"%char]). split.
        { right. exists (P ++ k). by rewrite <- app_assoc. }
        intros n Hn. rewrite Hrev, resolveLoop_relative, Hloop.
        * by rewrite <- !app_assoc.
        * by destruct k.
        * by destruct k. }
  destruct (normalizeString_last_segment Q HQ) as (segs & Hsegs & Hnorm).
  exists segs. split; [done |]. intros n Hn.
  unfold resolve. rewrite HQloop by done. cbn [negb].
  rewrite Hnorm by done. apply join_absolutePath. by destruct segs.
Qed.

End LastSegment.

Section RewrittenFollows.

Variable cwd : str.

Implicit Types (s n pre a : str) (m : RenameMapping) (aliases : PathAliases).

Lemma aliasPrefixOf_sep a : ∃ t, aliasPrefixOf a = t ++ ["/"%char].
Proof.
  unfold aliasPrefixOf. destruct (Js.endsWith a "/") eqn:He.
  - apply endsWith_suffix in He as [t ->]. by exists t.
  - by exists a.
Qed.

Lemma aliasApplies_prefix a s :
  a ≠ s → aliasApplies a s ↔ aliasPrefixOf a `prefix_of` s.
Proof.
  intros Hne. rewrite <- aliasApplies_test. unfold aliasPrefixOf.
  rewrite orb_true_iff, bool_decide_eq_true, startsWith_prefix.
  split; [by intros [? | ?] | by left].
Qed.

(** A prefix that ends with '/' does not reach into the last segment. *)
Lemma prefix_within pre n (P : str) :
  (∃ t, P = t ++ ["/"%char]) → "/"%char ∉ n →
  P `prefix_of` pre ++ n → P `prefix_of` pre.
Proof.
  intros [t ->] Hn Hp.
  destruct (prefix_weak_total (t ++ ["/"%char]) pre (pre ++ n))
    as [H | [r Hr]]; [done | by apply prefix_app_r | done |].
  destruct r as [|c r _] using rev_ind.
  { rewrite app_nil_r in Hr. by rewrite Hr. }
  rewrite app_assoc in Hr. apply app_inj_tail in Hr as [Ht <-].
  destruct Hp as [r' Hr']. rewrite Ht, <- !app_assoc in Hr'.
  apply app_inv_head in Hr'. exfalso. apply Hn. rewrite Hr'.
  apply elem_of_app. right. apply elem_of_app. left. left.
Qed.

Lemma aliasApplies_last_segment a pre n n' :
  "/"%char ∉ n → a ≠ pre ++ n → a ≠ pre ++ n' →
  aliasApplies a (pre ++ n) → aliasApplies a (pre ++ n').
Proof.
  intros Hn Hne Hne' Ha. apply aliasApplies_prefix in Ha; [|done].
  apply aliasApplies_prefix; [done |]. apply prefix_app_r.
  eapply prefix_within; [apply aliasPrefixOf_sep | done..].
Qed.

Lemma aliasRemainder_last_segment a pre n :
  pre = [] ∨ (∃ k, pre = k ++ ["/"%char]) →
  "/"%char ∉ n → a ≠ pre ++ n → aliasApplies a (pre ++ n) →
  ∃ pre', (pre' = [] ∨ ∃ k, pre' = k ++ ["/"%char])
    ∧ ∀ n', aliasRemainder a (pre ++ n') = pre' ++ n'.
Proof.
  intros Hpre Hn Hne Ha. apply aliasApplies_prefix in Ha; [|done].
  apply (prefix_within pre n) in Ha as [pre' Hpre'];
    [|apply aliasPrefixOf_sep | done].
  exists pre'. split.
  - destruct pre' as [|c pre' _] using rev_ind; [by left |]. right.
    destruct Hpre as [-> | [k ->]].
    + apply (f_equal length) in Hpre'. rewrite !length_app in Hpre'.
      simpl in Hpre'. lia.
    + rewrite app_assoc in Hpre'. apply app_inj_tail in Hpre' as [_ <-].
      by exists pre'.
  - intros n'. unfold aliasRemainder.
    rewrite (proj2 (startsWith_prefix _ _))
      by (rewrite Hpre'; apply prefix_app_r; by exists pre').
    by rewrite Hpre', <- app_assoc, drop_app_length.
Qed.

Lemma resolveAliasImport_first s aliases projectRoot p :
  resolveAliasImport cwd s aliases projectRoot = Some p →
  ∃ before a ap after,
    aliases = before ++ (a, ap) :: after
    ∧ (∀ a' ap', (a', ap') ∈ before → ¬ aliasApplies a' s)
    ∧ aliasApplies a s
    ∧ p = resolve cwd [projectRoot; ap; aliasRemainder a s].
Proof.
  induction aliases as [|[a ap] aliases IH]; [done |].
  cbn [resolveAliasImport].
  destruct (Js.startsWith s _ || bool_decide (s = a)) eqn:Ht.
  - intros [= <-]. exists [], a, ap, aliases. split; [done |].
    split; [by intros ?? ?%elem_of_nil |].
    split; [by apply aliasApplies_test | done].
  - intros (before & a0 & ap0 & after & -> & Hb & Ha & ->)%IH.
    exists ((a, ap) :: before), a0, ap0, after. split; [done |].
    split; [|done].
    intros a' ap' [[= -> ->] | Hin]%elem_of_cons; [|by eapply Hb].
    intros Happ%aliasApplies_test. congruence.
Qed.

Lemma nameFilter_last_segment pre n :
  pre = [] ∨ (∃ k, pre = k ++ ["/"%char]) → nameFilter (pre ++ n) n = true.
Proof.
  unfold nameFilter. intros [-> | [k ->]].
  - by rewrite (bool_decide_eq_true_2 ([] ++ n = n)), orb_true_r.
  - rewrite (proj2 (endsWith_suffix _ _)); [done |].
    exists k. by rewrite <- app_assoc.
Qed.

(** The names and the paths of a planned mapping whose old path is
    normalised. *)
Lemma planned_on_path m segs n :
  planned m → Forall segment segs → oldPath m = absolutePath (segs ++ [n]) →
  segment n → oldName m = n ∧ newPath m = absolutePath (segs ++ [newName m]).
Proof.
  intros (fp & -> & Hk) Hsegs Hfp Hn.
  change (fp = absolutePath (segs ++ [n])) in Hfp. subst fp.
  rewrite basename_absolutePath in Hk by done.
  rewrite mappingOf_absolutePath by (done || by destruct Hn as (_ & _ & _ & ?)).
  done.
Qed.

Lemma rewritten_target f s m aliases projectRoot :
  isAbsolute cwd = true → planned m →
  (∀ a ap, (a, ap) ∈ aliases →
     a ≠ s ∧ a ≠ replaceImportPath s (oldName m) (newName m)) →
  matchesImport cwd f s m aliases projectRoot = true →
  nameFilter (replaceImportPath s (oldName m) (newName m)) (newName m) = true
  ∧ resolvedTarget cwd f (replaceImportPath s (oldName m) (newName m))
      aliases projectRoot
    = Some (newPath m).
Proof.
  intros Habs Hplan Hne [Hf Htarget]%matchesImport_target.
  destruct (planned_names m Hplan) as (Hk & HN & Hsep).
  pose proof (kebab_segment _ Hk Hsep) as Hn.
  pose proof (pascal_segment _ Hk) as HNseg. rewrite <- HN in HNseg.
  apply nameFilter_prefix in Hf as (pre & -> & Hpre).
  rewrite replaceImportPath_suffix in * by (by destruct Hn).
  split; [by apply nameFilter_last_segment |].
  assert ("/"%char ∉ oldName m) as Hn' by (by apply not_sep_notin).
  assert ("/"%char ∉ newName m) as HN'
    by (destruct HNseg as (_ & _ & _ & ?); by apply not_sep_notin).
  unfold resolvedTarget in *.
  destruct (truthy (resolveAliasImport cwd (pre ++ oldName m) aliases
                      projectRoot)) eqn:Ht.
  - apply resolveAliasImport_first in Htarget
      as (before & a & ap & after & -> & Hbefore & Ha & Hfp).
    assert (a ≠ pre ++ oldName m ∧ a ≠ pre ++ newName m) as [Hne1 Hne2].
    { apply (Hne a ap), elem_of_app. right. left. }
    destruct (aliasRemainder_last_segment a pre (oldName m))
      as (pre' & Hpre' & Hrem); [done.. |].
    destruct (resolve_last_segment cwd [projectRoot; ap] pre' Habs Hpre')
      as (segs & Hsegs & Hres).
    cbn [app] in Hres. rewrite Hrem, Hres in Hfp by done.
    destruct (planned_on_path m segs (oldName m)) as [_ ->]; [done.. |].
    rewrite resolveAliasImport_skip, resolveAliasImport_head, Hrem, Hres.
    + rewrite absolutePath_snoc. by destruct (absolutePath segs).
    + done.
    + by apply (aliasApplies_last_segment a pre (oldName m)).
    + intros a' ap' Hin Happ. apply (Hbefore a' ap' Hin).
      assert (a' ≠ pre ++ oldName m ∧ a' ≠ pre ++ newName m) as [? ?].
      { apply (Hne a' ap'), elem_of_app. by left. }
      by apply (aliasApplies_last_segment a' pre (newName m)).
  - destruct (Js.startsWith (pre ++ oldName m) ".") eqn:Hdot; [|done].
    injection Htarget as Hfp.
    destruct (resolve_last_segment cwd [dirname f] pre Habs Hpre)
      as (segs & Hsegs & Hres).
    cbn [app] in Hres. rewrite Hres in Hfp by done.
    destruct (planned_on_path m segs (oldName m)) as [_ ->]; [done.. |].
    assert (truthy (resolveAliasImport cwd (pre ++ newName m) aliases
                      projectRoot) = false) as ->.
    { apply not_true_is_false. intros Ht'.
      destruct (resolveAliasImport cwd (pre ++ newName m) aliases projectRoot)
        as [q|] eqn:Hq; [|done].
      apply resolveAliasImport_Some in Hq as (a & ap & rel & Hin & Ha & _).
      destruct (Hne a ap Hin) as [Hne1 Hne2].
      rewrite (resolveAliasImport_truthy cwd (pre ++ oldName m) aliases
                 projectRoot) in Ht; [done |].
      exists a, ap. split; [done |].
      by apply (aliasApplies_last_segment a pre (newName m)). }
    assert (Js.startsWith (pre ++ newName m) "." = true) as ->.
    { destruct pre as [|c pre]; [|done]. exfalso.
      destruct (isKebabCase_shape _ Hk) as (w0 & ws & Hs).
      pose proof (basename_extname_split _ Hsep) as Hsplit.
      destruct Hs as [Heq (c & w & -> & Hc) _ _ _].
      rewrite Heq in Hsplit. cbn [app] in Hdot.
      rewrite <- Hsplit in Hdot. cbn [app] in Hdot.
      simpl in Hdot. case_decide as Hcd; [|done]. by subst c. }
    by rewrite Hres.
Qed.

End RewrittenFollows.

(** X25.  In a process whose working directory is absolute, a specifier
    that a planned mapping matches still denotes the file after the
    renaming: the rewritten specifier resolves to the new path of the
    mapping, by the same rule (alias or relative) as before, and is matched
    by the renamed file under its new name.  The aliases are taken not to
    be the specifier itself. *)
Theorem rewritten_import_follows (cwd f s : str) (m : RenameMapping)
    (aliases : PathAliases) (projectRoot : str) :
  isAbsolute cwd = true → planned m →
  (∀ a ap, (a, ap) ∈ aliases →
     a ≠ s ∧ a ≠ replaceImportPath s (oldName m) (newName m)) →
  matchesImport cwd f s m aliases projectRoot = true →
  resolvedTarget cwd f (replaceImportPath s (oldName m) (newName m))
    aliases projectRoot
  = Some (newPath m)
  ∧ matchesImport cwd f (replaceImportPath s (oldName m) (newName m))
      {| oldPath := newPath m; newPath := newPath m;
         oldName := newName m; newName := newName m |}
      aliases projectRoot
    = true.
Proof.
  intros Habs Hplan Hne Hmatch.
  destruct (rewritten_target cwd f s m aliases projectRoot Habs Hplan Hne
              Hmatch) as [Hf Ht].
  split; [done |]. by apply matchesImport_target.
Qed.

Lemma rewritten_import_follows_witness :
  resolvedTarget "/p" "/p/src/pages/home-page.vue"
    (replaceImportPath "@/shared/my-button.vue" "my-button.vue" "MyButton.vue")
    DEFAULT_ALIASES "/p"
  = Some ("/p/src/shared/MyButton.vue" : str)
  ∧ resolvedTarget "/p" "/p/src/components/index.ts"
      (replaceImportPath "./my-button.vue" "my-button.vue" "MyButton.vue")
      DEFAULT_ALIASES "/p"
    = Some ("/p/src/components/MyButton.vue" : str).
Proof.
  split.
  - apply (rewritten_import_follows "/p" "/p/src/pages/home-page.vue"
             "@/shared/my-button.vue" Fixture.sharedButton DEFAULT_ALIASES
             "/p").
    + reflexivity.
    + by exists ("/p/src/shared/my-button.vue" : str).
    + intros a ap Hin.
      repeat (apply elem_of_cons in Hin as [[= -> ->] | Hin]); [done.. |].
      by apply elem_of_nil in Hin.
    + reflexivity.
  - apply (rewritten_import_follows "/p" "/p/src/components/index.ts"
             "./my-button.vue" Fixture.componentsButton DEFAULT_ALIASES
             "/p").
    + reflexivity.
    + by exists ("/p/src/components/my-button.vue" : str).
    + intros a ap Hin.
      repeat (apply elem_of_cons in Hin as [[= -> ->] | Hin]); [done.. |].
      by apply elem_of_nil in Hin.
    + reflexivity.
Defined.

(** ** The result of a run and the loading of the project *)

Section ResultFacts.

Context (cwd : str) {Content : Type}.
Context (glob : str → str → list str → gmap str Content → list str).
Context (parseSourceFile : str → Content → option SourceFile).

Lemma foldl_sum {A} (f : A → nat) (l : list A) (acc : nat) :
  foldl (λ sum x, sum + f x) acc l = acc + sum_list_with f l.
Proof.
  revert acc. induction l as [|x l IH]; intros acc; simpl; [lia |].
  rewrite IH. lia.
Qed.


End ResultFacts.


(** X27.  The result of [renameVueFiles], of a dry run as of a real one,
    is consistent: there is one file statistic for each mapping, with the
    paths and names of the mapping, and the summary counts the mappings and
    the import updates and adds up the lines and the sizes of the
    statistics. *)
Theorem renameVueFiles_result_consistent (cwd : str) (Content : Type)
    (glob : str → str → list str → gmap str Content → list str)
    (parseSourceFile : str → Content → option SourceFile)
    (printSourceFile : Content → SourceFile → Content)
    (countLines byteSize : Content → nat)
    (loadViteAliases : str → gmap str Content → option PathAliases)
    (options : RenameOptions) (w : World Content) (r : RenameResult) :
  (renameVueFiles cwd Content glob parseSourceFile printSourceFile
     countLines byteSize loadViteAliases options w).1 = Returned r →
  res_dryRun r = default false (dryRun options)
  ∧ fileStats r = collectFileStats Content countLines byteSize (mappings r)
                    (disk w)
  ∧ ((λ f, (fs_oldPath f, fs_newPath f, fs_oldName f, fs_newName f))
       <$> fileStats r)
    = ((λ m, (oldPath m, newPath m, oldName m, newName m)) <$> mappings r)
  ∧ totalFiles (summary r) = length (mappings r)
  ∧ totalImports (summary r) = length (importUpdates r)
  ∧ totalLines (summary r) = sum_list_with fs_lines (fileStats r)
  ∧ totalSize (summary r) = sum_list_with fs_size (fileStats r).
Proof.
  unfold renameVueFiles, mbind, M_bind, getDisk.
  destruct (report_returns (onProgress options) "Scanning for Vue files..."
              None None w) as (w1 & -> & Hd1).
  case_bool_decide as Hempty.
  { unfold mret, M_ret. cbn [fst]. by intros [= <-]. }
  destruct (report_returns (onProgress options)
              "Collecting file statistics..." None None w1)
    as (w2 & -> & Hd2).
  match goal with
  | |- context [loadProject _ _ _ ?dir ?ext ?ign ?cb w2] =>
      destruct (loadProject_returns glob parseSourceFile dir ext ign cb w2)
        as (project & w3 & -> & Hd3)
  end.
  destruct (report_returns (onProgress options)
              "Finding import references..." None None w3)
    as (w4 & -> & Hd4).
  match goal with
  | |- context [if ?b then ?real else mret ()] =>
      destruct (if b then real else mret ()) as [[[]|] w5]
  end; [|done].
  unfold mret, M_ret. cbn [fst]. intros [= <-].
  cbn [res_dryRun fileStats mappings summary importUpdates totalFiles
       totalImports totalLines totalSize].
  rewrite !foldl_sum. repeat split; try done.
  unfold collectFileStats. rewrite <- list_fmap_compose. by apply fmap_agree.
Qed.

Lemma renameVueFiles_result_consistent_witness :
  ∃ r,
    (Fixture.run Fixture.options0 Fixture.world0).1 = Returned r
    ∧ totalFiles (summary r) = 2
    ∧ totalImports (summary r) = length (importUpdates r)
    ∧ totalLines (summary r) = sum_list_with fs_lines (fileStats r).
Proof.
  eexists. split; [vm_compute; reflexivity |].
  edestruct (renameVueFiles_result_consistent "/p" Fixture.Text Fixture.glob
               Fixture.parse Fixture.print Fixture.lines Fixture.size
               Fixture.noViteAliases Fixture.options0 Fixture.world0)
    as (_ & _ & _ & Hfiles & Himports & Hlines & _);
    [vm_compute; reflexivity |].
  split; [exact Hfiles |]. split; [exact Himports | exact Hlines].
Defined.

(** ** Renaming the plan of [createMappingsFromFiles] *)

Section PlanIsSafe.

Context {Content : Type}.



End PlanIsSafe.


